(** * Two-tier content harvesting: extraction, routing and run statistics

    A shallow embedding of [src/content_harvester.ts] (the field extractors
    and the [ContentHarvester] class) and of the hybrid probe crawler
    ([ParseUtils] and [HybridCrawler], the second module of [src/index.ts]).

    Conventions.
    - A JavaScript string is the list of its UTF-16 code units, so
      [length] is the source's [.length].
    - [string | undefined] and [string | null] are [option jsstring].
    - A computation that may throw returns a [completion]; [try]/[catch]
      is [try_catch].
    - What the platform provides (the [URL] class, the regular-expression
      engine, [JSON], Readability, [crypto]) is the class [Runtime]; what
      a page provides is a record of query results ([CheerioAPI], [Page]).
    - Counters are natural numbers: the source increments JavaScript
      numbers from 0, which is exact below 2^53. *)

From Stdlib Require Import ZArith Floats Uint63 Strings.Ascii Strings.String.
From stdpp Require Import base option list numbers strings pretty gmap.

Set Default Proof Using "Type".

(** ** JavaScript strings *)

Abbreviation jsstring := (list N).

(** A literal of the source, one code unit per character. *)
Definition lit (s : string) : jsstring :=
  (λ a, N_of_ascii a) <$> list_ascii_of_string s.

(** A selector literal of the source. The source delimits its selectors
    with single quotes and uses double quotes inside; here the inner double
    quotes are typed as single quotes and mapped back to code unit 34. *)
Definition css (s : string) : jsstring :=
  (λ c, if decide (c = 39%N) then 34%N else c) <$> lit s.


(** JavaScript truthiness of a [string | undefined] value. *)
Definition truthy (v : option jsstring) : bool :=
  match v with
  | Some (_ :: _) => true
  | _ => false
  end.

(** [a || b] on [string | undefined] values. *)
Definition js_or (a b : option jsstring) : option jsstring :=
  if truthy a then a else b.

(** [v || ''] *)
Definition or_empty (v : option jsstring) : jsstring :=
  match v with
  | Some (c :: s) => c :: s
  | _ => []
  end.

(** ECMAScript WhiteSpace and LineTerminator code units: what [\s]
    matches and what [trim] removes. *)
Definition is_white_space (c : N) : bool :=
  ((9 <=? c) && (c <=? 13) || (c =? 32) || (c =? 160) || (c =? 5760)
   || (8192 <=? c) && (c <=? 8202) || (c =? 8232) || (c =? 8233)
   || (c =? 8239) || (c =? 8287) || (c =? 12288) || (c =? 65279))%N.

Definition is_digit (c : N) : bool := ((48 <=? c) && (c <=? 57))%N.

Fixpoint trimStart (s : jsstring) : jsstring :=
  match s with
  | c :: s' => if is_white_space c then trimStart s' else s
  | [] => []
  end.

Definition trim (s : jsstring) : jsstring :=
  reverse (trimStart (reverse (trimStart s))).

(** [text.replace(/\s+/g, ' ')]: every maximal run of white space becomes
    one space. [in_run] tells that the previous unit was white space. *)
Fixpoint replace_white_space_runs (in_run : bool) (s : jsstring) : jsstring :=
  match s with
  | [] => []
  | c :: s' =>
      if is_white_space c
      then (if in_run then replace_white_space_runs true s'
            else 32%N :: replace_white_space_runs true s')
      else c :: replace_white_space_runs false s'
  end.

(** [text.split(/\s+/).filter(w => w.length > 0).length]: the number of
    maximal runs of units that are not white space. *)
Fixpoint count_words (in_word : bool) (s : jsstring) : nat :=
  match s with
  | [] => 0
  | c :: s' =>
      if is_white_space c then count_words false s'
      else if in_word then count_words true s'
      else S (count_words true s')
  end.

(** [/\d/.test(text)] *)
Definition has_digit (s : jsstring) : bool := existsb is_digit s.

(** ** Completions: values and thrown exceptions *)

Inductive completion (A : Type) : Type :=
| Normal (a : A)
| Throw (e : jsstring).
Arguments Normal {A} a.
Arguments Throw {A} e.

Definition bind {A B} (c : completion A) (k : A → completion B) : completion B :=
  match c with
  | Normal a => k a
  | Throw e => Throw e
  end.

Notation "'let*' x := c 'in' k" := (bind c (λ x, k))
  (at level 10, x name, c at level 100, k at level 200).

(** [try { body } catch (e) { handler }] *)
Definition try_catch {A} (body : completion A) (handler : jsstring → completion A)
  : completion A :=
  match body with
  | Normal a => Normal a
  | Throw e => handler e
  end.

(** A loop whose body may throw: [for (const x of xs) { acc = f(acc, x) }]. *)
Fixpoint for_of {A B} (f : B → A → completion B) (xs : list A) (acc : B)
  : completion B :=
  match xs with
  | [] => Normal acc
  | x :: xs' => let* acc' := f acc x in for_of f xs' acc'
  end.

(** ** [new Set(xs)] and [[...set]]

    A JavaScript [Set] of strings iterates in insertion order; adding a
    member that is already present changes nothing. *)

Section JsSet.
Context {A : Type} `{EqDecision A}.

Definition Set_add (s : list A) (x : A) : list A :=
  if decide (x ∈ s) then s else s ++ [x].

Definition Set_new (xs : list A) : list A := foldl Set_add [] xs.

End JsSet.

(** ** The platform *)

(** A URL record of the WHATWG URL standard, as the [URL] class holds it.
    [host], [query] and [fragment] may be null. *)
Record URL := {
  scheme : jsstring;
  username : jsstring;
  password : jsstring;
  host : option jsstring;
  port : option jsstring;
  path : jsstring;
  query : option jsstring;
  fragment : option jsstring;
}.

(** The [hostname] getter: the empty string when the host is null. *)
Definition URL_hostname (u : URL) : jsstring := default [] (host u).

(** The [hash] setter at the empty string: the fragment becomes null. *)
Definition set_hash_empty (u : URL) : URL :=
  {| scheme := scheme u; username := username u; password := password u;
     host := host u; port := port u; path := path u; query := query u;
     fragment := None |}.

(** The [href] getter: the URL serializer. *)
Definition URL_href (u : URL) : jsstring :=
  scheme u ++ lit ":"
  ++ match host u with
     | Some h =>
         lit "//"
         ++ (if decide (username u = [] ∧ password u = []) then []
             else username u
                  ++ (if decide (password u = []) then [] else lit ":" ++ password u)
                  ++ lit "@")
         ++ h
         ++ match port u with Some p => lit ":" ++ p | None => [] end
     | None => []
     end
  ++ path u
  ++ match query u with Some q => lit "?" ++ q | None => [] end
  ++ match fragment u with Some f => lit "#" ++ f | None => [] end.

(** A regular-expression literal of the source: pattern and flags. *)
Record RegExp := { source : jsstring; flags : jsstring }.

(** A value returned by [JSON.parse]. The members of an object are listed
    in the order [Object.values] enumerates them, one entry per key. *)
#[warnings="-register-all"]
Inductive json : Type :=
| JNull
| JBool (b : bool)
| JNumber (x : float)
| JString (s : jsstring)
| JArray (items : list json)
| JObject (members : list (jsstring * json)).

Class Runtime := {
  (** [new URL(input, base)]; [None] when the constructor throws. *)
  URL_new : jsstring → option URL → option URL;
  (** [text.match(re)]: [None] for null; with the [g] flag every match in
      order, without it the match array, whose element 0 is the match. *)
  String_match : RegExp → jsstring → option (list jsstring);
  (** [JSON.parse(text)]; [None] when it throws. *)
  JSON_parse : jsstring → option json;
  (** [JSON.stringify(value)] of a parsed value. *)
  JSON_stringify : json → jsstring;
  (** [new Readability(new JSDOM(html, { url }).window.document).parse()]:
      the [textContent] of the article, [None] when [parse] returns null
      or the article has none. *)
  Readability_parse : jsstring → jsstring → completion (option jsstring);
  (** [createHash('sha256').update(text).digest('hex')] *)
  createHash_sha256_hex : jsstring → jsstring;
  (** [text.toLowerCase()] *)
  toLowerCase : jsstring → jsstring;
}.

(** ** What a page provides *)

(** An element of a Cheerio selection. *)
Record Element := {
  el_text : jsstring;                    (* $(el).text() *)
  el_attr : jsstring → option jsstring;  (* $(el).attr(name) *)
  el_html : jsstring;                    (* $(el).html() *)
}.

(** The static parse tree of a page, as the fast path queries it. A query
    may throw; the handlers run their queries inside [try]. *)
Record CheerioAPI := {
  (** [$.html()] *)
  root_html : jsstring;
  (** [$(selector)]: the matching elements in document order. *)
  select : jsstring → completion (list Element);
  (** [const body = $('body').clone(); body.find(selector).remove();
      body.text()] *)
  body_text_without : jsstring → completion jsstring;
}.

(** [$(selector).text()]: the texts of all elements of the selection. *)
Definition selection_text (els : list Element) : jsstring :=
  concat (el_text <$> els).

(** [$(selector).attr(name)]: the attribute of the first element. *)
Definition selection_attr (els : list Element) (name : jsstring) : option jsstring :=
  match head els with Some e => el_attr e name | None => None end.

(** [$(selector).html()]: the markup of the first element, or null. *)
Definition selection_html (els : list Element) : option jsstring :=
  el_html <$> head els.

(** An element handle of a Playwright locator. *)
Record ElementHandle := {
  textContent : completion (option jsstring);
  getAttribute : jsstring → completion (option jsstring);
}.

(** The rendered page, as the fallback path queries it once consent
    overlays were handled and the load state was awaited (both swallow
    their failures). Each [page.evaluate] closure of the source is a field
    holding what the closure returns. *)
Record Page := {
  page_title : completion jsstring;
  page_content : completion jsstring;
  (** [page.locator(selector).all()] *)
  locator_all : jsstring → completion (list ElementHandle);
  (** [page.locator(selector).getAttribute(name)] *)
  locator_getAttribute : jsstring → jsstring → completion (option jsstring);
  (** [innerText || ''] of the body clone without script, style, noscript *)
  evaluate_visible_text : completion jsstring;
  (** [document.querySelectorAll('*').length] *)
  evaluate_node_count : completion nat;
  (** [innerText || ''] of [main, article, [role="main"]] or of the body *)
  evaluate_main_innerText : completion jsstring;
  (** [innerText || ''] of every [p, div] under that element *)
  evaluate_main_paragraphs : completion (list jsstring);
  (** [footer ? footer.innerText : ''] *)
  evaluate_footer_innerText : completion jsstring;
  (** [document.body.innerHTML] *)
  evaluate_body_innerHTML : completion jsstring;
}.

(** ** The document model: [ContentDocSchema] *)

Record Headings := { h1 : list jsstring; h2 : list jsstring; h3 : list jsstring }.

Record Links := {
  internal : list jsstring;
  external : list jsstring;
  canonicalized : bool;
}.

Record Contacts := { emails : list jsstring; phones : list jsstring }.

Record DomStats := { words : nat; chars : nat; node_count : nat }.

Inductive RenderMode := http | js.

Module ContentDoc.
Record t := {
  url : jsstring;
  fetched_at : jsstring;
  http_status : option nat;
  content_type : option jsstring;
  canonical_url : option jsstring;
  lang : option jsstring;
  title : option jsstring;
  meta_description : option jsstring;
  og : gmap jsstring jsstring;
  meta : gmap jsstring jsstring;
  main_text : option jsstring;
  all_text_excerpt : option jsstring;
  headings : Headings;
  text_blocks : list jsstring;
  jsonld : list json;
  microdata_present : option bool;
  schema_types : list jsstring;
  links : Links;
  contacts : option Contacts;
  evidence : list jsstring;
  dom_stats : DomStats;
  html_hash : jsstring;
  render_mode : RenderMode;
}.
End ContentDoc.
Abbreviation ContentDoc := ContentDoc.t.

Section Extractors.
Context `{Runtime}.

Definition new_URL (input : jsstring) (base : option URL) : completion URL :=
  match URL_new input base with
  | Some u => Normal u
  | None => Throw (lit "TypeError: Invalid URL")
  end.

(** *** Utility functions of [content_harvester.ts] *)

Definition truncate (str : jsstring) (maxLen : N) : jsstring :=
  if decide (maxLen < N.of_nat (length str))%N then take (N.to_nat maxLen) str else str.

Definition normalizeWhitespace (text : jsstring) : jsstring :=
  trim (replace_white_space_runs false text).

Definition extractDomain (url : jsstring) : completion jsstring :=
  try_catch (let* u := new_URL url None in Normal (URL_hostname u))
            (λ _, Normal []).

Definition normalizeUrl (url baseUrl : jsstring) : completion jsstring :=
  try_catch (let* base := new_URL baseUrl None in
             let* resolved := new_URL url (Some base) in
             let resolved := set_hash_empty resolved in
             Normal (URL_href resolved))
            (λ _, Normal url).

Definition emailRegex : RegExp :=
  {| source := lit "\b[A-Za-z0-9._%+-]+@[A-Za-z0-9.-]+\.[A-Z|a-z]{2,}\b";
     flags := lit "g" |}.

Definition extractEmails (text : jsstring) : list jsstring :=
  let matches := default [] (String_match emailRegex text) in
  filter (λ e, length e < 100) (Set_new matches).

Definition phoneRegex : RegExp :=
  {| source := lit "(?:\+?\d{1,3}[-.\s]?)?\(?\d{1,4}\)?[-.\s]?\d{1,4}[-.\s]?\d{1,9}";
     flags := lit "g" |}.

Definition extractPhones (text : jsstring) : list jsstring :=
  let matches := default [] (String_match phoneRegex text) in
  take 20 (Set_new matches).

Definition pricePattern : RegExp :=
  {| source := lit "[\d\s.,]+(?:kr|sek|" ++ [8364%N] ++ lit "|\$|" ++ [163%N] ++ lit "|:-)";
     flags := lit "i" |}.

Definition findPriceLike (text : jsstring) : option jsstring :=
  match String_match pricePattern text with
  | Some (m0 :: _) => Some (truncate m0 400)
  | _ => None
  end.

Definition sha256 (text : jsstring) : jsstring := createHash_sha256_hex text.

Definition extractMainTextWithReadability (html url : jsstring) : option jsstring :=
  match Readability_parse html url with
  | Normal (Some (c :: textContent)) => Some (normalizeWhitespace (c :: textContent))
  | _ => None
  end.

(** *** Largest text blocks (the fallback of the main-text extractor) *)

(** [blocks.sort((a, b) => b.length - a.length)]: a stable sort, longest
    first. *)
Fixpoint insert_by_length (x : jsstring) (sorted : list jsstring) : list jsstring :=
  match sorted with
  | [] => [x]
  | y :: rest =>
      if decide (length y < length x) then x :: y :: rest
      else y :: insert_by_length x rest
  end.

Definition sort_by_length_desc (blocks : list jsstring) : list jsstring :=
  foldl (λ sorted x, insert_by_length x sorted) [] blocks.

(** [$(selector).each(...)] of [extractLargestTextBlocks]: the normalized
    texts longer than [minLength]. *)
Definition long_texts (ch : CheerioAPI) (selector : jsstring) (minLength : nat)
  : completion (list jsstring) :=
  let* els := select ch selector in
  Normal (filter (λ text, minLength < length text)
                 ((λ el, normalizeWhitespace (el_text el)) <$> els)).

Definition extractLargestTextBlocks (ch : CheerioAPI) (maxBlocks : nat)
  : completion (list jsstring) :=
  let* blocks := for_of (λ blocks selector,
                     let* more := long_texts ch selector 100 in Normal (blocks ++ more))
                  [css "main"; css "article"; css "[role='main']"] [] in
  let* blocks := (if decide (length blocks = 0) then long_texts ch (css "p, div") 200
            else Normal blocks) in
  Normal ((λ b, truncate b 2000) <$> take maxBlocks (sort_by_length_desc blocks)).

(** *** Headings *)

Definition heading_texts_cheerio (ch : CheerioAPI) (selector : jsstring)
  : completion (list jsstring) :=
  let* els := select ch selector in
  Normal (filter (λ text, text ≠ [])
                 ((λ el, normalizeWhitespace (el_text el)) <$> els)).

Definition heading_texts_page (page : Page) (selector : jsstring)
  : completion (list jsstring) :=
  let* els := locator_all page selector in
  for_of (λ acc el,
            let* text := textContent el in
            Normal (if truthy text then acc ++ [normalizeWhitespace (or_empty text)]
                    else acc))
         els [].

Definition extractHeadings (ch : option CheerioAPI) (page : option Page)
  : completion Headings :=
  match ch, page with
  | Some ch, _ =>
      let* a := heading_texts_cheerio ch (css "h1") in
      let* b := heading_texts_cheerio ch (css "h2") in
      let* c := heading_texts_cheerio ch (css "h3") in
      Normal {| h1 := Set_new a; h2 := Set_new b; h3 := Set_new c |}
  | None, None => Normal {| h1 := []; h2 := []; h3 := [] |}
  | None, Some page =>
      let* a := heading_texts_page page (css "h1") in
      let* b := heading_texts_page page (css "h2") in
      let* c := heading_texts_page page (css "h3") in
      Normal {| h1 := Set_new a; h2 := Set_new b; h3 := Set_new c |}
  end.

(** *** JSON-LD *)

(** The body of the [try] of [extractJsonLd], both paths: parse, measure the
    serialization, keep the value when it has at most 150000 units. *)
Definition parse_jsonld (jsonld : list json) (text : jsstring) : list json :=
  match JSON_parse text with
  | Some parsed =>
      let stringified := JSON_stringify parsed in
      if decide (N.of_nat (length stringified) ≤ 150000)%N then jsonld ++ [parsed] else jsonld
  | None => jsonld   (* catch: skip invalid JSON *)
  end.

Definition extractJsonLd (ch : option CheerioAPI) (page : option Page)
  : completion (list json) :=
  match ch, page with
  | Some ch, _ =>
      let* els := select ch (css "script[type='application/ld+json']") in
      Normal (foldl (λ jsonld el, parse_jsonld jsonld (el_text el)) [] els)
  | None, None => Normal []
  | None, Some page =>
      let* scripts := locator_all page (css "script[type='application/ld+json']") in
      Normal (foldl (λ jsonld script,
                       match textContent script with
                       | Normal (Some (c :: text)) => parse_jsonld jsonld (c :: text)
                       | _ => jsonld
                       end) [] scripts)
  end.

(** [record[key]] on the members of a parsed object. *)
Fixpoint member (key : jsstring) (members : list (jsstring * json)) : option json :=
  match members with
  | [] => None
  | (k, v) :: rest => if decide (k = key) then Some v else member key rest
  end.

(** The inner function [traverse] of [extractSchemaTypes]; the set [types]
    it adds to is threaded through. *)
Fixpoint traverse (types : list jsstring) (obj : json) : list jsstring :=
  match obj with
  | JArray items => foldl traverse types items
  | JObject members =>
      let types :=
        match member (lit "@type") members with
        | Some (JString (c :: ty)) => Set_add types (c :: ty)
        | _ => types
        end in
      foldl (λ types kv, traverse types kv.2) types members
  | _ => types
  end.

Definition extractSchemaTypes (jsonld : list json) : list jsstring :=
  foldl traverse [] jsonld.

(** *** Links *)

(** The body of the loop over the anchors, the same on both paths. *)
Definition add_link (baseUrl baseDomain : jsstring)
    (lists : list jsstring * list jsstring) (href : option jsstring)
  : completion (list jsstring * list jsstring) :=
  if truthy href then
    let* normalized := normalizeUrl (or_empty href) baseUrl in
    let* domain := extractDomain normalized in
    if decide (domain = baseDomain) then Normal (lists.1 ++ [normalized], lists.2)
    else if decide (domain ≠ []) then Normal (lists.1, lists.2 ++ [normalized])
    else Normal lists
  else Normal lists.

Definition extractLinks (ch : option CheerioAPI) (page : option Page) (baseUrl : jsstring)
  : completion Links :=
  let* baseDomain := extractDomain baseUrl in
  match ch, page with
  | Some ch, _ =>
      let* els := select ch (css "a[href]") in
      let* lists := for_of (λ lists el, add_link baseUrl baseDomain lists (el_attr el (lit "href")))
                     els ([], []) in
      Normal {| internal := take 200 (Set_new lists.1);
                external := take 200 (Set_new lists.2);
                canonicalized := true |}
  | None, None => Normal {| internal := []; external := []; canonicalized := false |}
  | None, Some page =>
      let* links := locator_all page (css "a[href]") in
      let* lists := for_of (λ lists link,
                        let* href := getAttribute link (lit "href") in
                        add_link baseUrl baseDomain lists href)
                     links ([], []) in
      Normal {| internal := take 200 (Set_new lists.1);
                external := take 200 (Set_new lists.2);
                canonicalized := true |}
  end.

(** *** Metadata *)

(** [value || undefined] *)
Definition or_undefined (v : option jsstring) : option jsstring :=
  if truthy v then v else None.

Definition metaKeys : list jsstring :=
  [lit "keywords"; lit "author"; lit "viewport"; lit "robots"; lit "theme-color";
   lit "apple-mobile-web-app-title"].

(** The bodies of the loops over the [og:] and the named [meta] elements. *)
Definition add_og (og : gmap jsstring jsstring) (property content : option jsstring)
  : gmap jsstring jsstring :=
  if truthy property && truthy content
  then <[or_empty property := or_empty content]> og else og.

Definition add_meta (meta : gmap jsstring jsstring) (name content : option jsstring)
  : gmap jsstring jsstring :=
  if truthy name && truthy content && bool_decide (or_empty name ∈ metaKeys)
     && bool_decide (size meta < 20)
  then <[or_empty name := or_empty content]> meta else meta.

Record Metadata := {
  md_title : option jsstring;
  md_meta_description : option jsstring;
  md_lang : option jsstring;
  md_canonical_url : option jsstring;
  md_og : gmap jsstring jsstring;
  md_meta : gmap jsstring jsstring;
}.

Definition extractMetadata (ch : option CheerioAPI) (page : option Page)
  : completion Metadata :=
  match ch, page with
  | Some ch, _ =>
      let* els := select ch (css "title") in
      let* title :=
        (let t := trim (selection_text els) in
         if decide (t ≠ []) then Normal (Some t)
         else let* els := select ch (css "meta[property='og:title']") in
              Normal (or_undefined (selection_attr els (lit "content")))) in
      let* els := select ch (css "meta[name='description']") in
      let* meta_description :=
        (let d := selection_attr els (lit "content") in
         if truthy d then Normal d
         else let* els := select ch (css "meta[property='og:description']") in
              Normal (or_undefined (selection_attr els (lit "content")))) in
      let* els := select ch (css "html") in
      let lang := or_undefined (selection_attr els (lit "lang")) in
      let* els := select ch (css "link[rel='canonical']") in
      let canonical_url := or_undefined (selection_attr els (lit "href")) in
      let* els := select ch (css "meta[property^='og:']") in
      let og := foldl (λ og el, add_og og (el_attr el (lit "property"))
                                          (el_attr el (lit "content"))) ∅ els in
      let* els := select ch (css "meta[name]") in
      let meta := foldl (λ meta el, add_meta meta (el_attr el (lit "name"))
                                                  (el_attr el (lit "content"))) ∅ els in
      Normal {| md_title := title; md_meta_description := meta_description;
                md_lang := lang; md_canonical_url := canonical_url;
                md_og := og; md_meta := meta |}
  | None, None =>
      Normal {| md_title := None; md_meta_description := None; md_lang := None;
                md_canonical_url := None; md_og := ∅; md_meta := ∅ |}
  | None, Some page =>
      let* t := page_title page in
      let* title :=
        (if decide (t ≠ []) then Normal (Some t)
         else let* c := locator_getAttribute page (css "meta[property='og:title']")
                                             (lit "content") in
              Normal (or_undefined c)) in
      let* d := locator_getAttribute page (css "meta[name='description']") (lit "content") in
      let* meta_description :=
        (if truthy d then Normal d
         else let* c := locator_getAttribute page (css "meta[property='og:description']")
                                             (lit "content") in
              Normal (or_undefined c)) in
      let* l := locator_getAttribute page (css "html") (lit "lang") in
      let lang := or_undefined l in
      let* c := locator_getAttribute page (css "link[rel='canonical']") (lit "href") in
      let canonical_url := or_undefined c in
      let* ogMetas := locator_all page (css "meta[property^='og:']") in
      let* og := for_of (λ og el,
                           let* property := getAttribute el (lit "property") in
                           let* content := getAttribute el (lit "content") in
                           Normal (add_og og property content)) ogMetas ∅ in
      let* metaElements := locator_all page (css "meta[name]") in
      let* meta := for_of (λ meta el,
                             let* name := getAttribute el (lit "name") in
                             let* content := getAttribute el (lit "content") in
                             Normal (add_meta meta name content)) metaElements ∅ in
      Normal {| md_title := title; md_meta_description := meta_description;
                md_lang := lang; md_canonical_url := canonical_url;
                md_og := og; md_meta := meta |}
  end.

(** *** Visible text, evidence, DOM statistics *)

Definition extractAllText (ch : option CheerioAPI) (page : option Page)
  : completion jsstring :=
  match ch, page with
  | Some ch, _ =>
      let* text := body_text_without ch (css "script, style, noscript") in
      Normal (truncate (normalizeWhitespace text) 15000)
  | None, None => Normal []
  | None, Some page =>
      let* text := evaluate_visible_text page in
      Normal (truncate (normalizeWhitespace text) 15000)
  end.

(** [text.indexOf(keyword)]; [None] for -1. *)
Fixpoint indexOf (text keyword : jsstring) : option nat :=
  if decide (keyword `prefix_of` text) then Some 0
  else match text with
       | [] => None
       | _ :: rest => S <$> indexOf rest keyword
       end.

(** [text.substring(from, to)] for [from <= to]. *)
Definition substring (text : jsstring) (from to : nat) : jsstring :=
  take (to - from) (drop from text).

(** The loop over the keywords: the index of the first keyword found. *)
Fixpoint first_keyword_index (lowerText : jsstring) (keywords : list jsstring)
  : option nat :=
  match keywords with
  | [] => None
  | keyword :: rest =>
      match indexOf lowerText keyword with
      | Some index => Some index
      | None => first_keyword_index lowerText rest
      end
  end.

Definition extractEvidence (mainText allText : jsstring) : list jsstring :=
  let evidence := [] in
  let price := findPriceLike allText in
  let evidence := if truthy price then evidence ++ [or_empty price] else evidence in
  let evidence :=
    if decide (mainText ≠ []) then evidence ++ [truncate mainText 400] else evidence in
  let keywords := [lit "terms"; lit "policy"; lit "privacy"; lit "cookie";
                   lit "villkor"; lit "integritet"] in
  let lowerText := toLowerCase allText in
  let evidence :=
    match first_keyword_index lowerText keywords with
    | Some index =>
        let snippet := substring allText (index - 50) (index + 200) in
        evidence ++ [truncate (normalizeWhitespace snippet) 400]
    | None => evidence
    end in
  take 5 evidence.

Definition calculateDomStats (ch : option CheerioAPI) (page : option Page)
  : completion DomStats :=
  match ch, page with
  | Some ch, _ =>
      let* text := body_text_without ch (css "script, style, noscript") in
      let* all := select ch (css "*") in
      Normal {| words := count_words false text; chars := length text;
                node_count := length all |}
  | None, None => Normal {| words := 0; chars := 0; node_count := 0 |}
  | None, Some page =>
      let* text := evaluate_visible_text page in
      let* n := evaluate_node_count page in
      Normal {| words := count_words false text; chars := length text; node_count := n |}
  end.

End Extractors.

(** The document [d] with another fetch time, every other field kept. *)
Definition with_fetched_at (t : jsstring) (d : ContentDoc) : ContentDoc :=
  {| ContentDoc.url := ContentDoc.url d;
     ContentDoc.fetched_at := t;
     ContentDoc.http_status := ContentDoc.http_status d;
     ContentDoc.content_type := ContentDoc.content_type d;
     ContentDoc.canonical_url := ContentDoc.canonical_url d;
     ContentDoc.lang := ContentDoc.lang d;
     ContentDoc.title := ContentDoc.title d;
     ContentDoc.meta_description := ContentDoc.meta_description d;
     ContentDoc.og := ContentDoc.og d;
     ContentDoc.meta := ContentDoc.meta d;
     ContentDoc.main_text := ContentDoc.main_text d;
     ContentDoc.all_text_excerpt := ContentDoc.all_text_excerpt d;
     ContentDoc.headings := ContentDoc.headings d;
     ContentDoc.text_blocks := ContentDoc.text_blocks d;
     ContentDoc.jsonld := ContentDoc.jsonld d;
     ContentDoc.microdata_present := ContentDoc.microdata_present d;
     ContentDoc.schema_types := ContentDoc.schema_types d;
     ContentDoc.links := ContentDoc.links d;
     ContentDoc.contacts := ContentDoc.contacts d;
     ContentDoc.evidence := ContentDoc.evidence d;
     ContentDoc.dom_stats := ContentDoc.dom_stats d;
     ContentDoc.html_hash := ContentDoc.html_hash d;
     ContentDoc.render_mode := ContentDoc.render_mode d |}.

(** The document [d] with another status and content type, the two fields
    copied from the response. *)
Definition with_response (status : option nat) (type : option jsstring)
    (d : ContentDoc) : ContentDoc :=
  {| ContentDoc.url := ContentDoc.url d;
     ContentDoc.fetched_at := ContentDoc.fetched_at d;
     ContentDoc.http_status := status;
     ContentDoc.content_type := type;
     ContentDoc.canonical_url := ContentDoc.canonical_url d;
     ContentDoc.lang := ContentDoc.lang d;
     ContentDoc.title := ContentDoc.title d;
     ContentDoc.meta_description := ContentDoc.meta_description d;
     ContentDoc.og := ContentDoc.og d;
     ContentDoc.meta := ContentDoc.meta d;
     ContentDoc.main_text := ContentDoc.main_text d;
     ContentDoc.all_text_excerpt := ContentDoc.all_text_excerpt d;
     ContentDoc.headings := ContentDoc.headings d;
     ContentDoc.text_blocks := ContentDoc.text_blocks d;
     ContentDoc.jsonld := ContentDoc.jsonld d;
     ContentDoc.microdata_present := ContentDoc.microdata_present d;
     ContentDoc.schema_types := ContentDoc.schema_types d;
     ContentDoc.links := ContentDoc.links d;
     ContentDoc.contacts := ContentDoc.contacts d;
     ContentDoc.evidence := ContentDoc.evidence d;
     ContentDoc.dom_stats := ContentDoc.dom_stats d;
     ContentDoc.html_hash := ContentDoc.html_hash d;
     ContentDoc.render_mode := ContentDoc.render_mode d |}.

(** The result of a computation under a function. *)
Definition map_completion {A B} (f : A → B) (c : completion A) : completion B :=
  match c with
  | Normal a => Normal (f a)
  | Throw e => Throw e
  end.

(** ** The crawl engine (Crawlee), at its interface *)

Record Request := {
  request_url : jsstring;
  uniqueKey : jsstring;
  (** [request.userData?.needsJs] *)
  userData_needsJs : option bool;
}.

(** The shared request queue. Requests are handled in the order they were
    added, so the handled ones are the first [handledCount]. *)
Record RequestQueue := {
  requests : list Request;
  handledCount : nat;
}.

Record Response := {
  statusCode : option nat;
  header_content_type : option jsstring;
}.

(** What a run meets outside the process. *)
Record World := {
  (** The key Crawlee gives a request that is added without [uniqueKey]. *)
  computeUniqueKey : jsstring → jsstring;
  (** The static fetch of a URL: the response and the parse tree, or
      nothing when the request fails and the handler is not called. *)
  fetch : jsstring → option (option Response * CheerioAPI);
  (** The browser navigation to a URL, likewise. *)
  navigate : jsstring → option (option Response * Page);
  (** [new Date().toISOString()] while a request is handled. *)
  now : Request → jsstring;
}.

(** [requestQueue.addRequest({ url, uniqueKey, userData })]: a request
    whose key the queue has seen is dropped. *)
Definition addRequest (w : World) (q : RequestQueue) (url : jsstring)
    (key : option jsstring) (needsJs : option bool) : RequestQueue :=
  let key := default (computeUniqueKey w url) key in
  if decide (key ∈ uniqueKey <$> requests q) then q
  else {| requests := requests q ++ [{| request_url := url; uniqueKey := key;
                                         userData_needsJs := needsJs |}];
          handledCount := handledCount q |}.

Definition pending (q : RequestQueue) : list Request :=
  drop (handledCount q) (requests q).

(** [crawler.run()]: the pending requests are handled in order until the
    queue is drained or the queue's handled count reaches
    [maxRequestsPerCrawl]. Handlers run one after the other: the source's
    handlers interleave only at [await], and each updates the shared
    counters and lists in one synchronous step at its end. The engine is
    not part of the repository; this is its run with one handler in
    flight. With more handlers in flight the handlers end, and store, in
    another order, and the requests in flight when the limit is reached
    still end: the order within a list and the exact count of handled
    requests belong to this schedule. *)
Definition crawl {S : Type} (maxRequestsPerCrawl : nat) (handle : S → Request → S)
    (q : RequestQueue) (st : S) : RequestQueue * S :=
  let batch := take (maxRequestsPerCrawl - handledCount q) (pending q) in
  ({| requests := requests q; handledCount := handledCount q + length batch |},
   foldl handle st batch).

(** [for (const url of this.config.startUrls) await
    this.requestQueue.addRequest({ url })] on a fresh queue. *)
Definition seed_queue (w : World) (startUrls : list jsstring) : RequestQueue :=
  foldl (λ q url, addRequest w q url None None)
        {| requests := []; handledCount := 0 |} startUrls.

(** A line of console output. *)
Inductive Console :=
| console_log (message : jsstring)
| console_warn (message : jsstring)
| console_error (message : jsstring) (error : jsstring).

(** [`${url}#js-fallback`] *)
Definition js_fallback_key (url : jsstring) : jsstring := url ++ lit "#js-fallback".

(** [request.userData?.needsJs === true] *)
Definition needsJs (request : Request) : bool :=
  bool_decide (userData_needsJs request = Some true).

(** The request [run] adds for a fallback URL:
    [{ url, uniqueKey: `${url}#js-fallback`, userData: { needsJs: true } }]. *)
Definition fallback_request (url : jsstring) : Request :=
  {| request_url := url; uniqueKey := js_fallback_key url;
     userData_needsJs := Some true |}.

(** [for (const url of this.fallbackUrls) await
    this.requestQueue.addRequest({ url, uniqueKey, userData })] *)
Definition reenqueue (w : World) (q : RequestQueue) (urls : list jsstring) : RequestQueue :=
  foldl (λ q url, addRequest w q url (Some (js_fallback_key url)) (Some true)) q urls.

(** ** [class ContentHarvester] *)

Module Harvester.
Section WithRuntime.
Context `{Runtime}.

Record Config := {
  startUrls : list jsstring;
  maxRequestsPerCrawl : option nat;
}.

(** The constructor's default: [config.maxRequestsPerCrawl ?? 100]. *)
Definition max_requests (config : Config) : nat :=
  default 100 (maxRequestsPerCrawl config).

Record State := {
  fallbackUrls : list jsstring;
  dataset : list ContentDoc;
  console : list Console;
}.

Definition initial : State :=
  {| fallbackUrls := []; dataset := []; console := [] |}.

(** [ContentDocSchema.parse(doc)]. Every document of the record type has
    the shape the schema asks for and carries every field, so validation
    returns it as it is. *)
Definition ContentDocSchema_parse (doc : ContentDoc) : completion ContentDoc :=
  Normal doc.

(** [doc.contacts = { emails, phones }] when one of them is not empty. *)
Definition contacts_of (text : jsstring) : option Contacts :=
  let emails := extractEmails text in
  let phones := extractPhones text in
  if decide (0 < length emails ∨ 0 < length phones)
  then Some {| emails := emails; phones := phones |} else None.

(** The fast path's document: the [try] block of the Cheerio handler up to
    the fingerprint. *)
Definition build_http_doc (url html : jsstring) (ch : CheerioAPI)
    (response : option Response) (fetched_at : jsstring) : completion ContentDoc :=
  let* metadata := extractMetadata (Some ch) None in
  let* main :=
    match extractMainTextWithReadability html url with
    | Some (c :: mainTextReadability) =>
        Normal (Some (truncate (c :: mainTextReadability) 10000), [])
    | _ =>
        let* blocks := extractLargestTextBlocks ch 5 in
        match blocks with
        | block0 :: rest => Normal (Some (truncate block0 10000), rest)
        | [] => Normal (None, [])
        end
    end in
  let main_text := main.1 in
  let* all_text_excerpt := extractAllText (Some ch) None in
  let* headings := extractHeadings (Some ch) None in
  let* jsonld := extractJsonLd (Some ch) None in
  let schema_types := extractSchemaTypes jsonld in
  let* links := extractLinks (Some ch) None url in
  let* footer := select ch (css "footer") in
  let footerText := selection_text footer ++ lit " " ++ or_empty main_text in
  let evidence := extractEvidence (or_empty main_text) all_text_excerpt in
  let* dom_stats := calculateDomStats (Some ch) None in
  let* body := select ch (css "body") in
  let bodyHtml := default [] (selection_html body) in
  Normal {| ContentDoc.url := url;
            ContentDoc.fetched_at := fetched_at;
            ContentDoc.http_status := response ≫= statusCode;
            ContentDoc.content_type := response ≫= header_content_type;
            ContentDoc.canonical_url := md_canonical_url metadata;
            ContentDoc.lang := md_lang metadata;
            ContentDoc.title := md_title metadata;
            ContentDoc.meta_description := md_meta_description metadata;
            ContentDoc.og := md_og metadata;
            ContentDoc.meta := md_meta metadata;
            ContentDoc.main_text := main_text;
            ContentDoc.all_text_excerpt := Some all_text_excerpt;
            ContentDoc.headings := headings;
            ContentDoc.text_blocks := main.2;
            ContentDoc.jsonld := jsonld;
            ContentDoc.microdata_present := None;
            ContentDoc.schema_types := schema_types;
            ContentDoc.links := links;
            ContentDoc.contacts := contacts_of footerText;
            ContentDoc.evidence := evidence;
            ContentDoc.dom_stats := dom_stats;
            ContentDoc.html_hash := sha256 bodyHtml;
            ContentDoc.render_mode := http |}.

(** [if (!doc.title || !doc.main_text)]: a critical field is missing. *)
Definition critical_missing (doc : ContentDoc) : bool :=
  negb (truthy (ContentDoc.title doc)) || negb (truthy (ContentDoc.main_text doc)).

Definition harvested (tag url : jsstring) : Console :=
  console_log (tag ++ lit " " ++ [10003%N] ++ lit " Harvested: " ++ url).

(** The [requestHandler] of the Cheerio crawler. *)
Definition cheerio_requestHandler (st : State) (url : jsstring) (ch : CheerioAPI)
    (response : option Response) (fetched_at : jsstring) : State :=
  let html := root_html ch in
  let body : completion State :=
    let* doc := build_http_doc url html ch response fetched_at in
    if critical_missing doc then
      (* Don't save, will be processed by Playwright *)
      Normal {| fallbackUrls := fallbackUrls st ++ [url];
                dataset := dataset st; console := console st |}
    else
      let* validated := ContentDocSchema_parse doc in
      Normal {| fallbackUrls := fallbackUrls st;
                dataset := dataset st ++ [validated];
                console := console st ++ [harvested (lit "[HTTP]") url] |} in
  match body with
  | Normal st' => st'
  | Throw error =>
      (* Still add to fallback *)
      {| fallbackUrls := fallbackUrls st ++ [url];
         dataset := dataset st;
         console := console st
                    ++ [console_error (lit "[HTTP] Error harvesting " ++ url ++ lit ":") error] |}
  end.

(** The fallback path's document: the [try] block of the Playwright
    handler up to the fingerprint. *)
Definition build_js_doc (url : jsstring) (page : Page)
    (response : option Response) (fetched_at : jsstring) : completion ContentDoc :=
  let* html := page_content page in
  let* metadata := extractMetadata None (Some page) in
  let* main :=
    match extractMainTextWithReadability html url with
    | Some (c :: mainTextReadability) =>
        Normal (Some (truncate (c :: mainTextReadability) 10000), [])
    | _ =>
        let* mainText := evaluate_main_innerText page in
        if decide (mainText ≠ []) then
          let* paragraphs := evaluate_main_paragraphs page in
          let blocks :=
            take 2000 <$> take 5 (sort_by_length_desc
                                    (filter (λ t, 200 < length t) paragraphs)) in
          Normal (Some (truncate (normalizeWhitespace mainText) 10000), blocks)
        else Normal (None, [])
    end in
  let main_text := main.1 in
  let* all_text_excerpt := extractAllText None (Some page) in
  let* headings := extractHeadings None (Some page) in
  let* jsonld := extractJsonLd None (Some page) in
  let schema_types := extractSchemaTypes jsonld in
  let* links := extractLinks None (Some page) url in
  let* footerText := evaluate_footer_innerText page in
  let mainTextForContacts := or_empty main_text in
  let evidence := extractEvidence (or_empty main_text) all_text_excerpt in
  let* dom_stats := calculateDomStats None (Some page) in
  let* bodyHtml := evaluate_body_innerHTML page in
  Normal {| ContentDoc.url := url;
            ContentDoc.fetched_at := fetched_at;
            ContentDoc.http_status := response ≫= statusCode;
            ContentDoc.content_type := response ≫= header_content_type;
            ContentDoc.canonical_url := md_canonical_url metadata;
            ContentDoc.lang := md_lang metadata;
            ContentDoc.title := md_title metadata;
            ContentDoc.meta_description := md_meta_description metadata;
            ContentDoc.og := md_og metadata;
            ContentDoc.meta := md_meta metadata;
            ContentDoc.main_text := main_text;
            ContentDoc.all_text_excerpt := Some all_text_excerpt;
            ContentDoc.headings := headings;
            ContentDoc.text_blocks := main.2;
            ContentDoc.jsonld := jsonld;
            ContentDoc.microdata_present := None;
            ContentDoc.schema_types := schema_types;
            ContentDoc.links := links;
            ContentDoc.contacts :=
              contacts_of (footerText ++ lit " " ++ mainTextForContacts);
            ContentDoc.evidence := evidence;
            ContentDoc.dom_stats := dom_stats;
            ContentDoc.html_hash := sha256 bodyHtml;
            ContentDoc.render_mode := js |}.

(** The [requestHandler] of the Playwright crawler. *)
Definition playwright_requestHandler (st : State) (request : Request) (page : Page)
    (response : option Response) (fetched_at : jsstring) : State :=
  let url := request_url request in
  if negb (needsJs request) then st
  else
    let body : completion State :=
      let* doc := build_js_doc url page response fetched_at in
      let* validated := ContentDocSchema_parse doc in
      Normal {| fallbackUrls := fallbackUrls st;
                dataset := dataset st ++ [validated];
                console := console st ++ [harvested (lit "[JS]") url] |} in
    match body with
    | Normal st' => st'
    | Throw error =>
        {| fallbackUrls := fallbackUrls st;
           dataset := dataset st;
           console := console st
                      ++ [console_error (lit "[JS] Error harvesting " ++ url ++ lit ":") error] |}
    end.

(** *** [run] *)

Section Run.
Variable w : World.
Variable config : Config.

(** One request of the Cheerio crawler: fetch, then the handler. *)
Definition cheerio_step (st : State) (request : Request) : State :=
  match fetch w (request_url request) with
  | Some (response, ch) =>
      cheerio_requestHandler st (request_url request) ch response (now w request)
  | None => st
  end.

(** What the fast path builds for a request: nothing when the fetch fails. *)
Definition fast_result (request : Request) : option (completion ContentDoc) :=
  match fetch w (request_url request) with
  | Some (response, ch) =>
      Some (build_http_doc (request_url request) (root_html ch) ch response
                           (now w request))
  | None => None
  end.

(** The fast path defers a request: a critical field of the document is
    missing, or building the document threw. *)
Definition defers (request : Request) : Prop :=
  match fast_result request with
  | Some (Normal doc) => critical_missing doc = true
  | Some (Throw _) => True
  | None => False
  end.

(** One request of the Playwright crawler: navigate, then the handler. *)
Definition playwright_step (st : State) (request : Request) : State :=
  match navigate w (request_url request) with
  | Some (response, page) =>
      playwright_requestHandler st request page response (now w request)
  | None => st
  end.

Definition say (line : jsstring) (st : State) : State :=
  {| fallbackUrls := fallbackUrls st; dataset := dataset st;
     console := console st ++ [console_log line] |}.

(** The start URLs are added, then the Cheerio crawler runs until it is
    done: the state here is the state at the barrier. *)
Definition fast_pass : RequestQueue * State :=
  crawl (max_requests config) cheerio_step (seed_queue w (startUrls config))
        (say ([10%N] ++ lit "[ContentHarvester] Starting HTTP-first pass...") initial).

Definition run : RequestQueue * State :=
  let '(q, st) := fast_pass in
  let '(q, st) :=
    if decide (0 < length (fallbackUrls st)) then
      (reenqueue w q (fallbackUrls st),
       say ([10%N] ++ lit "[ContentHarvester] Re-enqueuing "
            ++ lit (pretty (length (fallbackUrls st)))
            ++ lit " URLs for JS fallback...") st)
    else (q, st) in
  let '(q, st) :=
    if decide (0 < length (fallbackUrls st)) then
      crawl (max_requests config) playwright_step q
            (say ([10%N] ++ lit "[ContentHarvester] Starting JS fallback...") st)
    else (q, st) in
  (q, say ([55357%N; 56510%N] ++ lit " Results saved to: storage/datasets/content-harvest/")
          (say ([10%N; 9989%N] ++ lit " Content harvesting completed!") st)).

End Run.

End WithRuntime.
End Harvester.

(** ** JavaScript numbers, for the rendered rate *)

(** The number a counter holds: exact below 2^53. *)
Definition to_number (n : nat) : float := of_uint63 (Uint63.of_Z (Z.of_nat n)).

(** [Math.round(x)] of a finite number: the integer nearest to [x], a tie
    going up. A finite double is [±m·2^e]. *)
Definition Math_round (x : float) : Z :=
  match Prim2SF x with
  | S754_finite sign m e =>
      let n := if sign then Z.neg m else Z.pos m in
      if (0 <=? e)%Z then (n * 2 ^ e)%Z
      else ((2 * n + 2 ^ (- e)) / 2 ^ (1 - e))%Z
  | _ => 0%Z
  end.

(** The rendered rate as the specification words it:
    round(rendered / (accepted + rendered) × 100), or 0 if the denominator
    is 0, in the numbers of the platform. *)
Definition rendered_rate (rendered accepted : nat) : Z :=
  if decide (accepted + rendered = 0) then 0%Z
  else Math_round (to_number rendered / to_number (accepted + rendered) * 100)%float.

(** ** [class ParseUtils] and [class HybridCrawler] (hybrid.ts) *)

Module Hybrid.

Record HybridCrawlerStats := {
  seen : nat;               (* URLs attempted by Cheerio *)
  http_ok : nat;            (* satisfied by Cheerio *)
  fallback_enqueued : nat;  (* Cheerio decided to fallback *)
  js_processed : nat;       (* processed by Playwright where needsJs===true *)
  js_rate : Z;              (* js_processed / (http_ok + js_processed) * 100 rounded *)
}.

Record ProbeData := {
  url : jsstring;
  timestampISO : jsstring;
  serviceTitle : option jsstring;
  provider : option jsstring;
  priceText : option jsstring;
}.

(** *** [ParseUtils] *)

Definition serviceTitleSelector : jsstring :=
  css "h1, h2:first-of-type, [class*='service-title' i], [class*='service-name' i], [id*='service-title' i], [class*='title' i], [itemprop='name']".

Definition providerSelector : jsstring :=
  css "[class*='provider' i], [id*='provider' i], [class*='company' i], [class*='business' i], [itemprop='provider'], [itemprop='brand'], footer [class*='company' i]".

Definition priceTextSelector : jsstring :=
  css "[class*='price' i], [id*='price' i], [data-price], [itemprop='price'], .price, [class*='pris' i]".

(** [text.length > 0 && text.length < 200] *)
Definition short_text (text : jsstring) : bool :=
  bool_decide (0 < length text) && bool_decide (length text < 200).

(** [text.length > 0 && /\d/.test(text)] *)
Definition priced_text (text : jsstring) : bool :=
  bool_decide (0 < length text) && has_digit text.

(** The loop of the Cheerio path: the first trimmed text that passes. *)
Fixpoint first_text (accept : jsstring → bool) (elements : list Element)
  : option jsstring :=
  match elements with
  | [] => None
  | el :: rest =>
      let text := trim (el_text el) in
      if accept text then Some text else first_text accept rest
  end.

(** The loop of the Playwright path. *)
Fixpoint first_textContent (accept : jsstring → bool) (elements : list ElementHandle)
  : completion (option jsstring) :=
  match elements with
  | [] => Normal None
  | el :: rest =>
      let* text := textContent el in
      if truthy text && accept (trim (or_empty text))
      then Normal (Some (trim (or_empty text)))
      else first_textContent accept rest
  end.

Definition extract_with (selector : jsstring) (accept : jsstring → bool)
    (ch : option CheerioAPI) (page : option Page) : completion (option jsstring) :=
  match ch, page with
  | Some ch, _ =>
      let* elements := select ch selector in
      Normal (first_text accept elements)
  | None, None => Normal None
  | None, Some page =>
      try_catch (let* elements := locator_all page selector in
                 first_textContent accept elements)
                (λ _, Normal None)
  end.

Definition extractServiceTitle := extract_with serviceTitleSelector short_text.
Definition extractProvider := extract_with providerSelector short_text.
Definition extractPriceText := extract_with priceTextSelector priced_text.

(** [!!(data.serviceTitle && data.provider && data.priceText)] *)
Definition hasCriticalFields (data : ProbeData) : bool :=
  truthy (serviceTitle data) && truthy (provider data) && truthy (priceText data).

(** *** [HybridCrawler] *)

Record Config := {
  startUrls : list jsstring;
  maxRequestsPerCrawl : option nat;
}.

(** The constructor's default: [config.maxRequestsPerCrawl ?? 10]. *)
Definition max_requests (config : Config) : nat :=
  default 10 (maxRequestsPerCrawl config).

(** What the Playwright handler pushes: a [CrawledData] with the fields
    this path sets. *)
Record CrawledData := {
  cd_url : jsstring;
  cd_timestampISO : jsstring;
  cd_serviceTitle : option jsstring;
  cd_provider : option jsstring;
  cd_priceText : option jsstring;
}.

Record State := {
  stats : HybridCrawlerStats;
  fallbackUrls : list jsstring;
  dataset : list CrawledData;
  console : list Console;
}.

Definition initial : State :=
  {| stats := {| seen := 0; http_ok := 0; fallback_enqueued := 0;
                 js_processed := 0; js_rate := 0 |};
     fallbackUrls := []; dataset := []; console := [] |}.

Definition with_stats (f : HybridCrawlerStats → HybridCrawlerStats) (st : State) : State :=
  {| stats := f (stats st); fallbackUrls := fallbackUrls st;
     dataset := dataset st; console := console st |}.

Definition with_console (lines : list Console) (st : State) : State :=
  {| stats := stats st; fallbackUrls := fallbackUrls st;
     dataset := dataset st; console := console st ++ lines |}.

Definition incr_seen (s : HybridCrawlerStats) : HybridCrawlerStats :=
  {| seen := seen s + 1; http_ok := http_ok s;
     fallback_enqueued := fallback_enqueued s;
     js_processed := js_processed s; js_rate := js_rate s |}.

Definition incr_http_ok (s : HybridCrawlerStats) : HybridCrawlerStats :=
  {| seen := seen s; http_ok := http_ok s + 1;
     fallback_enqueued := fallback_enqueued s;
     js_processed := js_processed s; js_rate := js_rate s |}.

Definition incr_fallback_enqueued (s : HybridCrawlerStats) : HybridCrawlerStats :=
  {| seen := seen s; http_ok := http_ok s;
     fallback_enqueued := fallback_enqueued s + 1;
     js_processed := js_processed s; js_rate := js_rate s |}.

Definition incr_js_processed (s : HybridCrawlerStats) : HybridCrawlerStats :=
  {| seen := seen s; http_ok := http_ok s;
     fallback_enqueued := fallback_enqueued s;
     js_processed := js_processed s + 1; js_rate := js_rate s |}.

Definition set_js_rate (r : Z) (s : HybridCrawlerStats) : HybridCrawlerStats :=
  {| seen := seen s; http_ok := http_ok s;
     fallback_enqueued := fallback_enqueued s;
     js_processed := js_processed s; js_rate := r |}.

(** [value || 'N/A'] *)
Definition or_NA (v : option jsstring) : jsstring :=
  if truthy v then or_empty v else lit "N/A".

(** The [requestHandler] of the Cheerio crawler (fast pass). *)
Definition cheerio_requestHandler (st : State) (url : jsstring) (ch : CheerioAPI)
    (timestamp : jsstring) : State :=
  (* Increment seen once per request *)
  let st := with_stats incr_seen st in
  let body : completion State :=
    let* title := extractServiceTitle (Some ch) None in
    let* prov := extractProvider (Some ch) None in
    let* price := extractPriceText (Some ch) None in
    let probeData := {| url := url; timestampISO := timestamp; serviceTitle := title;
                        provider := prov; priceText := price |} in
    if hasCriticalFields probeData then
      (* Critical fields present -> http_ok++ *)
      Normal (with_console
                [console_log (lit "[Cheerio] " ++ [10003%N] ++ lit " Extracted from: " ++ url);
                 console_log (lit "  Service Title: " ++ or_NA (serviceTitle probeData));
                 console_log (lit "  Provider: " ++ or_NA (provider probeData));
                 console_log (lit "  Price Text: " ++ or_NA (priceText probeData))]
                (with_stats incr_http_ok st))
    else
      (* Critical fields missing -> fallback_enqueued++ *)
      let st := with_stats incr_fallback_enqueued st in
      let st :=
        if decide (length (fallbackUrls st) < 10)
        then {| stats := stats st; fallbackUrls := fallbackUrls st ++ [url];
                dataset := dataset st; console := console st |}
        else st in
      Normal (with_console
                [console_log (lit "[Cheerio] Missing critical fields, will fallback to Playwright: "
                              ++ url)] st) in
  match body with
  | Normal st' => st'
  | Throw error =>
      with_console
        [console_error (lit "[Cheerio] Error processing " ++ url ++ lit ":") error] st
  end.

(** The [requestHandler] of the Playwright crawler (fallback). *)
Definition playwright_requestHandler (st : State) (request : Request) (page : Page)
    (timestamp : jsstring) : State :=
  let url := request_url request in
  (* If request.userData.needsJs !== true -> return early (do nothing) *)
  if negb (needsJs request) then st
  else
    (* On handling a needsJs request -> js_processed++ *)
    let st := with_stats incr_js_processed st in
    let body : completion State :=
      let* title := extractServiceTitle None (Some page) in
      let* prov := extractProvider None (Some page) in
      let* price := extractPriceText None (Some page) in
      let data := {| cd_url := url; cd_timestampISO := timestamp;
                     cd_serviceTitle := title; cd_provider := prov;
                     cd_priceText := price |} in
      Normal {| stats := stats st; fallbackUrls := fallbackUrls st;
                dataset := dataset st ++ [data];
                console := console st
                           ++ [console_log (lit "[Playwright] " ++ [10003%N]
                                            ++ lit " Extracted (JS fallback): " ++ url)] |} in
    match body with
    | Normal st' => st'
    | Throw error =>
        with_console
          [console_error (lit "[Playwright] Error processing " ++ url ++ lit ":") error] st
    end.

(** *** [run] *)

(** [denominator > 0 ? Math.round((js_processed / denominator) * 100) : 0] *)
Definition compute_js_rate (s : HybridCrawlerStats) : Z :=
  let denominator := http_ok s + js_processed s in
  if decide (0 < denominator)
  then Math_round (to_number (js_processed s) / to_number denominator * 100)%float
  else 0%Z.

Definition logStats (st : State) : State :=
  let rule := console_log (replicate 60 9472%N) in
  let st :=
    with_console
      [console_log ([10%N; 55357%N; 56522%N] ++ lit " Hybrid Crawler Statistics:");
       rule;
       console_log (lit "seen:                " ++ lit (pretty (seen (stats st))));
       console_log (lit "http_ok:             " ++ lit (pretty (http_ok (stats st))));
       console_log (lit "fallback_enqueued:   "
                    ++ lit (pretty (fallback_enqueued (stats st))));
       console_log (lit "js_processed:        " ++ lit (pretty (js_processed (stats st))));
       console_log (lit "js_rate:            " ++ lit (pretty (js_rate (stats st)))
                    ++ lit "%");
       rule] st in
  if decide (0 < length (fallbackUrls st)) then
    with_console
      (console_log ([10%N; 55357%N; 56599%N] ++ lit " Fallback URLs (max 10):")
       :: imap (λ i url, console_log (lit "  " ++ lit (pretty (i + 1)) ++ lit ". " ++ url))
               (fallbackUrls st)) st
  else st.

Section Run.
Variable w : World.
Variable config : Config.

Definition cheerio_step (st : State) (request : Request) : State :=
  match fetch w (request_url request) with
  | Some (_, ch) => cheerio_requestHandler st (request_url request) ch (now w request)
  | None => st
  end.

Definition playwright_step (st : State) (request : Request) : State :=
  match navigate w (request_url request) with
  | Some (_, page) => playwright_requestHandler st request page (now w request)
  | None => st
  end.

(** The start URLs are added and the Cheerio crawler runs until it is
    done: the state here is the state at the barrier, before the stats are
    validated and before any fallback request is added. *)
Definition fast_pass : RequestQueue * State :=
  crawl (max_requests config) cheerio_step (seed_queue w (startUrls config))
        (with_console [console_log ([10%N] ++ lit "[Cheerio] Starting fast pass...")]
                      initial).

(** Validate Cheerio stats: http_ok + fallback_enqueued === seen *)
Definition validate_stats (st : State) : State :=
  let cheerioTotal := http_ok (stats st) + fallback_enqueued (stats st) in
  if decide (cheerioTotal ≠ seen (stats st)) then
    with_console
      [console_warn (lit "[Warning] Stats mismatch: seen=" ++ lit (pretty (seen (stats st)))
                     ++ lit ", http_ok + fallback_enqueued=" ++ lit (pretty cheerioTotal))]
      st
  else st.

Definition run : RequestQueue * State :=
  let '(q, st) := fast_pass in
  let st := validate_stats st in
  let '(q, st) :=
    if decide (0 < length (fallbackUrls st)) then
      (reenqueue w q (fallbackUrls st),
       with_console
         [console_log ([10%N] ++ lit "[Hybrid] Re-enqueuing "
                       ++ lit (pretty (length (fallbackUrls st)))
                       ++ lit " fallback URLs for Playwright...")] st)
    else (q, st) in
  let '(q, st) :=
    crawl (max_requests config) playwright_step q
          (with_console [console_log ([10%N] ++ lit "[Playwright] Starting JS fallback...")]
                        st) in
  let st := with_stats (λ s, set_js_rate (compute_js_rate s) s) st in
  (q, logStats st).

(** [getStats()] after [run()]. *)
Definition getStats : HybridCrawlerStats := stats run.2.

End Run.

(** The three outcomes of the fast pass for one URL, as the handler
    leaves the state. *)
Inductive outcome (st : State) (url : jsstring) (st' : State) : Prop :=
| accepted :
    stats st' = incr_http_ok (incr_seen (stats st)) →
    fallbackUrls st' = fallbackUrls st → dataset st' = dataset st →
    outcome st url st'
| deferred :
    stats st' = incr_fallback_enqueued (incr_seen (stats st)) →
    fallbackUrls st' = (if decide (length (fallbackUrls st) < 10)
                        then fallbackUrls st ++ [url] else fallbackUrls st) →
    dataset st' = dataset st →
    outcome st url st'
| threw error :
    stats st' = incr_seen (stats st) →
    fallbackUrls st' = fallbackUrls st → dataset st' = dataset st →
    console st' = console st
                  ++ [console_error (lit "[Cheerio] Error processing " ++ url ++ lit ":") error] →
    outcome st url st'.

End Hybrid.

(** ** The link extractor as the specification words it

    Resolve every anchor [href] against the base URL and strip the
    fragment; classify by host name against the host name of the source
    URL; dedupe; cap at 200 each. The second definitions below say this
    without loops and exceptions; [spec_links] keeps as external only the
    links that have a host name, [spec_links_otherwise] everything that is
    not internal. *)

Section LinkSpec.
Context `{Runtime}.

(** The host name of a URL, empty when it does not parse. *)
Definition link_domain (url : jsstring) : jsstring :=
  match URL_new url None with
  | Some u => URL_hostname u
  | None => []
  end.

(** The link resolved against the base and without its fragment; the
    link itself when it (or the base) does not parse. *)
Definition resolve_link (baseUrl href : jsstring) : jsstring :=
  match URL_new baseUrl None with
  | Some base =>
      match URL_new href (Some base) with
      | Some resolved => URL_href (set_hash_empty resolved)
      | None => href
      end
  | None => href
  end.

(** The anchors that carry a non-empty [href]. *)
Definition anchor_hrefs (hrefs : list (option jsstring)) : list jsstring :=
  omap (λ h, if truthy h then h else None) hrefs.

(** The [href] attributes of the anchors of a page, in document order, on
    either path: of [$('a[href]')], or of [page.locator('a[href]').all()]
    when reading each attribute succeeds. *)
Definition anchors_of (ch : option CheerioAPI) (page : option Page)
    (hrefs : list (option jsstring)) : Prop :=
  match ch, page with
  | Some ch, _ =>
      ∃ els, select ch (css "a[href]") = Normal els
             ∧ hrefs = (λ el, el_attr el (lit "href")) <$> els
  | None, Some page =>
      ∃ links, locator_all page (css "a[href]") = Normal links
               ∧ Forall2 (λ link h, getAttribute link (lit "href") = Normal h) links hrefs
  | None, None => False
  end.

Definition spec_links (baseUrl : jsstring) (hrefs : list (option jsstring)) : Links :=
  let resolved := resolve_link baseUrl <$> anchor_hrefs hrefs in
  {| internal :=
       take 200 (Set_new (filter (λ n, link_domain n = link_domain baseUrl) resolved));
     external :=
       take 200 (Set_new (filter (λ n, link_domain n ≠ link_domain baseUrl
                                       ∧ link_domain n ≠ []) resolved));
     canonicalized := true |}.

Definition spec_links_otherwise (baseUrl : jsstring) (hrefs : list (option jsstring))
  : Links :=
  let resolved := resolve_link baseUrl <$> anchor_hrefs hrefs in
  {| internal :=
       take 200 (Set_new (filter (λ n, link_domain n = link_domain baseUrl) resolved));
     external :=
       take 200 (Set_new (filter (λ n, link_domain n ≠ link_domain baseUrl) resolved));
     canonicalized := true |}.

End LinkSpec.

(** ** Object graphs

    [extractSchemaTypes] is typed [unknown[]]: besides the trees that
    [JSON.parse] returns, JavaScript lets a caller pass objects that share
    or contain one another. Such values live in a store; [traverse_graph]
    is the same inner function [traverse] of the source over that store,
    with a bound on the depth of the calls ([None] when it is reached). *)

Inductive value : Type :=
| VNull
| VBool (b : bool)
| VNumber (x : float)
| VString (s : jsstring)
| VRef (l : nat).   (* typeof obj === 'object' && obj !== null *)

Inductive object : Type :=
| OArray (items : list value)             (* Array.isArray(obj) *)
| ORecord (members : list (jsstring * value)).

(** [xs.forEach(f)] where [f] may not return. *)
Fixpoint forEach {A B} (f : B → A → option B) (acc : B) (xs : list A) : option B :=
  match xs with
  | [] => Some acc
  | x :: xs' =>
      match f acc x with
      | Some acc' => forEach f acc' xs'
      | None => None
      end
  end.

Fixpoint vmember (key : jsstring) (members : list (jsstring * value)) : option value :=
  match members with
  | [] => None
  | (k, v) :: rest => if decide (k = key) then Some v else vmember key rest
  end.

Fixpoint traverse_graph (depth : nat) (store : gmap nat object)
    (types : list jsstring) (obj : value) : option (list jsstring) :=
  match depth with
  | 0 => None
  | S depth =>
      match obj with
      | VRef l =>
          match store !! l with
          | Some (OArray items) => forEach (traverse_graph depth store) types items
          | Some (ORecord members) =>
              let types :=
                match vmember (lit "@type") members with
                | Some (VString (c :: ty)) => Set_add types (c :: ty)
                | _ => types
                end in
              forEach (λ types kv, traverse_graph depth store types kv.2) types members
          | None => Some types
          end
      | _ => Some types
      end
  end.

Definition extractSchemaTypes_graph (depth : nat) (store : gmap nat object)
    (jsonld : list value) : option (list jsstring) :=
  forEach (traverse_graph depth store) [] jsonld.

(** A value of the store that is the tree [j]. *)
#[warnings="-register-all"]
Inductive represents (store : gmap nat object) : value → json → Prop :=
| rep_null : represents store VNull JNull
| rep_bool b : represents store (VBool b) (JBool b)
| rep_number x : represents store (VNumber x) (JNumber x)
| rep_string s : represents store (VString s) (JString s)
| rep_array l vs items :
    store !! l = Some (OArray vs) →
    Forall2 (represents store) vs items →
    represents store (VRef l) (JArray items)
| rep_object l kvs members :
    store !! l = Some (ORecord kvs) →
    Forall2 (λ kv kj, kv.1 = kj.1 ∧ represents store kv.2 kj.2) kvs members →
    represents store (VRef l) (JObject members).

(** The store of the one object [{ '@type': 'Organization' }]. *)
Definition organization_store : gmap nat object :=
  {[ 0 := ORecord [(lit "@type", VString (lit "Organization"))] ]}.

(** An object that is its own member: [o = { '@type': 'Thing' }; o.self = o]. *)
Definition cyclic_store : gmap nat object :=
  {[ 0 := ORecord [(lit "@type", VString (lit "Thing")); (lit "self", VRef 0)] ]}.

(** [ty] is the non-empty string value of the ["@type"] key of an object
    inside [j]. *)
Inductive has_type (ty : jsstring) : json → Prop :=
| type_here members :
    member (lit "@type") members = Some (JString ty) → ty ≠ [] →
    has_type ty (JObject members)
| type_in_array items j :
    j ∈ items → has_type ty j → has_type ty (JArray items)
| type_in_object members k j :
    (k, j) ∈ members → has_type ty j → has_type ty (JObject members).

(** ** A small runtime, pages and worlds for the examples

    The lemmas below hold for every [Runtime]. To run the source's
    scenarios a runtime is needed: [Example.parse_URL] follows the WHATWG
    URL parser on what the examples use: absolute URLs of the special
    schemes [http], [https], [ftp], [ws], [wss] with a host, an optional
    port, a path, a query and a fragment; URLs of other schemes, with an
    opaque path or with [//host]; and relative references against a base.
    Credentials, percent-encoding, back slashes, IP addresses and
    internationalized host names are not treated, and such input is read
    as is. The three regular expressions of the source are matched by a
    backtracking matcher; [JSON.parse] and [JSON.stringify] are a parser
    and a printer of JSON texts; the digest is SHA-256 over the UTF-8
    encoding; [toLowerCase] lowers the letters A to Z; Readability finds
    no article, so the main text comes from the largest text blocks. *)

Module Example.

Definition is_alpha (c : N) : bool :=
  ((65 <=? c) && (c <=? 90) || (97 <=? c) && (c <=? 122))%N.

Definition lower (c : N) : N :=
  if ((65 <=? c) && (c <=? 90))%N then (c + 32)%N else c.

Definition is_scheme_unit (c : N) : bool :=
  is_alpha c || is_digit c || (c =? 43)%N || (c =? 45)%N || (c =? 46)%N.

(** The units before the first one that [stop] accepts, and the rest. *)
Fixpoint break_at (stop : N → bool) (s : jsstring) : jsstring * jsstring :=
  match s with
  | [] => ([], [])
  | c :: s' =>
      if stop c then ([], s)
      else let '(a, b) := break_at stop s' in (c :: a, b)
  end.

(** [scheme ":" rest] *)
Definition split_scheme (s : jsstring) : option (jsstring * jsstring) :=
  match s with
  | c :: _ =>
      if is_alpha c then
        match break_at (λ c, negb (is_scheme_unit c)) s with
        | (sch, 58%N :: rest) => Some (lower <$> sch, rest)
        | _ => None
        end
      else None
  | [] => None
  end.

(** [path "?" query "#" fragment] *)
Definition split_tail (s : jsstring) : jsstring * option jsstring * option jsstring :=
  let '(before, hash) := break_at (λ c, (c =? 35)%N) s in
  let '(p, q) := break_at (λ c, (c =? 63)%N) before in
  (p, match q with _ :: q' => Some q' | [] => None end,
      match hash with _ :: f => Some f | [] => None end).

Definition is_special (sch : jsstring) : bool :=
  bool_decide (sch ∈ [lit "http"; lit "https"; lit "ftp"; lit "ws"; lit "wss"]).

Definition default_port (sch : jsstring) : jsstring :=
  if decide (sch = lit "http") then lit "80"
  else if decide (sch = lit "https") then lit "443"
  else if decide (sch = lit "ftp") then lit "21"
  else if decide (sch = lit "ws") then lit "80"
  else if decide (sch = lit "wss") then lit "443"
  else [].

(** Path segments: [split_path "/a/b" = ["a"; "b"]]. *)
Fixpoint split_path_aux (cur : jsstring) (s : jsstring) : list jsstring :=
  match s with
  | [] => [reverse cur]
  | c :: s' =>
      if (c =? 47)%N then reverse cur :: split_path_aux [] s'
      else split_path_aux (c :: cur) s'
  end.

Definition split_path (p : jsstring) : list jsstring :=
  match p with
  | 47%N :: p' => split_path_aux [] p'
  | _ => split_path_aux [] p
  end.

(** The single- and double-dot segments are resolved from left to right. *)
Fixpoint resolve_dots (done : list jsstring) (segments : list jsstring) : list jsstring :=
  match segments with
  | [] => reverse done
  | seg :: rest =>
      if decide (seg = lit "..") then
        match rest with
        | [] => reverse ([] :: tail done)
        | _ => resolve_dots (tail done) rest
        end
      else if decide (seg = lit ".") then
        match rest with
        | [] => reverse ([] :: done)
        | _ => resolve_dots done rest
        end
      else resolve_dots (seg :: done) rest
  end.

Definition join_path (segments : list jsstring) : jsstring :=
  concat ((λ seg, 47%N :: seg) <$> segments).

Definition normal_path (p : jsstring) : jsstring :=
  join_path (resolve_dots [] (split_path p)).

(** [//authority path?query#fragment] after a scheme. *)
Definition parse_hierarchical (sch after : jsstring) : option URL :=
  let '(authority, rest) :=
    break_at (λ c, (c =? 47)%N || (c =? 63)%N || (c =? 35)%N) after in
  let '(h, p) := break_at (λ c, (c =? 58)%N) authority in
  let '(pth, q, f) := split_tail rest in
  if is_special sch && bool_decide (h = []) then None
  else if negb (forallb is_digit (tail p)) then None
  else
    Some {| scheme := sch; username := []; password := [];
            host := Some (if is_special sch then lower <$> h else h);
            port := (if decide (tail p = [] ∨ tail p = default_port sch)
                     then None else Some (tail p));
            path := (if is_special sch then normal_path pth else pth);
            query := q; fragment := f |}.

Definition parse_absolute (sch rest : jsstring) : option URL :=
  match rest with
  | 47%N :: 47%N :: after => parse_hierarchical sch after
  | _ =>
      if is_special sch then None
      else
        let '(pth, q, f) := split_tail rest in
        Some {| scheme := sch; username := []; password := []; host := None;
                port := None; path := pth; query := q; fragment := f |}
  end.

(** The directory of a path: up to and with its last slash. *)
Definition directory (p : jsstring) : jsstring :=
  reverse (snd (break_at (λ c, (c =? 47)%N) (reverse p))).

Definition parse_relative (input : jsstring) (base : URL) : option URL :=
  let on_base pth q f :=
    Some {| scheme := scheme base; username := username base;
            password := password base; host := host base; port := port base;
            path := pth; query := q; fragment := f |} in
  match host base, input with
  | None, 35%N :: f => on_base (path base) (query base) (Some f)
  | None, _ => None
  | Some _, 47%N :: 47%N :: after => parse_hierarchical (scheme base) after
  | Some _, 47%N :: _ =>
      let '(pth, q, f) := split_tail input in on_base (normal_path pth) q f
  | Some _, [] => on_base (path base) (query base) None
  | Some _, 35%N :: f => on_base (path base) (query base) (Some f)
  | Some _, 63%N :: _ =>
      let '(_, q, f) := split_tail input in on_base (path base) q f
  | Some _, _ =>
      let '(pth, q, f) := split_tail input in
      on_base (normal_path (directory (path base) ++ pth)) q f
  end.

(** [new URL(input, base)] *)
Definition parse_URL (input : jsstring) (base : option URL) : option URL :=
  match split_scheme input, base with
  | Some (sch, rest), _ => parse_absolute sch rest
  | None, Some base => parse_relative input base
  | None, None => None
  end.

(** *** Regular expressions

    The three patterns of the source, as syntax trees, and a backtracking
    matcher for them: quantifiers are greedy, alternatives are tried from
    left to right, the search returns the leftmost match. *)

Inductive regex : Type :=
| Unit (accept : N → bool)                          (* a class or a literal *)
| Then (r1 r2 : regex)
| Or (r1 r2 : regex)
| Repeat (min : nat) (max : option nat) (r : regex)  (* r{min,max}, greedy *)
| Boundary.                                          (* \b *)

(** A position in a text: the units before it, the nearest first, and the
    units after it. *)
Definition position : Type := jsstring * jsstring.

Definition is_word_unit (c : N) : bool := is_alpha c || is_digit c || (c =? 95)%N.

Definition at_boundary (p : position) : bool :=
  xorb (match p.1 with c :: _ => is_word_unit c | [] => false end)
       (match p.2 with c :: _ => is_word_unit c | [] => false end).

Definition may_repeat (max : option nat) (count : nat) : bool :=
  match max with
  | Some m => bool_decide (count < m)
  | None => true
  end.

(** [run r p k]: match [r] at [p], then go on with [k]. *)
Fixpoint run (r : regex) (p : position) (k : position → option position)
  : option position :=
  match r with
  | Unit accept =>
      match p.2 with
      | c :: rest => if accept c then k (c :: p.1, rest) else None
      | [] => None
      end
  | Then a b => run a p (λ p', run b p' k)
  | Or a b =>
      match run a p k with
      | Some e => Some e
      | None => run b p k
      end
  | Boundary => if at_boundary p then k p else None
  | Repeat min max a =>
      (fix loop (fuel count : nat) (p : position) : option position :=
         let stop := if bool_decide (min ≤ count) then k p else None in
         match fuel with
         | 0 => stop
         | S fuel' =>
             if may_repeat max count then
               match run a p (λ p', if bool_decide (length p'.2 < length p.2)
                                    then loop fuel' (S count) p' else None) with
               | Some e => Some e
               | None => stop
               end
             else stop
         end) (S (length p.2)) 0 p
  end.

(** The leftmost match at or after a position: where it starts and ends. *)
Fixpoint search (r : regex) (before after : jsstring) : option (position * position) :=
  match run r (before, after) Some with
  | Some e => Some ((before, after), e)
  | None =>
      match after with
      | c :: rest => search r (c :: before) rest
      | [] => None
      end
  end.

Definition matched (start e : position) : jsstring :=
  take (length start.2 - length e.2) start.2.

(** Every match of a global scan, in order. *)
Fixpoint match_all (fuel : nat) (r : regex) (before after : jsstring) : list jsstring :=
  match fuel with
  | 0 => []
  | S fuel' =>
      match search r before after with
      | None => []
      | Some (start, e) =>
          let m := matched start e in
          match m, e.2 with
          | [], c :: rest => m :: match_all fuel' r (c :: e.1) rest
          | [], [] => [m]
          | _, _ => m :: match_all fuel' r e.1 e.2
          end
      end
  end.

Definition range (a b : N) : N → bool := λ c, ((a <=? c) && (c <=? b))%N.
Definition one_of (units : string) : N → bool := λ c, bool_decide (c ∈ lit units).
Definition either (f g : N → bool) : N → bool := λ c, f c || g c.
Definition letter (l : string) : regex :=
  Unit (λ c, bool_decide (lower c ∈ lit l)).
Definition optional (r : regex) : regex := Repeat 0 (Some 1) r.
Definition plus (r : regex) : regex := Repeat 1 None r.

Definition alnum : N → bool := either is_alpha is_digit.

(** [\b[A-Za-z0-9._%+-]+@[A-Za-z0-9.-]+\.[A-Z|a-z]{2,}\b] *)
Definition email_regex : regex :=
  Then Boundary
    (Then (plus (Unit (either alnum (one_of "._%+-"))))
       (Then (Unit (one_of "@"))
          (Then (plus (Unit (either alnum (one_of ".-"))))
             (Then (Unit (one_of "."))
                (Then (Repeat 2 None (Unit (either is_alpha (one_of "|"))))
                   Boundary))))).

Definition separator : regex := Unit (either (one_of "-.") is_white_space).

(** [(?:\+?\d{1,3}[-.\s]?)?\(?\d{1,4}\)?[-.\s]?\d{1,4}[-.\s]?\d{1,9}] *)
Definition phone_regex : regex :=
  Then (optional (Then (optional (Unit (one_of "+")))
                    (Then (Repeat 1 (Some 3) (Unit is_digit)) (optional separator))))
    (Then (optional (Unit (one_of "(")))
       (Then (Repeat 1 (Some 4) (Unit is_digit))
          (Then (optional (Unit (one_of ")")))
             (Then (optional separator)
                (Then (Repeat 1 (Some 4) (Unit is_digit))
                   (Then (optional separator)
                      (Repeat 1 (Some 9) (Unit is_digit)))))))).

(** [[\d\s.,]+(?:kr|sek|€|\$|£|:-)] with the flag [i] *)
Definition price_regex : regex :=
  Then (plus (Unit (either (either is_digit is_white_space) (one_of ".,"))))
    (Or (Then (letter "k") (letter "r"))
       (Or (Then (letter "s") (Then (letter "e") (letter "k")))
          (Or (Unit (λ c, (c =? 8364)%N))
             (Or (Unit (one_of "$"))
                (Or (Unit (λ c, (c =? 163)%N))
                   (Then (Unit (one_of ":")) (Unit (one_of "-")))))))).

(** *** SHA-256 of the UTF-8 encoding *)

Definition is_high_surrogate (c : N) : bool := ((55296 <=? c) && (c <=? 56319))%N.
Definition is_low_surrogate (c : N) : bool := ((56320 <=? c) && (c <=? 57343))%N.

(** The bytes [hash.update(text)] digests: a surrogate pair is one code
    point, a lone surrogate is replaced by U+FFFD. *)
Fixpoint utf8 (s : jsstring) : list N :=
  let replacement := [239; 191; 189]%N in
  match s with
  | [] => []
  | c :: rest =>
      if (c <? 128)%N then c :: utf8 rest
      else if (c <? 2048)%N then [192 + c / 64; 128 + c mod 64]%N ++ utf8 rest
      else if is_high_surrogate c then
        match rest with
        | lo :: rest' =>
            if is_low_surrogate lo then
              let cp := (65536 + (c - 55296) * 1024 + (lo - 56320))%N in
              [240 + cp / 262144; 128 + (cp / 4096) mod 64;
               128 + (cp / 64) mod 64; 128 + cp mod 64]%N ++ utf8 rest'
            else replacement ++ utf8 rest
        | [] => replacement
        end
      else if is_low_surrogate c then replacement ++ utf8 rest
      else [224 + c / 4096; 128 + (c / 64) mod 64; 128 + c mod 64]%N ++ utf8 rest
  end.

Module SHA256.

Definition word (x : N) : N := (x mod 4294967296)%N.
Definition add (a b : N) : N := word (a + b).
Definition rotr (n x : N) : N := word (N.lor (N.shiftr x n) (N.shiftl x (32 - n))).

Definition is_prime (n : N) : bool :=
  forallb (λ d, negb (n mod N.of_nat d =? 0)%N) (seq 2 (N.to_nat n - 2)).

Definition primes (count : nat) : list N :=
  take count (filter (λ n, is_prime n) (N.of_nat <$> seq 2 310)).

(** The integer part of the cube root, found bit by bit. *)
Definition root3 (n : N) : N :=
  foldl (λ r i, let r' := (r + 2 ^ N.of_nat i)%N in
                if (r' * r' * r' <=? n)%N then r' else r)
        0%N (reverse (seq 0 40)).

(** The first 32 bits of the fractional parts of the cube roots of the
    first 64 primes. *)
Definition K : list N := (λ p, word (root3 (p * 2 ^ 96))) <$> primes 64.

(** The first 32 bits of the fractional parts of the square roots of the
    first 8 primes. *)
Definition H0 : list N := (λ p, word (N.sqrt (p * 2 ^ 64))) <$> primes 8.

(** The message, the byte 128, zero bytes up to 56 modulo 64, and the bit
    length on 8 bytes. *)
Definition pad (message : list N) : list N :=
  let n := length message in
  let zeros := (64 - (n + 9) mod 64) mod 64 in
  let bits := (8 * N.of_nat n)%N in
  message ++ [128%N] ++ replicate zeros 0%N
  ++ ((λ i, (N.shiftr bits (8 * N.of_nat (7 - i))) mod 256)%N <$> seq 0 8).

(** Big-endian words of a byte list. *)
Fixpoint words (bytes : list N) : list N :=
  match bytes with
  | a :: b :: c :: d :: rest => (((a * 256 + b) * 256 + c) * 256 + d)%N :: words rest
  | _ => []
  end.

Fixpoint blocks (fuel : nat) (ws : list N) : list (list N) :=
  match fuel, ws with
  | S fuel', _ :: _ => take 16 ws :: blocks fuel' (drop 16 ws)
  | _, _ => []
  end.

Definition ssig0 (x : N) : N := N.lxor (N.lxor (rotr 7 x) (rotr 18 x)) (N.shiftr x 3).
Definition ssig1 (x : N) : N := N.lxor (N.lxor (rotr 17 x) (rotr 19 x)) (N.shiftr x 10).
Definition bsig0 (x : N) : N := N.lxor (N.lxor (rotr 2 x) (rotr 13 x)) (rotr 22 x).
Definition bsig1 (x : N) : N := N.lxor (N.lxor (rotr 6 x) (rotr 11 x)) (rotr 25 x).
Definition ch (x y z : N) : N := N.lxor (N.land x y) (N.land (word (N.lnot x 32)) z).
Definition maj (x y z : N) : N := N.lxor (N.lxor (N.land x y) (N.land x z)) (N.land y z).

Definition schedule (block : list N) : list N :=
  foldl (λ w i, w ++ [add (add (ssig1 (nth (i - 2) w 0%N)) (nth (i - 7) w 0%N))
                          (add (ssig0 (nth (i - 15) w 0%N)) (nth (i - 16) w 0%N))])
        block (seq 16 48).

Definition round (state : list N) (kw : N * N) : list N :=
  match state with
  | [a; b; c; d; e; f; g; h] =>
      let t1 := add (add (add h (bsig1 e)) (add (ch e f g) kw.1)) kw.2 in
      let t2 := add (bsig0 a) (maj a b c) in
      [add t1 t2; a; b; c; add d t1; e; f; g]
  | _ => state
  end.

Definition compress (state block : list N) : list N :=
  zip_with add state (foldl round state (zip K (schedule block))).

Definition hex_digit (d : N) : N := if (d <? 10)%N then (48 + d)%N else (87 + d)%N.

Definition hex_word (x : N) : jsstring :=
  (λ i, hex_digit ((N.shiftr x (4 * N.of_nat (7 - i))) mod 16)%N) <$> seq 0 8.

Definition digest_hex (message : list N) : jsstring :=
  let ws := words (pad message) in
  foldl compress H0 (blocks (length ws) ws) ≫= hex_word.

End SHA256.

(** *** JSON numbers *)

(** The double nearest to [m·10^e], ties to even, for [0 ≤ m]. *)
Definition decimal_to_double (m e : Z) : float :=
  if (m =? 0)%Z then 0%float
  else if (310 <? e + Z.log2 m / 4)%Z then infinity
  else if (e + Z.log2 m / 3 + 1 <? -330)%Z then 0%float
  else if (0 <=? e)%Z then
    SF2Prim (binary_normalize prec emax (m * 10 ^ e) 0 false)
  else
    (* a quotient of 64 bits or more, and one more bit that tells whether
       the division left a remainder *)
    let d := (10 ^ (- e))%Z in
    let k := Z.max 0 (64 + Z.log2 d - Z.log2 m) in
    let n := (m * 2 ^ k)%Z in
    let sticky := if (n mod d =? 0)%Z then 0%Z else 1%Z in
    SF2Prim (binary_normalize prec emax (2 * (n / d) + sticky) (- k - 1) false).

Definition digits_value (ds : jsstring) : Z :=
  foldl (λ acc c, acc * 10 + (Z.of_N c - 48))%Z 0%Z ds.

Definition digits (s : jsstring) : jsstring * jsstring :=
  break_at (λ c, negb (is_digit c)) s.

(** [-? int frac? exp?] at the head of [s]. *)
Definition parse_number (s : jsstring) : option (float * jsstring) :=
  let '(negative, s) := match s with 45%N :: r => (true, r) | _ => (false, s) end in
  let '(int, s) := digits s in
  let leading_zero := match int with 48%N :: _ :: _ => true | _ => false end in
  if bool_decide (int = []) || leading_zero then None
  else
    '(frac, s) ← match s with
                  | 46%N :: r =>
                      let '(frac, r) := digits r in
                      if bool_decide (frac = []) then None else Some (frac, r)
                  | _ => Some ([], s)
                  end;
    '(exp, s) ← match s with
                 | c :: r =>
                     if (c =? 101)%N || (c =? 69)%N then
                       let '(minus, r) := match r with
                                          | 45%N :: r => (true, r)
                                          | 43%N :: r => (false, r)
                                          | _ => (false, r)
                                          end in
                       let '(ds, r) := digits r in
                       if bool_decide (ds = []) then None
                       else Some (if minus then (- digits_value ds)%Z else digits_value ds, r)
                     else Some (0%Z, s)
                 | [] => Some (0%Z, s)
                 end;
    let x := decimal_to_double (digits_value (int ++ frac)) (exp - Z.of_nat (length frac)) in
    Some (if negative then (- x)%float else x, s).

(** Is [num/den ≥ 10^p]? *)
Definition ge_pow10 (num den p : Z) : bool :=
  if (0 <=? p)%Z then (den * 10 ^ p <=? num)%Z else (den <=? num * 10 ^ (- p))%Z.

(** The integer nearest to [num/den·10^p]. *)
Definition scaled (num den p : Z) : Z :=
  let '(a, b) := if (0 <=? p)%Z then (num * 10 ^ p, den)%Z else (num, den * 10 ^ (- p))%Z in
  ((2 * a + b) / (2 * b))%Z.

(** [Number::toString] of a positive finite double [m·2^e]: the shortest
    digits [s], [k] of them, with [s·10^(n-k)] read back as the double. *)
Definition shortest_digits (m e : Z) : Z * Z * Z :=
  let num := (m * 2 ^ Z.max e 0)%Z in
  let den := (2 ^ Z.max (- e) 0)%Z in
  let x := SF2Prim (binary_normalize prec emax m e false) in
  let est := ((Z.log2 num - Z.log2 den) * 30103 / 100000)%Z in
  let n := default est
             (list_find (λ p, ge_pow10 num den (p - 1) && negb (ge_pow10 num den p))
                ((λ i, est - 1 + Z.of_nat i)%Z <$> seq 0 5) ≫= λ '(_, p), Some p) in
  let candidate (k : Z) : Z * Z :=
    let s := scaled num den (k - n) in
    if (s =? 10 ^ k)%Z then (10 ^ (k - 1), n + 1)%Z else (s, n) in
  let reads_back (k : Z) : bool :=
    let '(s, n') := candidate k in PrimFloat.eqb (decimal_to_double s (n' - k)) x in
  let k := default 17%Z
             (list_find (λ k, reads_back k) ((λ i, Z.of_nat i) <$> seq 1 17)
              ≫= λ '(_, k), Some k) in
  let '(s, n') := candidate k in (s, k, n').

Definition decimal (z : Z) : jsstring := lit (pretty z).

Definition Number_toString (x : float) : jsstring :=
  match Prim2SF x with
  | S754_nan => lit "NaN"
  | S754_zero _ => lit "0"
  | S754_infinity sign => if sign then lit "-Infinity" else lit "Infinity"
  | S754_finite sign m e =>
      let '(s, k, n) := shortest_digits (Z.pos m) e in
      let ds := decimal s in
      let zeros (z : Z) := replicate (Z.to_nat z) 48%N in
      (if sign then lit "-" else []) ++
      if bool_decide (k ≤ n ∧ n ≤ 21)%Z then ds ++ zeros (n - k)%Z
      else if bool_decide (0 < n ∧ n ≤ 21)%Z then
        take (Z.to_nat n) ds ++ lit "." ++ drop (Z.to_nat n) ds
      else if bool_decide (-6 < n ∧ n ≤ 0)%Z then lit "0." ++ zeros (- n)%Z ++ ds
      else
        let exponent := (if (0 <=? n - 1)%Z then lit "+" else lit "-") ++ decimal (Z.abs (n - 1)) in
        if (k =? 1)%Z then ds ++ lit "e" ++ exponent
        else take 1 ds ++ lit "." ++ drop 1 ds ++ lit "e" ++ exponent
  end.

(** *** JSON texts *)

Fixpoint skip_ws (s : jsstring) : jsstring :=
  match s with
  | c :: rest =>
      if (c =? 32)%N || (c =? 9)%N || (c =? 10)%N || (c =? 13)%N then skip_ws rest else s
  | [] => []
  end.

Definition hex_value (c : N) : option N :=
  if is_digit c then Some (c - 48)%N
  else if ((97 <=? c) && (c <=? 102))%N then Some (c - 87)%N
  else if ((65 <=? c) && (c <=? 70))%N then Some (c - 55)%N
  else None.

(** The units of a string literal after its opening quote, and the rest. *)
Fixpoint parse_string (fuel : nat) (s acc : jsstring) : option (jsstring * jsstring) :=
  match fuel, s with
  | S fuel', 34%N :: rest => Some (reverse acc, rest)
  | S fuel', 92%N :: 117%N :: a :: b :: c :: d :: rest =>
      a ← hex_value a; b ← hex_value b; c ← hex_value c; d ← hex_value d;
      parse_string fuel' rest ((((a * 16 + b) * 16 + c) * 16 + d)%N :: acc)
  | S fuel', 92%N :: e :: rest =>
      unit ← (if (e =? 34)%N || (e =? 92)%N || (e =? 47)%N then Some e
              else if (e =? 98)%N then Some 8%N
              else if (e =? 102)%N then Some 12%N
              else if (e =? 110)%N then Some 10%N
              else if (e =? 114)%N then Some 13%N
              else if (e =? 116)%N then Some 9%N
              else None);
      parse_string fuel' rest (unit :: acc)
  | S fuel', c :: rest =>
      if (c <? 32)%N || (c =? 92)%N then None else parse_string fuel' rest (c :: acc)
  | _, _ => None
  end.

(** A canonical array index: such keys come first, in ascending order. *)
Definition array_index (key : jsstring) : option Z :=
  match key with
  | c :: rest =>
      if forallb is_digit key && (bool_decide (rest = []) || negb (c =? 48)%N)
         && bool_decide (length key ≤ 10) && (digits_value key <? 4294967295)%Z
      then Some (digits_value key) else None
  | [] => None
  end.

(** [record[key] = v] on the members of an object under construction. *)
Fixpoint set_member (key : jsstring) (v : json) (members : list (jsstring * json))
  : list (jsstring * json) :=
  match members with
  | [] => [(key, v)]
  | (k, w) :: rest =>
      if decide (k = key) then (k, v) :: rest
      else
        match array_index key, array_index k with
        | Some i, Some j =>
            if (i <? j)%Z then (key, v) :: members else (k, w) :: set_member key v rest
        | Some _, None => (key, v) :: members
        | None, _ => (k, w) :: set_member key v rest
        end
  end.

Fixpoint parse_value (fuel : nat) (s : jsstring) : option (json * jsstring) :=
  match fuel with
  | 0 => None
  | S fuel' =>
      match skip_ws s with
      | 110%N :: 117%N :: 108%N :: 108%N :: rest => Some (JNull, rest)
      | 116%N :: 114%N :: 117%N :: 101%N :: rest => Some (JBool true, rest)
      | 102%N :: 97%N :: 108%N :: 115%N :: 101%N :: rest => Some (JBool false, rest)
      | 34%N :: rest =>
          '(str, rest) ← parse_string (length rest) rest []; Some (JString str, rest)
      | 91%N :: rest =>
          match skip_ws rest with
          | 93%N :: rest => Some (JArray [], rest)
          | _ => parse_items fuel' rest []
          end
      | 123%N :: rest =>
          match skip_ws rest with
          | 125%N :: rest => Some (JObject [], rest)
          | _ => parse_members fuel' rest []
          end
      | s => '(x, rest) ← parse_number s; Some (JNumber x, rest)
      end
  end
with parse_items (fuel : nat) (s : jsstring) (acc : list json) : option (json * jsstring) :=
  match fuel with
  | 0 => None
  | S fuel' =>
      '(v, rest) ← parse_value fuel' s;
      match skip_ws rest with
      | 44%N :: rest => parse_items fuel' rest (v :: acc)
      | 93%N :: rest => Some (JArray (reverse (v :: acc)), rest)
      | _ => None
      end
  end
with parse_members (fuel : nat) (s : jsstring) (acc : list (jsstring * json))
  : option (json * jsstring) :=
  match fuel with
  | 0 => None
  | S fuel' =>
      match skip_ws s with
      | 34%N :: rest =>
          '(key, rest) ← parse_string (length rest) rest [];
          match skip_ws rest with
          | 58%N :: rest =>
              '(v, rest) ← parse_value fuel' rest;
              match skip_ws rest with
              | 44%N :: rest => parse_members fuel' rest (set_member key v acc)
              | 125%N :: rest => Some (JObject (set_member key v acc), rest)
              | _ => None
              end
          | _ => None
          end
      | _ => None
      end
  end.

(** [JSON.parse(text)] *)
Definition parse_json (text : jsstring) : option json :=
  '(v, rest) ← parse_value (S (length text)) text;
  if bool_decide (skip_ws rest = []) then Some v else None.

Definition hex4 (c : N) : jsstring :=
  (λ i, SHA256.hex_digit ((N.shiftr c (4 * N.of_nat (3 - i))) mod 16)%N) <$> seq 0 4.

(** The units of a string between the quotes [JSON.stringify] writes. *)
Fixpoint escape (s : jsstring) : jsstring :=
  match s with
  | [] => []
  | c :: rest =>
      if (c =? 34)%N || (c =? 92)%N then 92%N :: c :: escape rest
      else if (c =? 8)%N then lit "\b" ++ escape rest
      else if (c =? 12)%N then lit "\f" ++ escape rest
      else if (c =? 10)%N then lit "\n" ++ escape rest
      else if (c =? 13)%N then lit "\r" ++ escape rest
      else if (c =? 9)%N then lit "\t" ++ escape rest
      else if (c <? 32)%N then lit "\u" ++ hex4 c ++ escape rest
      else if is_high_surrogate c then
        match rest with
        | lo :: rest' =>
            if is_low_surrogate lo then c :: lo :: escape rest'
            else lit "\u" ++ hex4 c ++ escape rest
        | [] => lit "\u" ++ hex4 c
        end
      else if is_low_surrogate c then lit "\u" ++ hex4 c ++ escape rest
      else c :: escape rest
  end.

Definition quote (s : jsstring) : jsstring := [34%N] ++ escape s ++ [34%N].

Definition join (sep : jsstring) (parts : list jsstring) : jsstring :=
  match parts with
  | [] => []
  | first :: rest => first ++ (rest ≫= λ part, sep ++ part)
  end.

(** [JSON.stringify(value)] of a parsed value. *)
Fixpoint stringify (value : json) : jsstring :=
  match value with
  | JNull => lit "null"
  | JBool b => if b then lit "true" else lit "false"
  | JNumber x =>
      match Prim2SF x with
      | S754_nan | S754_infinity _ => lit "null"
      | _ => Number_toString x
      end
  | JString str => quote str
  | JArray items => lit "[" ++ join (lit ",") (map stringify items) ++ lit "]"
  | JObject members =>
      lit "{" ++ join (lit ",") (map (λ m, quote m.1 ++ lit ":" ++ stringify m.2) members)
      ++ lit "}"
  end.

(** [text.match(re)] for the patterns of the source. *)
Definition string_match (re : RegExp) (text : jsstring) : option (list jsstring) :=
  if decide (source re = source emailRegex) then
    match match_all (S (length text)) email_regex [] text with
    | [] => None
    | ms => Some ms
    end
  else if decide (source re = source phoneRegex) then
    match match_all (S (length text)) phone_regex [] text with
    | [] => None
    | ms => Some ms
    end
  else if decide (source re = source pricePattern) then
    match search price_regex [] text with
    | Some (start, e) => Some [matched start e]
    | None => None
    end
  else None.

#[local] Instance runtime : Runtime := {|
  URL_new := parse_URL;
  String_match := string_match;
  JSON_parse := parse_json;
  JSON_stringify := stringify;
  Readability_parse := λ _ _, Normal None;
  createHash_sha256_hex := λ text, SHA256.digest_hex (utf8 text);
  toLowerCase := fmap lower;
|}.

(** An anchor element with the given [href]. *)
Definition anchor (href : jsstring) : Element :=
  {| el_text := [];
     el_attr := λ name, if decide (name = lit "href") then Some href else None;
     el_html := [] |}.

Fixpoint matching (selector : jsstring) (matches : list (jsstring * list Element))
  : list Element :=
  match matches with
  | [] => []
  | (sel, els) :: rest => if decide (sel = selector) then els else matching selector rest
  end.

(** A static page given by its markup, the text of its body and the
    elements each selector matches. *)
Definition page_of (markup text : jsstring) (matches : list (jsstring * list Element))
  : CheerioAPI :=
  {| root_html := markup;
     select := λ selector, Normal (matching selector matches);
     body_text_without := λ _, Normal text |}.

(** A static page given by the elements each selector matches. *)
Definition static_page (matches : list (jsstring * list Element)) : CheerioAPI :=
  page_of [] [] matches.

(** The page of the link scenario: on [https://example.com/], two anchors
    [/about] and one anchor [https://other.example/x]. *)
Definition links_page : CheerioAPI :=
  static_page [(css "a[href]", [anchor (lit "/about"); anchor (lit "/about");
                                anchor (lit "https://other.example/x")])].

(** A page whose only anchor is a mail link. *)
Definition mailto_page : CheerioAPI :=
  static_page [(css "a[href]", [anchor (lit "mailto:info@example.com")])].

(** A static page with no element at all. *)
Definition blank_page : CheerioAPI := static_page [].

(** A parse tree whose queries throw. *)
Definition failing_page : CheerioAPI :=
  {| root_html := [];
     select := λ _, Throw (lit "Error: query failed");
     body_text_without := λ _, Throw (lit "Error: query failed") |}.

(** What [locator.getAttribute] throws when no element matches the
    locator before its timeout. *)
Definition timeout_error : jsstring :=
  lit "TimeoutError: locator.getAttribute: Timeout 30000ms exceeded.".

(** What it throws when the locator resolves to more than one element. *)
Definition strict_mode_error : jsstring :=
  lit "Error: locator.getAttribute: strict mode violation".

(** [page.locator(selector).getAttribute(name)], by the elements the
    locator resolves to: the call waits for one element and reads its
    attribute. *)
Definition locator_attribute (handles : list ElementHandle) (name : jsstring)
  : completion (option jsstring) :=
  match handles with
  | [] => Throw timeout_error
  | [el] => getAttribute el name
  | _ => Throw strict_mode_error
  end.

(** The rendering of a blank document, [<html><head></head><body></body>
    </html>]: no title, no text and no element but the root, which has no
    attribute. A locator of any other element times out. *)
Definition blank_rendered : Page :=
  let root := {| textContent := Normal (Some []); getAttribute := λ _, Normal None |} in
  let found := λ selector, if decide (selector = css "html") then [root] else [] in
  {| page_title := Normal [];
     page_content := Normal (lit "<html><head></head><body></body></html>");
     locator_all := λ selector, Normal (found selector);
     locator_getAttribute := λ selector name, locator_attribute (found selector) name;
     evaluate_visible_text := Normal [];
     evaluate_node_count := Normal 3;
     evaluate_main_innerText := Normal [];
     evaluate_main_paragraphs := Normal [];
     evaluate_footer_innerText := Normal [];
     evaluate_body_innerHTML := Normal [] |}.

(** The default key of a request: the URL without its fragment. *)
Definition url_key (url : jsstring) : jsstring :=
  (break_at (λ c, (c =? 35)%N) url).1.

Definition timestamp : jsstring := lit "2025-11-11T23:30:19.328Z".

Definition later_timestamp : jsstring := lit "2025-11-12T08:00:00.000Z".

(** A web in which every URL serves the same static and rendered page. *)
Definition uniform_world (static : CheerioAPI) (rendered : Page) : World :=
  {| computeUniqueKey := url_key;
     fetch := λ _, Some (None, static);
     navigate := λ _, Some (None, rendered);
     now := λ _, timestamp |}.

(** An element with a text. *)
Definition element (text : jsstring) : Element :=
  {| el_text := text; el_attr := λ _, None; el_html := text |}.

(** An element with a text and a markup. *)
Definition node (text html : jsstring) : Element :=
  {| el_text := text; el_attr := λ _, None; el_html := html |}.

(** The page of the accept scenario: [<title>Acme</title>] and an
    [<article>] of 2000 characters, no JSON-LD. *)
Definition acme_article : jsstring := replicate 2000 97%N.

Definition acme_body : jsstring := lit "<article>" ++ acme_article ++ lit "</article>".

Definition acme_head : jsstring := lit "<title>Acme</title>".

Definition acme_page : CheerioAPI :=
  let article := element acme_article in
  let title := element (lit "Acme") in
  let head := node (lit "Acme") acme_head in
  let body := node acme_article acme_body in
  let html := node (lit "Acme" ++ acme_article)
                (lit "<head>" ++ acme_head ++ lit "</head><body>" ++ acme_body ++ lit "</body>") in
  page_of (lit "<html>" ++ el_html html ++ lit "</html>") acme_article
    [(css "title", [title]);
     (css "article", [article]);
     (css "body", [body]);
     (css "html", [html]);
     (css "*", [html; head; title; body; article])].

(** A JSON text of the source, typed with single quotes for its double
    quotes. *)
Definition json_text (s : string) : jsstring := css s.

(** The page of the JSON-LD scenario: one script that does not parse and
    one script with an organization. *)
Definition jsonld_page : CheerioAPI :=
  static_page [(css "script[type='application/ld+json']",
                [element (json_text "{'@type': 'Product', ");
                 element (json_text "{'@type':'Organization'}")])].

(** A footer and a main text that name the same address. *)
Definition contact_footer : jsstring :=
  lit "Acme AB, info@acme.example, tel. +46 8 123 456".

Definition contact_main_text : jsstring :=
  lit "Write to info@acme.example or sales@acme.example.".

(** A static page that shows the three critical fields of the probe. *)
Definition service_page : CheerioAPI :=
  static_page [(Hybrid.serviceTitleSelector, [element (lit "Drain cleaning")]);
               (Hybrid.providerSelector, [element (lit "Acme AB")]);
               (Hybrid.priceTextSelector, [element (lit "995 kr")])].

(** A web in which the URLs that end in [/a] serve the service page and
    every other URL a blank page. *)
Definition mixed_world : World :=
  {| computeUniqueKey := url_key;
     fetch := λ url, Some (None, if decide (lit "/a" `suffix_of` url)
                                 then service_page else blank_page);
     navigate := λ _, Some (None, blank_rendered);
     now := λ _, timestamp |}.

Definition example_url : jsstring := lit "https://example.com/".

(** Eleven pages of one site: [https://example.com/a] to [.../k]. *)
Definition eleven_urls : list jsstring :=
  (λ c, lit "https://example.com/" ++ [c])
  <$> [97; 98; 99; 100; 101; 102; 103; 104; 105; 106; 107]%N.

End Example.

(** ** Notions used by the proofs *)

(** What one call of [traverse] does to the set: it stays duplicate-free
    and gains exactly the types found inside the value. *)
Definition traverse_ok (j : json) : Prop :=
  ∀ types, NoDup types →
    NoDup (traverse types j)
    ∧ ∀ ty, ty ∈ traverse types j ↔ ty ∈ types ∨ has_type ty j.

(** On a value that is a tree the walk over the store returns, at every
    depth bound above the height of the tree, what [traverse] returns. *)
Definition walk_agrees (store : gmap nat object) (j : json) : Prop :=
  ∀ v, represents store v j →
    ∃ d, ∀ depth types, d ≤ depth →
      traverse_graph depth store types v = Some (traverse types j).

Section ScriptLoop.
Context `{Runtime}.

(** The value a JSON-LD script adds to the list, if any: its text parsed,
    unless the serialization of the value is longer than 150000 units. *)
Definition script_value (text : jsstring) : option json :=
  parsed ← JSON_parse text;
  if decide (N.of_nat (length (JSON_stringify parsed)) ≤ 150000)%N then Some parsed else None.

End ScriptLoop.

Section LinkLoop.
Context `{Runtime}.

(** What one anchor adds to the two lists. *)
Definition add_link_pure (baseUrl : jsstring)
    (lists : list jsstring * list jsstring) (h : option jsstring)
  : list jsstring * list jsstring :=
  match h with
  | Some (c :: s) =>
      let n := resolve_link baseUrl (c :: s) in
      if decide (link_domain n = link_domain baseUrl) then (lists.1 ++ [n], lists.2)
      else if decide (link_domain n ≠ []) then (lists.1, lists.2 ++ [n])
      else lists
  | _ => lists
  end.

End LinkLoop.


(** The requests of a queue that only start URLs, those of [seen], were
    added to. *)
Definition seeds_only (w : World) (seen : list jsstring) (q : RequestQueue) : Prop :=
  handledCount q = 0 ∧ length (requests q) ≤ length seen
  ∧ ∀ r, r ∈ requests q →
         request_url r ∈ seen
         ∧ uniqueKey r = computeUniqueKey w (request_url r)
         ∧ userData_needsJs r = None.

(** ** Notions about white space *)

(** White space occurs in [s] only as single spaces; [after_space] tells
    that the unit before [s] is a space. *)
Fixpoint single_spaced (after_space : bool) (s : jsstring) : bool :=
  match s with
  | [] => true
  | c :: s' =>
      if is_white_space c
      then bool_decide (c = 32%N) && negb after_space && single_spaced true s'
      else single_spaced false s'
  end.

(** [text.trimEnd()], by recursion on the text. *)
Fixpoint trimEnd (s : jsstring) : jsstring :=
  match s with
  | [] => []
  | c :: s' =>
      match trimEnd s' with
      | [] => if is_white_space c then [] else [c]
      | t => c :: t
      end
  end.

(** ** Notions about the text blocks *)

(** The normalized texts of the elements [els] that are longer than
    [minLength]. *)
Definition block_texts (els : list Element) (minLength : nat) : list jsstring :=
  filter (λ text, minLength < length text)
         ((λ el, normalizeWhitespace (el_text el)) <$> els).

(** No text of the list is longer than a text before it. *)
Fixpoint longest_first (l : list jsstring) : Prop :=
  match l with
  | [] => True
  | a :: rest => Forall (λ b, length b ≤ length a) rest ∧ longest_first rest
  end.

(** ** Notions about the headings *)

(** In [l] an [a] occurs with no [b] before it. *)
Fixpoint occurs_first {A} (l : list A) (a b : A) : Prop :=
  match l with
  | [] => False
  | c :: l' => c = a ∨ (c ≠ b ∧ occurs_first l' a b)
  end.

(** [hs] lists the headings of the elements [els]: their normalized texts
    that are not empty, each once, in the order of their first
    occurrence: when [a] stands before [b] in [hs], the texts of the
    elements show an [a] before the first [b]. *)
Definition headings_of (els : list Element) (hs : list jsstring) : Prop :=
  let texts := (λ el, normalizeWhitespace (el_text el)) <$> els in
  NoDup hs
  ∧ hs `sublist_of` texts
  ∧ (∀ text, text ∈ hs ↔
             text ≠ [] ∧ ∃ el, el ∈ els ∧ text = normalizeWhitespace (el_text el))
  ∧ ∀ before a after b, hs = before ++ a :: after → b ∈ after →
      ∃ l1 l2, texts = l1 ++ a :: l2 ∧ b ∉ l1.

(** The three heading levels: the selector of each and its list in the
    result. *)
Definition heading_levels : list (jsstring * (Headings → list jsstring)) :=
  [(css "h1", h1); (css "h2", h2); (css "h3", h3)].

(** The body of the loop over the heading elements of the fallback path. *)
Definition heading_step (acc : list jsstring) (el : ElementHandle)
  : completion (list jsstring) :=
  let* text := textContent el in
  Normal (if truthy text then acc ++ [normalizeWhitespace (or_empty text)] else acc).

(** ** Notions about documents *)

(** A document that one of the two pipelines builds. *)
Definition built `{Runtime} (doc : ContentDoc) : Prop :=
  (∃ url html ch response t,
     Harvester.build_http_doc url html ch response t = Normal doc)
  ∨ (∃ url page response t, Harvester.build_js_doc url page response t = Normal doc).

(** The sizes the extractors keep within. *)
Definition bounded `{Runtime} (doc : ContentDoc) : Prop :=
  (∀ t, ContentDoc.title doc = Some t → t ≠ [])
  ∧ (∀ t, ContentDoc.main_text doc = Some t → (N.of_nat (length t) ≤ 10000)%N)
  ∧ (∀ t, ContentDoc.all_text_excerpt doc = Some t → (N.of_nat (length t) ≤ 15000)%N)
  ∧ length (ContentDoc.text_blocks doc) ≤ 5
  ∧ Forall (λ b, length b ≤ 2000) (ContentDoc.text_blocks doc)
  ∧ length (ContentDoc.evidence doc) ≤ 3
  ∧ Forall (λ e, length e ≤ 400) (ContentDoc.evidence doc)
  ∧ size (ContentDoc.meta doc) ≤ 6
  ∧ Forall (λ j, (N.of_nat (length (JSON_stringify j)) ≤ 150000)%N) (ContentDoc.jsonld doc)
  ∧ NoDup (ContentDoc.schema_types doc)
  ∧ 2 * words (ContentDoc.dom_stats doc) ≤ chars (ContentDoc.dom_stats doc) + 1.

(** ** Notions about the probe *)

(** The three extractors of [ParseUtils], each with its selector and its
    test. *)
Definition probe_extractors
  : list ((option CheerioAPI → option Page → completion (option jsstring))
          * jsstring * (jsstring → bool)) :=
  [(Hybrid.extractServiceTitle, Hybrid.serviceTitleSelector, Hybrid.short_text);
   (Hybrid.extractProvider, Hybrid.providerSelector, Hybrid.short_text);
   (Hybrid.extractPriceText, Hybrid.priceTextSelector, Hybrid.priced_text)].

(** ** Notions about a run of the content harvester *)

Section HarvesterOutcomes.
Context `{Runtime}.
Variable w : World.

(** The document the fast pass stores for a request, if it stores one. *)
Definition stored (request : Request) : option ContentDoc :=
  match Harvester.fast_result w request with
  | Some (Normal doc) => if Harvester.critical_missing doc then None else Some doc
  | _ => None
  end.

(** The URL the fast pass puts on the fallback list for a request, if it
    defers the request. *)
Definition deferred_url (request : Request) : option jsstring :=
  match Harvester.fast_result w request with
  | Some (Normal doc) =>
      if Harvester.critical_missing doc then Some (request_url request) else None
  | Some (Throw _) => Some (request_url request)
  | None => None
  end.

(** The document the fallback pass stores for a request, if it stores
    one. *)
Definition rendered (request : Request) : option ContentDoc :=
  if needsJs request then
    match navigate w (request_url request) with
    | Some (response, page) =>
        match Harvester.build_js_doc (request_url request) page response
                (now w request) with
        | Normal doc => Some doc
        | Throw _ => None
        end
    | None => None
    end
  else None.

End HarvesterOutcomes.

(** ** Notions about a run of the hybrid crawler *)

Section HybridOutcomes.
Variable w : World.

(** The fast pass defers a request: the page is fetched, its queries
    return and a critical field is missing. *)
Definition deferred_probe (request : Request) : option jsstring :=
  match fetch w (request_url request) with
  | Some (_, ch) =>
      match Hybrid.extractServiceTitle (Some ch) None,
            Hybrid.extractProvider (Some ch) None,
            Hybrid.extractPriceText (Some ch) None with
      | Normal title, Normal prov, Normal price =>
          if truthy title && truthy prov && truthy price then None
          else Some (request_url request)
      | _, _, _ => None
      end
  | None => None
  end.

(** The fallback pass handles a request as a fallback request: it carries
    the marker and the browser reaches its URL. *)
Definition probed (request : Request) : bool :=
  needsJs request && bool_decide (is_Some (navigate w (request_url request))).

End HybridOutcomes.

(** ** The harvest server ([content_harvester_server.ts]) *)

Module Server.

#[global] Instance RenderMode_eq_dec : EqDecision RenderMode.
Proof. solve_decision. Defined.

(** The [stats] of a [HarvestResponse]: [total], [http] and [js]. *)
Record HarvestStats := { total : nat; httpCount : nat; jsCount : nat }.

Record HarvestResponse := {
  success : bool;
  data : list ContentDoc;
  stats : HarvestStats;
}.

Section Harvest.
Context `{Runtime}.

(** The test of [data.items.filter]: the lowered URL of the item is one of
    the requested URLs or starts with one. *)
Definition requested (requestedUrls : list jsstring) (item : ContentDoc) : bool :=
  let itemUrl := toLowerCase (ContentDoc.url item) in
  bool_decide (itemUrl ∈ requestedUrls)
  || existsb (λ reqUrl, bool_decide (reqUrl `prefix_of` itemUrl)) requestedUrls.

(** [filteredItems.filter((item) => String(item.render_mode || '') === mode).length] *)
Definition count_mode (mode : RenderMode) (items : list ContentDoc) : nat :=
  length (filter (λ item, ContentDoc.render_mode item = mode) items).

(** The response of [handleHarvest] after the run, from the URLs of the
    validated request and the items of the data set. *)
Definition harvest_response (urls : list jsstring) (items : list ContentDoc)
  : nat * HarvestResponse :=
  (* Filter to only the requested URLs (in case of redirects or duplicates) *)
  let requestedUrls := Set_new (toLowerCase <$> urls) in
  let filteredItems := filter (λ item, requested requestedUrls item) items in
  (* Count by render mode *)
  let httpCount := count_mode http filteredItems in
  let jsCount := count_mode js filteredItems in
  (200, {| success := true; data := filteredItems;
           stats := {| total := length filteredItems;
                       httpCount := httpCount; jsCount := jsCount |} |}).

End Harvest.

End Server.

(** ** Sample pages *)

Module Sample.

(** A page with a [main] element of 150 letters, an [article] of 300 and a
    paragraph of 250. *)
Definition blocks_page : CheerioAPI :=
  Example.static_page
    [(css "main", [Example.element (replicate 150 97%N)]);
     (css "article", [Example.element (replicate 300 98%N)]);
     (css "p, div", [Example.element (replicate 250 99%N)])].

(** A page whose first-level headings are the same title twice, spaced
    differently, and a heading of two spaces. *)
Definition headings_page : CheerioAPI :=
  Example.static_page
    [(css "h1", [Example.element (lit "  Welcome  to Acme ");
                 Example.element (lit "Welcome to Acme");
                 Example.element (lit "  ")]);
     (css "h2", [Example.element (lit "Prices")])].

(** An element handle with a text and no attribute. *)
Definition handle (text : jsstring) : ElementHandle :=
  {| textContent := Normal (Some text); getAttribute := λ _, Normal None |}.

(** A rendered page given by the handles each locator finds. *)
Fixpoint located (selector : jsstring) (matches : list (jsstring * list ElementHandle))
  : list ElementHandle :=
  match matches with
  | [] => []
  | (sel, els) :: rest => if decide (sel = selector) then els else located selector rest
  end.

Definition rendered_with (matches : list (jsstring * list ElementHandle)) : Page :=
  {| page_title := Normal [];
     page_content := Normal [];
     locator_all := λ selector, Normal (located selector matches);
     locator_getAttribute := λ selector name,
       Example.locator_attribute (located selector matches) name;
     evaluate_visible_text := Normal [];
     evaluate_node_count := Normal 0;
     evaluate_main_innerText := Normal [];
     evaluate_main_paragraphs := Normal [];
     evaluate_footer_innerText := Normal [];
     evaluate_body_innerHTML := Normal [] |}.

(** The same headings on a rendered page. *)
Definition headings_rendered : Page :=
  rendered_with
    [(css "h1", [handle (lit "  Welcome  to Acme ");
                 handle (lit "Welcome to Acme");
                 handle (lit "  ")]);
     (css "h2", [handle (lit "Prices")])].

(** An element with attributes and no text. *)
Fixpoint attribute (name : jsstring) (attrs : list (jsstring * jsstring))
  : option jsstring :=
  match attrs with
  | [] => None
  | (k, v) :: rest => if decide (k = name) then Some v else attribute name rest
  end.

Definition tag (attrs : list (jsstring * jsstring)) : Element :=
  {| el_text := []; el_attr := λ name, attribute name attrs; el_html := [] |}.

(** The same on a rendered page. *)
Definition rendered_tag (attrs : list (jsstring * jsstring)) : ElementHandle :=
  {| textContent := Normal (Some []);
     getAttribute := λ name, Normal (attribute name attrs) |}.

(** The rendering of a document whose head holds an Open Graph title
    without content, a description and a canonical link, and whose body is
    empty: no title and no text, but every element the metadata locators
    wait for. *)
Definition bare_markup : jsstring :=
  css "<html><head><meta property='og:title' content=''><meta name='description' content='Acme AB'><link rel='canonical' href='https://example.com/'></head><body></body></html>".

Definition bare_rendered : Page :=
  let og_title := rendered_tag [(lit "property", lit "og:title"); (lit "content", [])] in
  let description :=
    rendered_tag [(lit "name", lit "description"); (lit "content", lit "Acme AB")] in
  let canonical :=
    rendered_tag [(lit "rel", lit "canonical"); (lit "href", lit "https://example.com/")] in
  let found := λ selector,
    located selector
      [(css "html", [rendered_tag []]);
       (css "meta[property='og:title']", [og_title]);
       (css "meta[name='description']", [description]);
       (css "link[rel='canonical']", [canonical]);
       (css "meta[property^='og:']", [og_title]);
       (css "meta[name]", [description])] in
  {| page_title := Normal [];
     page_content := Normal bare_markup;
     locator_all := λ selector, Normal (found selector);
     locator_getAttribute := λ selector name,
       Example.locator_attribute (found selector) name;
     evaluate_visible_text := Normal [];
     evaluate_node_count := Normal 6;
     evaluate_main_innerText := Normal [];
     evaluate_main_paragraphs := Normal [];
     evaluate_footer_innerText := Normal [];
     evaluate_body_innerHTML := Normal [] |}.

(** A page without [<title>] whose head holds an Open Graph title, an
    Open Graph image without content, keywords, a generator and an author
    without content. *)
Definition meta_page : CheerioAPI :=
  let og_title := tag [(lit "property", lit "og:title"); (lit "content", lit "Acme")] in
  let og_image := tag [(lit "property", lit "og:image"); (lit "content", [])] in
  let keywords := tag [(lit "name", lit "keywords"); (lit "content", lit "drains")] in
  let generator := tag [(lit "name", lit "generator"); (lit "content", lit "Hugo")] in
  let author := tag [(lit "name", lit "author"); (lit "content", [])] in
  Example.static_page
    [(css "meta[property='og:title']", [og_title]);
     (css "meta[property^='og:']", [og_title; og_image]);
     (css "meta[name]", [keywords; generator; author])].

(** A page with three price elements: a label without digits, a price
    with white space around it and another price. *)
Definition price_page : CheerioAPI :=
  Example.static_page
    [(Hybrid.priceTextSelector,
      [Example.element (lit " from "); Example.element (lit "  995 kr ");
       Example.element (lit "1 200 kr")])].

(** Three JSON-LD scripts: one that does not parse, an empty one and an
    organization; once as a static page, once as a rendered page. *)
Definition jsonld_scripts : list jsstring :=
  [Example.json_text "{'@type': 'Product', "; [];
   Example.json_text "{'@type':'Organization'}"].

Definition jsonld_static : CheerioAPI :=
  Example.static_page
    [(css "script[type='application/ld+json']", Example.element <$> jsonld_scripts)].

Definition jsonld_rendered : Page :=
  rendered_with [(css "script[type='application/ld+json']", handle <$> jsonld_scripts)].

End Sample.

(** * Properties *)

(** Literals stay folded in the proofs; [vm_compute] evaluates them. *)
#[global] Opaque lit css.

(** ** Sets in insertion order *)

Section JsSetFacts.
Context {A : Type} `{EqDecision A}.
Implicit Types (s xs : list A) (x y : A).

Lemma elem_of_Set_add s x y : y ∈ Set_add s x ↔ y ∈ s ∨ y = x.
Proof.
  unfold Set_add. case_decide as Hin.
  - split; [by left|]. intros [?| ->]; done.
  - rewrite elem_of_app, list_elem_of_singleton. done.
Qed.

Lemma NoDup_Set_add s x : NoDup s → NoDup (Set_add s x).
Proof.
  intros Hs. unfold Set_add. case_decide as Hin; [done|].
  apply NoDup_app. split_and!; [done| |apply NoDup_singleton].
  intros y Hy Hx. apply list_elem_of_singleton in Hx. by subst.
Qed.

Lemma elem_of_foldl_Set_add xs s y : y ∈ foldl Set_add s xs ↔ y ∈ s ∨ y ∈ xs.
Proof.
  revert s. induction xs as [|x xs IH]; intros s; simpl.
  - rewrite elem_of_nil. tauto.
  - rewrite IH, elem_of_Set_add, elem_of_cons. tauto.
Qed.

Lemma NoDup_foldl_Set_add xs s : NoDup s → NoDup (foldl Set_add s xs).
Proof.
  revert s. induction xs as [|x xs IH]; intros s Hs; simpl; [done|].
  by apply IH, NoDup_Set_add.
Qed.

Lemma elem_of_Set_new xs y : y ∈ Set_new xs ↔ y ∈ xs.
Proof. unfold Set_new. rewrite elem_of_foldl_Set_add, elem_of_nil. tauto. Qed.

Lemma NoDup_Set_new xs : NoDup (Set_new xs).
Proof. apply NoDup_foldl_Set_add, NoDup_nil_2. Qed.

Lemma NoDup_take_Set_new n xs : NoDup (take n (Set_new xs)).
Proof.
  pose proof (NoDup_Set_new xs) as Hnd.
  rewrite <- (take_drop n (Set_new xs)) in Hnd.
  by apply NoDup_app in Hnd as (? & _ & _).
Qed.

Lemma Set_new_length_le xs : length (Set_new xs) ≤ length xs.
Proof.
  unfold Set_new.
  assert (∀ s, length (foldl Set_add s xs) ≤ length s + length xs) as Hgen.
  { induction xs as [|x xs IH]; intros s; simpl; [lia|].
    etrans; [apply IH|]. unfold Set_add. case_decide; [lia|].
    rewrite length_app. simpl. lia. }
  apply (Hgen []).
Qed.

End JsSetFacts.

(** ** Schema types *)

(** Induction on parsed values, through the lists they nest. *)
Section json_induction.
Variable P : json → Prop.
Hypothesis Hnull : P JNull.
Hypothesis Hbool : ∀ b, P (JBool b).
Hypothesis Hnumber : ∀ x, P (JNumber x).
Hypothesis Hstring : ∀ s, P (JString s).
Hypothesis Harray : ∀ items, Forall P items → P (JArray items).
Hypothesis Hobject : ∀ members, Forall (λ kv, P kv.2) members → P (JObject members).

Lemma json_induction (j : json) : P j.
Proof using All.
  revert j. fix IH 1. intros [|b|x|s|items|members].
  - apply Hnull.
  - apply Hbool.
  - apply Hnumber.
  - apply Hstring.
  - apply Harray. induction items as [|x l IHl]; constructor; [apply IH|apply IHl].
  - apply Hobject. induction members as [|[k v] l IHl]; constructor; [apply IH|apply IHl].
Qed.

End json_induction.

Lemma traverse_array types items :
  traverse types (JArray items) = foldl traverse types items.
Proof. reflexivity. Qed.

Lemma traverse_object types members :
  traverse types (JObject members) =
  foldl (λ types kv, traverse types kv.2)
        (match member (lit "@type") members with
         | Some (JString (c :: ty)) => Set_add types (c :: ty)
         | _ => types
         end) members.
Proof. reflexivity. Qed.

Lemma foldl_traverse_ok {X} (f : X → json) (xs : list X) :
  Forall (λ x, traverse_ok (f x)) xs →
  ∀ types, NoDup types →
    NoDup (foldl (λ t x, traverse t (f x)) types xs)
    ∧ ∀ ty, ty ∈ foldl (λ t x, traverse t (f x)) types xs
            ↔ ty ∈ types ∨ ∃ x, x ∈ xs ∧ has_type ty (f x).
Proof.
  induction 1 as [|x xs Hx _ IH]; intros types Hnd; simpl.
  - split; [done|]. intros ty. split; [by left|].
    intros [?|(x & Hin & _)]; [done|]. by apply elem_of_nil in Hin.
  - destruct (Hx types Hnd) as [Hnd' Hmem].
    destruct (IH _ Hnd') as [Hnd'' Hmem'']. split; [done|].
    intros ty. rewrite Hmem'', Hmem. split.
    + intros [[?|?]|(y & Hy & ?)]; [by left|right..].
      * exists x. split; [apply list_elem_of_here|done].
      * exists y. split; [by apply list_elem_of_further|done].
    + intros [?|(y & Hy & Hty)]; [by left; left|].
      apply elem_of_cons in Hy as [->|Hy]; [by left; right|].
      right. by exists y.
Qed.

Lemma traverse_spec j : traverse_ok j.
Proof.
  induction j as [|b|x|s|items IH|members IH] using json_induction;
    try (intros types Hnd; split; [done|]; intros ty; split;
         [by left|intros [?|Hty]; [done|inversion Hty]]).
  - intros types Hnd. rewrite traverse_array.
    destruct (foldl_traverse_ok id items IH types Hnd) as [Hnd' Hmem].
    split; [exact Hnd'|]. intros ty.
    etrans; [apply Hmem|]. split.
    + intros [?|(j & Hj & Hty)]; [by left|right]. by eapply type_in_array.
    + intros [?|Hty]; [by left|right]. inversion Hty; subst. eauto.
  - intros types Hnd. rewrite traverse_object.
    set (types' := match member (lit "@type") members with
                   | Some (JString (c :: ty)) => Set_add types (c :: ty)
                   | _ => types
                   end).
    assert (NoDup types'
            ∧ ∀ ty, ty ∈ types' ↔
                    ty ∈ types
                    ∨ (member (lit "@type") members = Some (JString ty) ∧ ty ≠ []))
      as [Hnd' Hhere].
    { subst types'.
      destruct (member (lit "@type") members) as [[| | |[|c s]| |]|] eqn:Hm;
        try (split; [done|]; intros ty; split; [by left|];
             intros [?|[Heq Hne]]; [done|]; by simplify_eq).
      split; [by apply NoDup_Set_add|]. intros ty. rewrite elem_of_Set_add.
      split; [intros [?| ->]; [by left|by right]|].
      intros [?|[Heq _]]; [by left|right]. by simplify_eq. }
    destruct (foldl_traverse_ok snd members IH types' Hnd') as [Hnd'' Hmem].
    split; [exact Hnd''|]. intros ty.
    etrans; [apply Hmem|]. rewrite Hhere. split.
    + intros [[?|[Hm Hne]]|([k j] & Hin & Hty)]; [by left|right..].
      * by apply type_here.
      * by eapply type_in_object.
    + intros [?|Hty]; [by left; left|]. inversion Hty; subst.
      * left. by right.
      * right. by eexists (_, _).
Qed.

Lemma extractSchemaTypes_spec jsonld :
  NoDup (extractSchemaTypes jsonld)
  ∧ ∀ ty, ty ∈ extractSchemaTypes jsonld ↔ ∃ j, j ∈ jsonld ∧ has_type ty j.
Proof.
  unfold extractSchemaTypes.
  destruct (foldl_traverse_ok id jsonld) with (types := @nil jsstring) as [Hnd Hmem].
  - apply Forall_forall. intros j _. apply traverse_spec.
  - apply NoDup_nil_2.
  - split; [exact Hnd|]. intros ty. etrans; [apply Hmem|].
    rewrite elem_of_nil. tauto.
Qed.

(** *** The same walk over a store *)

Lemma represents_member store key kvs members :
  Forall2 (λ kv kj, kv.1 = kj.1 ∧ represents store kv.2 kj.2) kvs members →
  match vmember key kvs, member key members with
  | Some v, Some j => represents store v j
  | None, None => True
  | _, _ => False
  end.
Proof.
  induction 1 as [|[k v] [k' j] kvs members [Hk Hv] _ IH]; simpl; [done|].
  simpl in Hk. subst k'. by case_decide.
Qed.

Lemma represents_type_string store key kvs members types :
  Forall2 (λ kv kj, kv.1 = kj.1 ∧ represents store kv.2 kj.2) kvs members →
  match vmember key kvs with
  | Some (VString (c :: ty)) => Set_add types (c :: ty)
  | _ => types
  end =
  match member key members with
  | Some (JString (c :: ty)) => Set_add types (c :: ty)
  | _ => types
  end.
Proof.
  intros Hrep. pose proof (represents_member store key kvs members Hrep) as Hm.
  destruct (vmember key kvs) as [v|], (member key members) as [j|]; try done.
  by inversion Hm.
Qed.

Lemma forEach_agrees {X Y} store (f : X → value) (g : Y → json) xs ys :
  Forall (λ y, walk_agrees store (g y)) ys →
  Forall2 (λ x y, represents store (f x) (g y)) xs ys →
  ∃ d, ∀ depth types, d ≤ depth →
    forEach (λ t x, traverse_graph depth store t (f x)) types xs
    = Some (foldl (λ t y, traverse t (g y)) types ys).
Proof.
  intros Hall Hrep. induction Hrep as [|x y xs ys Hxy _ IH]; simpl.
  - by exists 0.
  - apply Forall_cons in Hall as [Hy Hall].
    destruct (Hy _ Hxy) as [d1 H1]. destruct (IH Hall) as [d2 H2].
    exists (d1 `max` d2). intros depth types Hle.
    rewrite H1 by lia. apply H2. lia.
Qed.

Lemma traverse_graph_ref depth store types l :
  traverse_graph (S depth) store types (VRef l) =
  match store !! l with
  | Some (OArray items) => forEach (traverse_graph depth store) types items
  | Some (ORecord members) =>
      forEach (λ types kv, traverse_graph depth store types kv.2)
              (match vmember (lit "@type") members with
               | Some (VString (c :: ty)) => Set_add types (c :: ty)
               | _ => types
               end) members
  | None => Some types
  end.
Proof. reflexivity. Qed.

Lemma traverse_graph_agrees store j : walk_agrees store j.
Proof.
  induction j as [|b|x|s|items IH|members IH] using json_induction;
    intros v Hrep; inversion Hrep; subst;
    try (exists 1; intros [|depth] types Hle; [lia|done]).
  - destruct (forEach_agrees store id id vs items IH) as [d Hd]; [done|].
    exists (S d). intros [|depth] types Hle; [lia|].
    rewrite traverse_graph_ref, H0, traverse_array. apply (Hd depth types). lia.
  - destruct (forEach_agrees store snd snd kvs members IH) as [d Hd].
    { eapply Forall2_impl; [done|]. by intros ?? [_ ?]. }
    exists (S d). intros [|depth] types Hle; [lia|].
    rewrite traverse_graph_ref, H0, traverse_object.
    rewrite (represents_type_string store _ kvs members types) by done.
    apply Hd. lia.
Qed.

(** On the object that contains itself the walk never returns. *)
Lemma traverse_graph_cyclic depth types :
  traverse_graph depth cyclic_store types (VRef 0) = None.
Proof.
  revert types. induction depth as [|depth IH]; intros types; [done|].
  rewrite traverse_graph_ref.
  assert (cyclic_store !! 0 =
          Some (ORecord [(lit "@type", VString (lit "Thing")); (lit "self", VRef 0)]))
    as -> by apply lookup_singleton_eq.
  cbn [forEach snd]. destruct (traverse_graph depth cyclic_store _ (VString _)); [|done].
  by rewrite IH.
Qed.

(** ** URL helpers and the link extractor *)

Section LinkFacts.
Context `{Runtime}.

Lemma extractDomain_eq url : extractDomain url = Normal (link_domain url).
Proof.
  unfold extractDomain, link_domain, new_URL.
  by destruct (URL_new url None).
Qed.

Lemma normalizeUrl_eq url baseUrl :
  normalizeUrl url baseUrl = Normal (resolve_link baseUrl url).
Proof.
  unfold normalizeUrl, resolve_link, new_URL.
  destruct (URL_new baseUrl None) as [base|]; [|done]. simpl.
  by destruct (URL_new url (Some base)).
Qed.

Lemma for_of_Normal {A B} (f : B → A → completion B) (g : B → A → B) xs acc :
  (∀ acc x, f acc x = Normal (g acc x)) →
  for_of f xs acc = Normal (foldl g acc xs).
Proof.
  intros Hfg. revert acc. induction xs as [|x xs IH]; intros acc; simpl; [done|].
  rewrite Hfg. apply IH.
Qed.

Lemma add_link_eq baseUrl lists h :
  add_link baseUrl (link_domain baseUrl) lists h = Normal (add_link_pure baseUrl lists h).
Proof.
  unfold add_link, add_link_pure.
  destruct h as [[|c s]|]; simpl; try done.
  rewrite normalizeUrl_eq. simpl. rewrite extractDomain_eq. simpl.
  repeat case_decide; done.
Qed.

Lemma foldl_add_link_pure baseUrl hrefs lists :
  foldl (add_link_pure baseUrl) lists hrefs =
  (lists.1 ++ filter (λ n, link_domain n = link_domain baseUrl)
                     (resolve_link baseUrl <$> anchor_hrefs hrefs),
   lists.2 ++ filter (λ n, link_domain n ≠ link_domain baseUrl ∧ link_domain n ≠ [])
                     (resolve_link baseUrl <$> anchor_hrefs hrefs)).
Proof.
  revert lists. induction hrefs as [|h hrefs IH]; intros [i e]; simpl.
  - by rewrite !app_nil_r.
  - rewrite IH. unfold add_link_pure, anchor_hrefs. simpl.
    destruct h as [[|c s]|]; simpl; try done.
    rewrite !filter_cons.
    destruct (decide (link_domain (resolve_link baseUrl (c :: s)) = link_domain baseUrl))
      as [Heq|Hne]; simpl.
    + rewrite decide_False by (intros [? _]; done).
      by rewrite <- app_assoc.
    + destruct (decide (link_domain (resolve_link baseUrl (c :: s)) ≠ [])) as [Hd|Hd]; simpl.
      * rewrite decide_True by done. by rewrite <- app_assoc.
      * rewrite decide_False by (intros [_ ?]; done). done.
Qed.

Lemma extractLinks_eq ch page baseUrl hrefs :
  anchors_of ch page hrefs →
  extractLinks ch page baseUrl = Normal (spec_links baseUrl hrefs).
Proof.
  intros Hanchors. unfold extractLinks. rewrite extractDomain_eq. simpl.
  assert (take 200 (Set_new (foldl (add_link_pure baseUrl) ([], []) hrefs).1)
          = internal (spec_links baseUrl hrefs)
          ∧ take 200 (Set_new (foldl (add_link_pure baseUrl) ([], []) hrefs).2)
            = external (spec_links baseUrl hrefs)) as [Hint Hext].
  { by rewrite foldl_add_link_pure. }
  destruct ch as [ch|]; [|destruct page as [page|]; [|done]]; simpl in Hanchors.
  - destruct Hanchors as (els & -> & ->). simpl.
    rewrite (for_of_Normal _ (λ lists el, add_link_pure baseUrl lists (el_attr el (lit "href"))))
      by (intros; apply add_link_eq).
    simpl. rewrite <- (foldl_fmap (add_link_pure baseUrl)).
    by rewrite Hint, Hext.
  - destruct Hanchors as (links & -> & Hall). simpl.
    assert (∀ lists,
              for_of (λ lists link,
                        let* h := getAttribute link (lit "href") in
                        add_link baseUrl (link_domain baseUrl) lists h) links lists
              = Normal (foldl (add_link_pure baseUrl) lists hrefs)) as ->.
    { clear Hint Hext.
      induction Hall as [|link h links hrefs Hh _ IH]; intros lists; simpl; [done|].
      rewrite Hh. simpl. rewrite add_link_eq. simpl. apply IH. }
    simpl. by rewrite Hint, Hext.
Qed.

Lemma elem_of_anchor_hrefs (hrefs : list (option jsstring)) h :
  h ∈ anchor_hrefs hrefs ↔ Some h ∈ hrefs ∧ h ≠ [].
Proof.
  unfold anchor_hrefs. rewrite list_elem_of_omap. split.
  - intros ([[|c x]|] & Hin & Heq); simpl in Heq; simplify_eq. done.
  - intros [Hin Hne]. exists (Some h). split; [done|]. by destruct h.
Qed.

Lemma take_length_le {A} n (l : list A) : length (take n l) ≤ n.
Proof. rewrite length_take. lia. Qed.

Lemma elem_of_take_Set_new {A} `{EqDecision A} n (l : list A) x :
  x ∈ take n (Set_new l) → x ∈ l.
Proof. intros Hx. by apply elem_of_Set_new, (subseteq_take n). Qed.

End LinkFacts.

Section Extraction.
Context `{Runtime}.

(** C6, as the code has it. On either path, when the anchors of the page
    can be read, [extractLinks] returns the lists the specification words
    describe: every non-empty [href] is resolved against the base URL and
    loses its fragment; a resolved link is internal when its host name is
    the host name of the source URL, external when its host name differs
    and is not empty, and dropped when it has no host name; each list is
    free of duplicates and holds at most 200 links. *)
Theorem extractLinks_resolves_classifies_caps
    (ch : option CheerioAPI) (page : option Page) (baseUrl : jsstring)
    (hrefs : list (option jsstring)) :
  anchors_of ch page hrefs →
  ∃ links,
    extractLinks ch page baseUrl = Normal links
    ∧ links = spec_links baseUrl hrefs
    ∧ length (internal links) ≤ 200 ∧ length (external links) ≤ 200
    ∧ NoDup (internal links) ∧ NoDup (external links)
    ∧ (∀ n, n ∈ internal links →
         ∃ h, Some h ∈ hrefs ∧ h ≠ [] ∧ n = resolve_link baseUrl h
              ∧ link_domain n = link_domain baseUrl)
    ∧ (∀ n, n ∈ external links →
         ∃ h, Some h ∈ hrefs ∧ h ≠ [] ∧ n = resolve_link baseUrl h
              ∧ link_domain n ≠ link_domain baseUrl ∧ link_domain n ≠ [])
    ∧ (∀ h base resolved,
         URL_new baseUrl None = Some base → URL_new h (Some base) = Some resolved →
         resolve_link baseUrl h = URL_href (set_hash_empty resolved)
         ∧ fragment (set_hash_empty resolved) = None).
Proof.
  intros Hanchors. exists (spec_links baseUrl hrefs).
  split; [by apply extractLinks_eq|]. split; [done|].
  unfold spec_links. simpl.
  split; [apply take_length_le|]. split; [apply take_length_le|].
  split; [apply NoDup_take_Set_new|]. split; [apply NoDup_take_Set_new|].
  split; [|split].
  - intros n Hn%elem_of_take_Set_new.
    apply list_elem_of_filter in Hn as [Hdom Hn].
    apply list_elem_of_fmap in Hn as (h & -> & Hh).
    apply elem_of_anchor_hrefs in Hh as [Hin Hne]. by exists h.
  - intros n Hn%elem_of_take_Set_new.
    apply list_elem_of_filter in Hn as [[Hdom Hhost] Hn].
    apply list_elem_of_fmap in Hn as (h & -> & Hh).
    apply elem_of_anchor_hrefs in Hh as [Hin Hne]. by exists h.
  - intros h base resolved Hbase Hres. unfold resolve_link.
    by rewrite Hbase, Hres.
Qed.

(** C9. For every footer text and main text, contact extraction over the
    footer text, a space and the main text returns e-mail addresses free
    of duplicates and of at most 99 units each, and phone numbers free of
    duplicates and at most 20 in number; the document carries them when
    one of the two lists is not empty. *)
Theorem contacts_deduplicated_and_capped (footerText main_text : jsstring) :
  let text := footerText ++ lit " " ++ main_text in
  NoDup (extractEmails text)
  ∧ Forall (λ e, length e ≤ 99) (extractEmails text)
  ∧ NoDup (extractPhones text)
  ∧ length (extractPhones text) ≤ 20
  ∧ Harvester.contacts_of text =
      (if decide (extractEmails text = [] ∧ extractPhones text = []) then None
       else Some {| emails := extractEmails text; phones := extractPhones text |}).
Proof.
  intros text. split_and!.
  - apply NoDup_filter, NoDup_Set_new.
  - apply Forall_forall. intros e He. apply list_elem_of_filter in He as [Hlen _]. lia.
  - apply NoDup_take_Set_new.
  - apply take_length_le.
  - unfold Harvester.contacts_of.
    destruct (extractEmails text) as [|e es], (extractPhones text) as [|p ps]; simpl;
      repeat case_decide; try done; try (exfalso; naive_solver lia).
    all: exfalso; simpl in *; naive_solver lia.
Qed.

(** C10. URL normalization cannot throw: for every [href] and base,
    [normalizeUrl] returns a string, and it returns [href] itself when
    [href] does not parse against the base (or the base does not parse);
    [extractDomain] returns a string, the empty one for a URL that does
    not parse; so the Cheerio path of [extractLinks] returns its lists
    whatever the anchors hold. *)
Theorem normalizeUrl_extractDomain_never_throw
    (href baseUrl : jsstring) (ch : CheerioAPI) (els : list Element) :
  (∃ normalized, normalizeUrl href baseUrl = Normal normalized)
  ∧ ((∀ base, URL_new baseUrl None = Some base → URL_new href (Some base) = None) →
     normalizeUrl href baseUrl = Normal href)
  ∧ (∃ domain, extractDomain href = Normal domain)
  ∧ (URL_new href None = None → extractDomain href = Normal [])
  ∧ (select ch (css "a[href]") = Normal els →
     ∃ links, extractLinks (Some ch) None baseUrl = Normal links).
Proof.
  split_and!.
  - rewrite normalizeUrl_eq. by eexists.
  - intros Hfail. rewrite normalizeUrl_eq. unfold resolve_link.
    destruct (URL_new baseUrl None) as [base|] eqn:Hbase; [|done].
    by rewrite (Hfail base).
  - rewrite extractDomain_eq. by eexists.
  - intros Hfail. rewrite extractDomain_eq. unfold link_domain. by rewrite Hfail.
  - intros Hsel. eexists. apply extractLinks_eq. simpl. by eexists.
Qed.

End Extraction.

(** C9 on a footer and a main text that name the same address: the
    address is listed once. *)
Lemma contacts_of_a_footer :
  extractEmails (H := Example.runtime)
    (Example.contact_footer ++ lit " " ++ Example.contact_main_text)
  = [lit "info@acme.example"; lit "sales@acme.example"]
  ∧ extractPhones (H := Example.runtime)
      (Example.contact_footer ++ lit " " ++ Example.contact_main_text)
    = [lit "+46 8 123 456"]
  ∧ Harvester.contacts_of (H := Example.runtime)
      (Example.contact_footer ++ lit " " ++ Example.contact_main_text)
    = Some {| emails := [lit "info@acme.example"; lit "sales@acme.example"];
              phones := [lit "+46 8 123 456"] |}.
Proof.
  pose proof (contacts_deduplicated_and_capped (H := Example.runtime)
                Example.contact_footer Example.contact_main_text) as Hcontacts.
  cbv zeta in Hcontacts. destruct Hcontacts as (_ & _ & _ & _ & ->).
  split; [vm_compute; reflexivity|]. split; vm_compute; reflexivity.
Defined.

(** The scenario of C6, run: on [https://example.com/], two anchors
    [/about] and an anchor [https://other.example/x] give one internal and
    one external link. *)
Lemma extractLinks_scenario :
  extractLinks (H := Example.runtime) (Some Example.links_page) None Example.example_url
  = Normal {| internal := [lit "https://example.com/about"];
              external := [lit "https://other.example/x"];
              canonicalized := true |}.
Proof.
  destruct (extractLinks_resolves_classifies_caps (H := Example.runtime)
              (Some Example.links_page) None Example.example_url
              [Some (lit "/about"); Some (lit "/about"); Some (lit "https://other.example/x")])
    as (links & -> & -> & _).
  - simpl. eexists. split; [reflexivity|]. vm_compute. reflexivity.
  - vm_compute. reflexivity.
Defined.

(** C6 as stated fails: a link without a host name, such as a mail link,
    is not internal, and it is not listed as external either. *)
Lemma extractLinks_drops_hostless_links :
  extractLinks (H := Example.runtime) (Some Example.mailto_page) None Example.example_url
  = Normal {| internal := []; external := []; canonicalized := true |}
  ∧ spec_links_otherwise (H := Example.runtime) Example.example_url
      [Some (lit "mailto:info@example.com")]
    = {| internal := []; external := [lit "mailto:info@example.com"];
         canonicalized := true |}.
Proof. split; vm_compute; reflexivity. Qed.

(** C10 at an anchor that does not parse: [new URL('http://', base)]
    throws, the link is returned as it is, it has no domain, and link
    extraction goes on. *)
Lemma normalizeUrl_unparsable_href :
  normalizeUrl (H := Example.runtime) (lit "http://") Example.example_url
  = Normal (lit "http://")
  ∧ extractDomain (H := Example.runtime) (lit "http://") = Normal []
  ∧ ∃ links,
      extractLinks (H := Example.runtime)
        (Some (Example.static_page [(css "a[href]", [Example.anchor (lit "http://")])]))
        None Example.example_url = Normal links.
Proof.
  destruct (normalizeUrl_extractDomain_never_throw (H := Example.runtime)
              (lit "http://") Example.example_url
              (Example.static_page [(css "a[href]", [Example.anchor (lit "http://")])])
              [Example.anchor (lit "http://")])
    as (_ & Hsame & _ & Hdomain & Hlinks).
  split; [|split].
  - apply Hsame. intros base Hbase. vm_compute in Hbase.
    injection Hbase as <-. vm_compute. reflexivity.
  - apply Hdomain. vm_compute. reflexivity.
  - apply Hlinks. vm_compute. reflexivity.
Defined.

(** ** Field extraction is a function of the URL and the markup *)

Section Idempotence.
Context `{Runtime}.

Lemma bind_map {A B C} (c : completion A) (k : A → completion B) (f : B → C) :
  map_completion f (bind c k) = bind c (λ a, map_completion f (k a)).
Proof. by destruct c. Qed.

Lemma bind_ext {A B} (c : completion A) (k1 k2 : A → completion B) :
  (∀ a, k1 a = k2 a) → bind c k1 = bind c k2.
Proof. intros Hk. destruct c; simpl; [apply Hk|done]. Qed.

(** The fetch time and the response reach the fast path's document in
    three fields only. *)
Lemma build_http_doc_stamp url html ch response t :
  Harvester.build_http_doc url html ch response t =
  map_completion
    (λ d, with_fetched_at t
            (with_response (response ≫= statusCode) (response ≫= header_content_type) d))
    (Harvester.build_http_doc url html ch None []).
Proof.
  unfold Harvester.build_http_doc.
  repeat (rewrite bind_map; apply bind_ext; intros ?).
  reflexivity.
Qed.

Lemma build_js_doc_stamp url page response t :
  Harvester.build_js_doc url page response t =
  map_completion
    (λ d, with_fetched_at t
            (with_response (response ≫= statusCode) (response ≫= header_content_type) d))
    (Harvester.build_js_doc url page None []).
Proof.
  unfold Harvester.build_js_doc.
  repeat (rewrite bind_map; apply bind_ext; intros ?).
  reflexivity.
Qed.

(** The fingerprint of the fast path's document is the digest of the
    markup of the body. *)
Lemma build_http_doc_fingerprint url html ch response t d :
  Harvester.build_http_doc url html ch response t = Normal d →
  ∃ body, select ch (css "body") = Normal body
          ∧ ContentDoc.html_hash d = sha256 (default [] (selection_html body)).
Proof.
  unfold Harvester.build_http_doc. intros Hd.
  repeat match type of Hd with
         | bind ?c _ = Normal _ =>
             let E := fresh "E" in
             destruct c eqn:E; simpl in Hd; [|discriminate Hd]
         end.
  injection Hd as <-. eauto.
Qed.

(** Whatever the response and the clock, the extracted fields agree. *)
Lemma extracted_fields_ignore_response url ch response1 response2 t1 t2 :
  map_completion (λ d, with_fetched_at [] (with_response None None d))
    (Harvester.build_http_doc url (root_html ch) ch response1 t1)
  = map_completion (λ d, with_fetched_at [] (with_response None None d))
      (Harvester.build_http_doc url (root_html ch) ch response2 t2).
Proof.
  rewrite (build_http_doc_stamp _ _ _ response1), (build_http_doc_stamp _ _ _ response2).
  by destruct (Harvester.build_http_doc url (root_html ch) ch None []).
Qed.

(** C7, as the code has it. Building the fast path's document twice from
    the same URL and the same markup, at two times and from two
    responses, either throws the same exception twice or gives two
    documents with the same fingerprint, the digest of the markup of the
    body, that differ in the fetch time and in the two fields copied from
    the response, the status and the content type, only; when the two
    responses agree on these, the documents differ in the fetch time
    only. *)
Theorem field_extraction_idempotent
    (url : jsstring) (ch : CheerioAPI) (response1 response2 : option Response)
    (t1 t2 : jsstring) :
  match Harvester.build_http_doc url (root_html ch) ch response1 t1,
        Harvester.build_http_doc url (root_html ch) ch response2 t2 with
  | Normal d1, Normal d2 =>
      ContentDoc.html_hash d1 = ContentDoc.html_hash d2
      ∧ (∃ body, select ch (css "body") = Normal body
                 ∧ ContentDoc.html_hash d1 = sha256 (default [] (selection_html body)))
      ∧ with_fetched_at t2
          (with_response (response2 ≫= statusCode) (response2 ≫= header_content_type) d1)
        = d2
      ∧ (response1 ≫= statusCode = response2 ≫= statusCode →
         response1 ≫= header_content_type = response2 ≫= header_content_type →
         with_fetched_at t2 d1 = d2)
  | Throw e1, Throw e2 => e1 = e2
  | _, _ => False
  end.
Proof.
  pose proof (build_http_doc_fingerprint url (root_html ch) ch response1 t1) as Hfp.
  rewrite (build_http_doc_stamp _ _ _ response1 t1) in *.
  rewrite (build_http_doc_stamp _ _ _ response2 t2).
  destruct (Harvester.build_http_doc url (root_html ch) ch None []) as [d|e]; simpl in *;
    [|done].
  split; [done|]. split; [|split; [done|]].
  - destruct (Hfp _ eq_refl) as (body & Hbody & Hhash). eauto.
  - by intros -> ->.
Qed.

End Idempotence.

(** C7 on the page of the accept scenario, built at two times: the two
    documents differ in the fetch time only, and their fingerprint is the
    SHA-256 digest of the markup of the body. *)
Lemma acme_page_built_twice :
  ∃ doc,
    Harvester.build_http_doc (H := Example.runtime) Example.example_url
      (root_html Example.acme_page) Example.acme_page None Example.timestamp
    = Normal doc
    ∧ Harvester.build_http_doc (H := Example.runtime) Example.example_url
        (root_html Example.acme_page) Example.acme_page None Example.later_timestamp
      = Normal (with_fetched_at Example.later_timestamp doc)
    ∧ ContentDoc.html_hash doc
      = lit "6048056f0b4452fca45ee0d047de1c5af3cc5d93c5668ed0f774565785bb710a".
Proof.
  pose proof (field_extraction_idempotent (H := Example.runtime) Example.example_url
                Example.acme_page None None Example.timestamp Example.later_timestamp)
    as Hidem.
  assert (map_completion ContentDoc.html_hash
            (Harvester.build_http_doc (H := Example.runtime) Example.example_url
               (root_html Example.acme_page) Example.acme_page None Example.timestamp)
          = Normal (lit "6048056f0b4452fca45ee0d047de1c5af3cc5d93c5668ed0f774565785bb710a"))
    as Hhash by (vm_compute; reflexivity).
  destruct (Harvester.build_http_doc (H := Example.runtime) Example.example_url
              (root_html Example.acme_page) Example.acme_page None Example.timestamp)
    as [doc|e] eqn:Hdoc; [|discriminate Hhash].
  destruct (Harvester.build_http_doc (H := Example.runtime) Example.example_url
              (root_html Example.acme_page) Example.acme_page None
              Example.later_timestamp) as [doc'|e]; [|destruct Hidem].
  destruct Hidem as (_ & _ & _ & Hsame). rewrite <- (Hsame eq_refl eq_refl).
  injection Hhash as Hhash.
  exists doc. split; [reflexivity|]. split; [reflexivity|exact Hhash].
Defined.

(** C7 as stated fails: the page of the accept scenario, served twice with
    the same markup under the same URL, once as [text/html; charset=utf-8]
    and once as [text/html], gives two documents with the same fingerprint
    whose content types differ. *)
Lemma same_markup_other_content_type :
  let first := Some {| statusCode := Some 200;
                       header_content_type := Some (lit "text/html; charset=utf-8") |} in
  let second := Some {| statusCode := Some 200;
                        header_content_type := Some (lit "text/html") |} in
  ∃ d1 d2,
    Harvester.build_http_doc (H := Example.runtime) Example.example_url
      (root_html Example.acme_page) Example.acme_page first Example.timestamp = Normal d1
    ∧ Harvester.build_http_doc (H := Example.runtime) Example.example_url
        (root_html Example.acme_page) Example.acme_page second Example.timestamp = Normal d2
    ∧ ContentDoc.html_hash d1 = ContentDoc.html_hash d2
    ∧ ContentDoc.fetched_at d1 = ContentDoc.fetched_at d2
    ∧ ContentDoc.content_type d1 ≠ ContentDoc.content_type d2.
Proof.
  intros first second.
  rewrite (build_http_doc_stamp (H := Example.runtime) _ _ _ first),
    (build_http_doc_stamp (H := Example.runtime) _ _ _ second).
  assert (map_completion (λ _, ())
            (Harvester.build_http_doc (H := Example.runtime) Example.example_url
               (root_html Example.acme_page) Example.acme_page None [])
          = Normal ()) as Hbuilt by (vm_compute; reflexivity).
  destruct (Harvester.build_http_doc _ _ _ _ _) as [d|e]; [|discriminate Hbuilt].
  simpl. do 2 eexists. split; [reflexivity|]. split; [reflexivity|].
  split; [reflexivity|]. split; [reflexivity|]. simpl. discriminate.
Qed.

(** ** The crawl engine *)

Lemma foldl_invariant {S A} (P : S → Prop) (f : S → A → S) (xs : list A) st :
  P st → (∀ st x, x ∈ xs → P st → P (f st x)) → P (foldl f st xs).
Proof.
  revert st. induction xs as [|x xs IH]; intros st Hst Hstep; simpl; [done|].
  apply IH.
  - apply Hstep; [apply list_elem_of_here|done].
  - intros st' y Hy. apply Hstep. by apply list_elem_of_further.
Qed.

Lemma crawl_state {S} m (handle : S → Request → S) q st :
  (crawl m handle q st).2 = foldl handle st (take (m - handledCount q) (pending q)).
Proof. reflexivity. Qed.

Lemma crawl_requests {S} m (handle : S → Request → S) q st :
  requests (crawl m handle q st).1 = requests q.
Proof. reflexivity. Qed.

(** ** The hybrid crawler's counters *)

Module HybridFacts.
Import Hybrid.

Lemma cheerio_requestHandler_outcome st url ch t :
  outcome st url (cheerio_requestHandler st url ch t).
Proof.
  unfold cheerio_requestHandler, extractServiceTitle, extractProvider,
    extractPriceText, extract_with.
  destruct (select ch serviceTitleSelector) as [title|e]; simpl;
    [|eapply threw; reflexivity].
  destruct (select ch providerSelector) as [prov|e]; simpl;
    [|eapply threw; reflexivity].
  destruct (select ch priceTextSelector) as [price|e]; simpl;
    [|eapply threw; reflexivity].
  destruct (hasCriticalFields _); simpl.
  - apply accepted; reflexivity.
  - apply deferred; simpl; by case_decide.
Qed.

(** An exception is possible only when a query of the page throws. *)
Lemma extract_with_cheerio_Normal selector accept ch els :
  select ch selector = Normal els →
  extract_with selector accept (Some ch) None = Normal (first_text accept els).
Proof. intros Hsel. unfold extract_with. by rewrite Hsel. Qed.

(** On the Playwright path the extractors swallow their exceptions. *)
Lemma extract_with_page_Normal selector accept page :
  ∃ v, extract_with selector accept None (Some page) = Normal v.
Proof.
  unfold extract_with, try_catch.
  destruct (bind _ _); by eexists.
Qed.

Section FastPass.
Variable w : World.

Lemma cheerio_step_le st request :
  http_ok (stats st) + fallback_enqueued (stats st) ≤ seen (stats st) →
  http_ok (stats (cheerio_step w st request))
  + fallback_enqueued (stats (cheerio_step w st request))
  ≤ seen (stats (cheerio_step w st request)).
Proof.
  intros Hle. unfold cheerio_step.
  destruct (fetch w (request_url request)) as [[response ch]|]; [|done].
  destruct (cheerio_requestHandler_outcome st (request_url request) ch (now w request))
    as [-> _ _| -> _ _|e -> _ _ _]; simpl; lia.
Qed.

(** At the barrier the two outcome counters never exceed [seen]. *)
Lemma fast_pass_counters_le config :
  let st := (fast_pass w config).2 in
  http_ok (stats st) + fallback_enqueued (stats st) ≤ seen (stats st).
Proof.
  unfold fast_pass. rewrite crawl_state.
  apply (foldl_invariant
           (λ st, http_ok (stats st) + fallback_enqueued (stats st) ≤ seen (stats st))).
  - simpl. lia.
  - intros st r _. apply cheerio_step_le.
Qed.

End FastPass.
Section Rate.
Variable w : World.
Variable config : Config.

Lemma logStats_stats st : stats (logStats st) = stats st.
Proof. unfold logStats. by case_decide. Qed.

Lemma compute_js_rate_eq s :
  compute_js_rate s = rendered_rate (js_processed s) (http_ok s).
Proof.
  unfold compute_js_rate, rendered_rate.
  repeat case_decide; try done; lia.
Qed.

End Rate.

End HybridFacts.

(** C5. After [run], whatever the start URLs and the web, the rate held by
    the stats is the rate of the counters as both phases left them:
    [Math.round(js_processed / (http_ok + js_processed) * 100)] when the
    denominator is positive, and 0 when it is 0. *)
Theorem js_rate_is_rendered_rate (w : World) (config : Hybrid.Config) :
  let s := Hybrid.getStats w config in
  Hybrid.js_rate s = rendered_rate (Hybrid.js_processed s) (Hybrid.http_ok s)
  ∧ (Hybrid.http_ok s + Hybrid.js_processed s = 0 → Hybrid.js_rate s = 0%Z)
  ∧ (0 < Hybrid.http_ok s + Hybrid.js_processed s →
     Hybrid.js_rate s
     = Math_round (to_number (Hybrid.js_processed s)
                   / to_number (Hybrid.http_ok s + Hybrid.js_processed s) * 100)%float).
Proof.
  intros s.
  assert (Hybrid.js_rate s = rendered_rate (Hybrid.js_processed s) (Hybrid.http_ok s))
    as Hrate.
  { subst s. unfold Hybrid.getStats, Hybrid.run.
    destruct (Hybrid.fast_pass w config) as [q st].
    destruct (decide _) as [?|?];
      destruct (crawl _ _ _ _) as [q' st']; simpl;
      rewrite HybridFacts.logStats_stats; simpl;
      apply HybridFacts.compute_js_rate_eq. }
  split; [exact Hrate|]. rewrite Hrate. unfold rendered_rate.
  split; intros Hd; case_decide; try done; lia.
Qed.

(** C5 at a run of three URLs, one accepted by the fast pass and two
    rendered: the rate is 67. *)
Lemma js_rate_two_of_three :
  Hybrid.js_rate
    (Hybrid.getStats Example.mixed_world
       {| Hybrid.startUrls := take 3 Example.eleven_urls;
          Hybrid.maxRequestsPerCrawl := None |}) = 67%Z.
Proof.
  destruct (js_rate_is_rendered_rate Example.mixed_world
              {| Hybrid.startUrls := take 3 Example.eleven_urls;
                 Hybrid.maxRequestsPerCrawl := None |}) as (_ & _ & ->).
  - vm_compute. reflexivity.
  - vm_compute. lia.
Defined.

(** C1, at the input on which the code breaks it. One start URL whose
    page makes a query throw inside the [try] of the fast pass: at the
    barrier [seen] is 1 while [http_ok + fallback_enqueued] is 0, no URL is
    on the fallback list, and the validation of [run] prints its
    mismatch warning. *)
Theorem fast_pass_mismatch_after_exception :
  let w := Example.uniform_world Example.failing_page Example.blank_rendered in
  let config := {| Hybrid.startUrls := [Example.example_url];
                   Hybrid.maxRequestsPerCrawl := None |} in
  let st := (Hybrid.fast_pass w config).2 in
  Hybrid.seen (Hybrid.stats st) = 1
  ∧ Hybrid.http_ok (Hybrid.stats st) + Hybrid.fallback_enqueued (Hybrid.stats st) = 0
  ∧ Hybrid.fallbackUrls st = []
  ∧ last (Hybrid.console (Hybrid.validate_stats st))
    = Some (console_warn
              (lit "[Warning] Stats mismatch: seen=1, http_ok + fallback_enqueued=0")).
Proof. vm_compute. repeat split; reflexivity. Qed.

(** C2, at the input on which the code breaks it. In the hybrid crawler
    an exception thrown while the probe is built is caught and logged, but
    the URL is not treated as a defer: [fallback_enqueued] stays as it
    was and the URL is not put on the fallback list. *)
Theorem hybrid_exception_is_not_deferred :
  let st := Hybrid.cheerio_requestHandler Hybrid.initial Example.example_url
              Example.failing_page Example.timestamp in
  Hybrid.seen (Hybrid.stats st) = 1
  ∧ Hybrid.fallback_enqueued (Hybrid.stats st) = 0
  ∧ Hybrid.fallbackUrls st = []
  ∧ Hybrid.dataset st = []
  ∧ Hybrid.console st
    = [console_error (lit "[Cheerio] Error processing https://example.com/:")
                     (lit "Error: query failed")].
Proof. vm_compute. repeat split; reflexivity. Qed.


(** ** The request queue *)

Section QueueFacts.
Variable w : World.


Lemma foldl_addRequest_seeds urls seen q :
  seeds_only w seen q →
  seeds_only w (seen ++ urls) (foldl (λ q url, addRequest w q url None None) q urls).
Proof.
  revert seen q. induction urls as [|url urls IH]; intros seen q (Hh & Hlen & Hall); simpl.
  - by rewrite app_nil_r.
  - replace (seen ++ url :: urls) with ((seen ++ [url]) ++ urls)
      by (by rewrite <- app_assoc).
    apply IH. unfold addRequest, seeds_only. rewrite length_app. simpl.
    case_decide; simpl.
    + split_and!; [done|lia|]. intros r Hr. destruct (Hall r Hr) as (? & ? & ?).
      split_and!; [|done..]. apply elem_of_app. by left.
    + split_and!; [done|rewrite length_app; simpl; lia|].
      intros r [Hr|Hr]%elem_of_app.
      * destruct (Hall r Hr) as (? & ? & ?).
        split_and!; [|done..]. apply elem_of_app. by left.
      * apply list_elem_of_singleton in Hr as ->. simpl.
        split_and!; [|done..]. apply elem_of_app. right. apply list_elem_of_here.
Qed.

Lemma seed_queue_spec urls : seeds_only w urls (seed_queue w urls).
Proof.
  apply (foldl_addRequest_seeds urls []).
  split_and!; simpl; [done|lia|]. intros r Hr. by apply elem_of_nil in Hr.
Qed.



End QueueFacts.

(** ** The content harvester's handlers *)

Module HarvesterFacts.
Import Harvester.

Section Handlers.
Context `{Runtime}.

(** The fast path's handler, by what building the document gives. *)
Lemma cheerio_requestHandler_cases st url ch response t :
  cheerio_requestHandler st url ch response t =
  match build_http_doc url (root_html ch) ch response t with
  | Normal doc =>
      if critical_missing doc
      then {| fallbackUrls := fallbackUrls st ++ [url];
              dataset := dataset st; console := console st |}
      else {| fallbackUrls := fallbackUrls st;
              dataset := dataset st ++ [doc];
              console := console st ++ [harvested (lit "[HTTP]") url] |}
  | Throw error =>
      {| fallbackUrls := fallbackUrls st ++ [url];
         dataset := dataset st;
         console := console st
                    ++ [console_error (lit "[HTTP] Error harvesting " ++ url ++ lit ":")
                                      error] |}
  end.
Proof.
  unfold cheerio_requestHandler.
  destruct (build_http_doc url (root_html ch) ch response t) as [doc|e]; simpl; [|done].
  by destruct (critical_missing doc).
Qed.

(** The fallback path's handler, likewise. *)
Lemma playwright_requestHandler_cases st request page response t :
  needsJs request = true →
  playwright_requestHandler st request page response t =
  match build_js_doc (request_url request) page response t with
  | Normal doc =>
      {| fallbackUrls := fallbackUrls st;
         dataset := dataset st ++ [doc];
         console := console st ++ [harvested (lit "[JS]") (request_url request)] |}
  | Throw error =>
      {| fallbackUrls := fallbackUrls st;
         dataset := dataset st;
         console := console st
                    ++ [console_error (lit "[JS] Error harvesting " ++ request_url request
                                       ++ lit ":") error] |}
  end.
Proof.
  intros Hjs. unfold playwright_requestHandler. rewrite Hjs. simpl.
  by destruct (build_js_doc (request_url request) page response t).
Qed.

Lemma build_http_doc_url url html ch response t d :
  build_http_doc url html ch response t = Normal d →
  ContentDoc.url d = url ∧ ContentDoc.render_mode d = http.
Proof.
  rewrite build_http_doc_stamp. unfold build_http_doc.
  intros Hd.
  repeat match type of Hd with
         | map_completion _ (bind ?c _) = Normal _ =>
             let E := fresh "E" in
             destruct c eqn:E; simpl in Hd; [|discriminate Hd]
         end.
  by injection Hd as <-.
Qed.

Lemma build_js_doc_url url page response t d :
  build_js_doc url page response t = Normal d →
  ContentDoc.url d = url ∧ ContentDoc.render_mode d = js.
Proof.
  rewrite build_js_doc_stamp. unfold build_js_doc.
  intros Hd.
  repeat match type of Hd with
         | map_completion _ (bind ?c _) = Normal _ =>
             let E := fresh "E" in
             destruct c eqn:E; simpl in Hd; [|discriminate Hd]
         end.
  by injection Hd as <-.
Qed.

End Handlers.
Section Run.
Context `{Runtime}.
Variable w : World.

(** Whether a request is deferred depends on its URL only. *)
Lemma defers_same_url r r' :
  request_url r = request_url r' → defers w r → defers w r'.
Proof.
  unfold defers, fast_result. intros <-.
  destruct (fetch w (request_url r)) as [[response ch]|]; [|done].
  rewrite (build_http_doc_stamp _ _ _ _ (now w r)),
          (build_http_doc_stamp _ _ _ _ (now w r')).
  by destruct (build_http_doc _ _ _ None []).
Qed.







End Run.
End HarvesterFacts.




(** The fallback handlers check no field before they store. For a request
    that carries the needs-render marker, the fallback handler of the
    content harvester stores the document it built, with render mode [js],
    when building it returns; when building it throws, the exception is
    logged and nothing is stored. The fallback handler of the hybrid
    crawler increments [js_processed] and stores one record of the URL. *)
Theorem fallback_handler_persists_unless_exception `{Runtime}
    (st : Harvester.State) (hst : Hybrid.State) (request : Request) (page : Page)
    (response : option Response) (t : jsstring) :
  needsJs request = true →
  match Harvester.build_js_doc (request_url request) page response t with
  | Normal doc =>
      Harvester.playwright_requestHandler st request page response t
      = {| Harvester.fallbackUrls := Harvester.fallbackUrls st;
           Harvester.dataset := Harvester.dataset st ++ [doc];
           Harvester.console :=
             Harvester.console st
             ++ [Harvester.harvested (lit "[JS]") (request_url request)] |}
      ∧ ContentDoc.render_mode doc = js
      ∧ ContentDoc.url doc = request_url request
  | Throw error =>
      Harvester.playwright_requestHandler st request page response t
      = {| Harvester.fallbackUrls := Harvester.fallbackUrls st;
           Harvester.dataset := Harvester.dataset st;
           Harvester.console :=
             Harvester.console st
             ++ [console_error (lit "[JS] Error harvesting " ++ request_url request
                                ++ lit ":") error] |}
  end
  ∧ (let hst' := Hybrid.playwright_requestHandler hst request page t in
     Hybrid.js_processed (Hybrid.stats hst') = Hybrid.js_processed (Hybrid.stats hst) + 1
     ∧ ∃ data, Hybrid.dataset hst' = Hybrid.dataset hst ++ [data]
               ∧ Hybrid.cd_url data = request_url request).
Proof.
  intros Hjs. split.
  - rewrite HarvesterFacts.playwright_requestHandler_cases by done.
    destruct (Harvester.build_js_doc _ _ _ _) as [doc|e] eqn:Hdoc; [|done].
    by apply HarvesterFacts.build_js_doc_url in Hdoc as [? ?].
  - unfold Hybrid.playwright_requestHandler. rewrite Hjs.
    unfold Hybrid.extractServiceTitle, Hybrid.extractProvider, Hybrid.extractPriceText.
    destruct (HybridFacts.extract_with_page_Normal
                Hybrid.serviceTitleSelector Hybrid.short_text page) as [v1 ->].
    destruct (HybridFacts.extract_with_page_Normal
                Hybrid.providerSelector Hybrid.short_text page) as [v2 ->].
    destruct (HybridFacts.extract_with_page_Normal
                Hybrid.priceTextSelector Hybrid.priced_text page) as [v3 ->].
    simpl. split; [done|]. by eexists.
Qed.

(** At a rendered page with no title and no text, which has the elements
    the metadata locators wait for, the document is stored although its
    critical fields are missing. *)
Lemma fallback_stores_incomplete_document :
  ∃ doc,
    Harvester.dataset
      (Harvester.playwright_requestHandler (H := Example.runtime) Harvester.initial
         (fallback_request Example.example_url) Sample.bare_rendered None
         Example.timestamp) = [doc]
    ∧ ContentDoc.render_mode doc = js
    ∧ Harvester.critical_missing doc = true.
Proof.
  pose proof (fallback_handler_persists_unless_exception (H := Example.runtime)
                Harvester.initial Hybrid.initial (fallback_request Example.example_url)
                Sample.bare_rendered None Example.timestamp eq_refl) as [Hdoc _].
  assert (map_completion Harvester.critical_missing
            (Harvester.build_js_doc (H := Example.runtime) Example.example_url
               Sample.bare_rendered None Example.timestamp)
          = Normal true) as Hmissing by (vm_compute; reflexivity).
  change (request_url (fallback_request Example.example_url)) with Example.example_url in Hdoc.
  destruct (Harvester.build_js_doc _ _ _ _) as [doc|e]; [|discriminate Hmissing].
  destruct Hdoc as (-> & Hmode & _). injection Hmissing as Hmissing.
  exists doc. split; [reflexivity|]. split; [exact Hmode|exact Hmissing].
Defined.

(** C4 fails on the code. The fallback handler of the content harvester
    gets the request of a deferred URL, marked [needsJs], whose rendered
    page is a blank document. [extractMetadata] finds no title and waits
    for the Open Graph title, which is not there: [locator.getAttribute]
    times out, the handler logs the exception and stores nothing. On the
    same document the fast path reads [undefined] for the missing element
    and goes on. *)
Lemma fallback_exception_stores_nothing :
  let request := fallback_request Example.example_url in
  let st := Harvester.playwright_requestHandler (H := Example.runtime) Harvester.initial
              request Example.blank_rendered None Example.timestamp in
  needsJs request = true
  ∧ Harvester.dataset st = []
  ∧ Harvester.console st
    = [console_error (lit "[JS] Error harvesting https://example.com/:")
         (lit "TimeoutError: locator.getAttribute: Timeout 30000ms exceeded.")]
  ∧ map_completion md_title (extractMetadata (Some Example.blank_page) None) = Normal None.
Proof. vm_compute. repeat split; reflexivity. Qed.

(** The part of C2 that the code keeps: in the content harvester an
    exception thrown while the document is built is caught and logged, the
    URL is put on the fallback list and nothing is stored. *)
Lemma harvester_exception_is_deferred `{Runtime}
    (st : Harvester.State) (url : jsstring) (ch : CheerioAPI)
    (response : option Response) (t error : jsstring) :
  Harvester.build_http_doc url (root_html ch) ch response t = Throw error →
  Harvester.cheerio_requestHandler st url ch response t
  = {| Harvester.fallbackUrls := Harvester.fallbackUrls st ++ [url];
       Harvester.dataset := Harvester.dataset st;
       Harvester.console :=
         Harvester.console st
         ++ [console_error (lit "[HTTP] Error harvesting " ++ url ++ lit ":") error] |}.
Proof.
  intros Hthrow. by rewrite HarvesterFacts.cheerio_requestHandler_cases, Hthrow.
Qed.

Lemma harvester_exception_example :
  Harvester.cheerio_requestHandler (H := Example.runtime) Harvester.initial
    Example.example_url Example.failing_page None Example.timestamp
  = {| Harvester.fallbackUrls := [Example.example_url];
       Harvester.dataset := [];
       Harvester.console :=
         [console_error (lit "[HTTP] Error harvesting " ++ Example.example_url ++ lit ":")
                        (lit "Error: query failed")] |}.
Proof.
  apply (harvester_exception_is_deferred (H := Example.runtime) Harvester.initial).
  vm_compute. reflexivity.
Defined.

(** C8, as the code has it. The schema-type derivation is a plain
    recursive descent, with no visited set and no depth limit. On the
    values [JSON.parse] returns, which are trees, it returns a list
    without duplicates that holds exactly the non-empty strings found
    under an ["@type"] key of an object anywhere inside the values; and
    the walk over a store of objects returns the same list for values
    that are such trees, at every depth bound above their height. *)
Theorem extractSchemaTypes_collects_types (jsonld : list json) :
  NoDup (extractSchemaTypes jsonld)
  ∧ (∀ ty, ty ∈ extractSchemaTypes jsonld ↔ ∃ j, j ∈ jsonld ∧ has_type ty j)
  ∧ (∀ store vs,
       Forall2 (represents store) vs jsonld →
       ∃ d, ∀ depth, d ≤ depth →
         extractSchemaTypes_graph depth store vs = Some (extractSchemaTypes jsonld)).
Proof.
  destruct (extractSchemaTypes_spec jsonld) as [Hnd Hmem].
  split; [exact Hnd|]. split; [exact Hmem|].
  intros store vs Hrep.
  destruct (forEach_agrees store id id vs jsonld) as [d Hd]; [|done|].
  - apply Forall_forall. intros j _. apply traverse_graph_agrees.
  - exists d. intros depth Hle. apply (Hd depth [] Hle).
Qed.

(** C8 at the scenario of the specification: one valid block
    [{"@type":"Organization"}] gives the schema types [["Organization"]],
    on the tree and on the store alike. *)
Lemma extractSchemaTypes_organization :
  extractSchemaTypes [JObject [(lit "@type", JString (lit "Organization"))]]
  = [lit "Organization"]
  ∧ ∃ d, ∀ depth, d ≤ depth →
      extractSchemaTypes_graph depth organization_store [VRef 0]
      = Some [lit "Organization"].
Proof.
  split; [vm_compute; reflexivity|].
  destruct (extractSchemaTypes_collects_types
              [JObject [(lit "@type", JString (lit "Organization"))]])
    as (_ & _ & Hgraph).
  destruct (Hgraph organization_store [VRef 0]) as [d Hd].
  - constructor; [|constructor].
    eapply rep_object; [apply lookup_singleton_eq|].
    constructor; [|constructor]. split; [reflexivity|constructor].
  - exists d. intros depth Hle. rewrite (Hd depth Hle). vm_compute. reflexivity.
Defined.

(** C8 as stated fails. Nothing guards the descent against cycles: on an
    object that is its own member the walk reaches every depth bound and
    never returns. And a ["@type"] whose value is the empty string is not
    collected. *)
Lemma extractSchemaTypes_not_cycle_safe :
  (∀ depth, extractSchemaTypes_graph depth cyclic_store [VRef 0] = None)
  ∧ extractSchemaTypes [JObject [(lit "@type", JString [])]] = [].
Proof.
  split; [|vm_compute; reflexivity].
  intros depth. unfold extractSchemaTypes_graph. simpl.
  by rewrite traverse_graph_cyclic.
Qed.

(** ** Structured data *)

(** The fast path's JSON-LD list holds, in document order, the parsed
    value of every script that parses and whose serialization has at most
    150000 units; a script that does not parse is skipped. *)
Lemma extractJsonLd_skips_invalid `{Runtime} (ch : CheerioAPI) (els : list Element) :
  select ch (css "script[type='application/ld+json']") = Normal els →
  extractJsonLd (Some ch) None = Normal (omap (λ el, script_value (el_text el)) els).
Proof.
  intros Hels. unfold extractJsonLd. rewrite Hels. simpl. f_equal.
  rewrite <- (app_nil_l (omap _ els)). generalize (@nil json). clear Hels.
  induction els as [|el els IH]; intros acc; simpl.
  - by rewrite app_nil_r.
  - rewrite IH. unfold parse_jsonld, script_value.
    destruct (JSON_parse (el_text el)) as [parsed|]; simpl; [|done].
    case_decide; simpl; [|done]. by rewrite <- app_assoc.
Qed.

(** The JSON-LD scenario of the specification: next to a script that does
    not parse, one script [{"@type":"Organization"}] gives a list of one
    parsed object and the schema types [["Organization"]]. *)
Lemma jsonld_scenario :
  extractJsonLd (H := Example.runtime) (Some Example.jsonld_page) None
  = Normal [JObject [(lit "@type", JString (lit "Organization"))]]
  ∧ (let* jsonld := extractJsonLd (H := Example.runtime) (Some Example.jsonld_page) None in
     Normal (extractSchemaTypes jsonld))
    = Normal [lit "Organization"].
Proof.
  rewrite (extractJsonLd_skips_invalid (H := Example.runtime) Example.jsonld_page
             [Example.element (Example.json_text "{'@type': 'Product', ");
              Example.element (Example.json_text "{'@type':'Organization'}")])
    by (vm_compute; reflexivity).
  split; vm_compute; reflexivity.
Defined.

(** ** Further properties of the two crawlers *)

(** At the barrier of the hybrid crawler the two outcome counters never
    exceed [seen], whatever the pages did. *)
Lemma hybrid_counters_never_exceed_seen (w : World) (config : Hybrid.Config) :
  let st := (Hybrid.fast_pass w config).2 in
  Hybrid.http_ok (Hybrid.stats st) + Hybrid.fallback_enqueued (Hybrid.stats st)
  ≤ Hybrid.seen (Hybrid.stats st).
Proof. apply HybridFacts.fast_pass_counters_le. Qed.

(** When no query of a fetched page throws, the counters of the hybrid
    crawler do add up at the barrier, and the validation of [run] prints
    no warning. *)
Lemma hybrid_counters_add_up_without_exception (w : World) (config : Hybrid.Config) :
  (∀ url response ch selector,
     fetch w url = Some (response, ch) → ∃ els, select ch selector = Normal els) →
  let st := (Hybrid.fast_pass w config).2 in
  Hybrid.http_ok (Hybrid.stats st) + Hybrid.fallback_enqueued (Hybrid.stats st)
  = Hybrid.seen (Hybrid.stats st)
  ∧ Hybrid.validate_stats st = st.
Proof.
  intros Hpages st.
  assert (Hybrid.http_ok (Hybrid.stats st) + Hybrid.fallback_enqueued (Hybrid.stats st)
          = Hybrid.seen (Hybrid.stats st)) as Heq.
  { subst st. unfold Hybrid.fast_pass. rewrite crawl_state.
    apply (foldl_invariant
             (λ st, Hybrid.http_ok (Hybrid.stats st)
                    + Hybrid.fallback_enqueued (Hybrid.stats st)
                    = Hybrid.seen (Hybrid.stats st))); [done|].
    intros st r _ Hst. unfold Hybrid.cheerio_step.
    destruct (fetch w (request_url r)) as [[response ch]|] eqn:Hfetch; [|done].
    unfold Hybrid.cheerio_requestHandler, Hybrid.extractServiceTitle,
      Hybrid.extractProvider, Hybrid.extractPriceText, Hybrid.extract_with.
    destruct (Hpages _ _ _ Hybrid.serviceTitleSelector Hfetch) as [e1 ->].
    destruct (Hpages _ _ _ Hybrid.providerSelector Hfetch) as [e2 ->].
    destruct (Hpages _ _ _ Hybrid.priceTextSelector Hfetch) as [e3 ->].
    simpl. destruct (Hybrid.hasCriticalFields _); simpl; [lia|].
    case_decide; simpl; lia. }
  split; [exact Heq|]. unfold Hybrid.validate_stats. by rewrite decide_False by lia.
Qed.

(** Three URLs, one accepted and two deferred: 1 + 2 = 3. *)
Lemma hybrid_counters_add_up_example :
  let st := (Hybrid.fast_pass Example.mixed_world
               {| Hybrid.startUrls := take 3 Example.eleven_urls;
                  Hybrid.maxRequestsPerCrawl := None |}).2 in
  Hybrid.http_ok (Hybrid.stats st) + Hybrid.fallback_enqueued (Hybrid.stats st)
  = Hybrid.seen (Hybrid.stats st)
  ∧ Hybrid.validate_stats st = st.
Proof.
  apply (hybrid_counters_add_up_without_exception Example.mixed_world).
  intros url response ch selector Hfetch. simpl in Hfetch.
  injection Hfetch as _ <-. case_decide; by eexists.
Defined.

(** Whatever [extractLinks] returns, on either path, holds at most 200
    internal and 200 external links, none twice. *)
Lemma extractLinks_capped `{Runtime} ch page baseUrl links :
  extractLinks ch page baseUrl = Normal links →
  length (internal links) ≤ 200 ∧ length (external links) ≤ 200
  ∧ NoDup (internal links) ∧ NoDup (external links).
Proof.
  unfold extractLinks. rewrite extractDomain_eq. simpl.
  destruct ch as [ch|]; [|destruct page as [page|]].
  - destruct (select ch _); simpl; [|done]. destruct (for_of _ _ _); simpl; [|done].
    intros [= <-]. simpl.
    split_and!; auto using take_length_le, NoDup_take_Set_new.
  - destruct (locator_all page _); simpl; [|done]. destruct (for_of _ _ _); simpl; [|done].
    intros [= <-]. simpl.
    split_and!; auto using take_length_le, NoDup_take_Set_new.
  - intros [= <-]. simpl. split_and!; [lia|lia|constructor|constructor].
Qed.

(** Every document a pipeline builds carries the render mode of that
    pipeline and link lists of at most 200 entries each. *)
Lemma documents_carry_mode_and_capped_links `{Runtime}
    (url : jsstring) (ch : CheerioAPI) (page : Page) (response : option Response)
    (t : jsstring) :
  (∀ doc, Harvester.build_http_doc url (root_html ch) ch response t = Normal doc →
          ContentDoc.render_mode doc = http
          ∧ length (internal (ContentDoc.links doc)) ≤ 200
          ∧ length (external (ContentDoc.links doc)) ≤ 200)
  ∧ (∀ doc, Harvester.build_js_doc url page response t = Normal doc →
            ContentDoc.render_mode doc = js
            ∧ length (internal (ContentDoc.links doc)) ≤ 200
            ∧ length (external (ContentDoc.links doc)) ≤ 200).
Proof.
  split; intros doc Hdoc.
  - unfold Harvester.build_http_doc in Hdoc.
    repeat match type of Hdoc with
           | bind ?c _ = Normal _ =>
               let E := fresh "E" in
               destruct c eqn:E; simpl in Hdoc; [|discriminate Hdoc]
           end.
    injection Hdoc as <-. simpl. split; [done|].
    match goal with E : extractLinks _ _ _ = Normal _ |- _ =>
      apply extractLinks_capped in E as (? & ? & _) end. done.
  - unfold Harvester.build_js_doc in Hdoc.
    repeat match type of Hdoc with
           | bind ?c _ = Normal _ =>
               let E := fresh "E" in
               destruct c eqn:E; simpl in Hdoc; [|discriminate Hdoc]
           end.
    injection Hdoc as <-. simpl. split; [done|].
    match goal with E : extractLinks _ _ _ = Normal _ |- _ =>
      apply extractLinks_capped in E as (? & ? & _) end. done.
Qed.

(** A request without the needs-render marker is left alone by both
    fallback handlers. *)
Lemma unmarked_request_is_ignored `{Runtime}
    (st : Harvester.State) (hst : Hybrid.State) (request : Request) (page : Page)
    (response : option Response) (t : jsstring) :
  needsJs request = false →
  Harvester.playwright_requestHandler st request page response t = st
  ∧ Hybrid.playwright_requestHandler hst request page t = hst.
Proof.
  intros Hjs. unfold Harvester.playwright_requestHandler, Hybrid.playwright_requestHandler.
  by rewrite Hjs.
Qed.

(** The fast path of the content harvester stores a document whose
    critical fields are present, with render mode [http], and leaves the
    fallback list as it was. *)
Lemma fast_path_accepts_complete_document `{Runtime}
    (st : Harvester.State) (url : jsstring) (ch : CheerioAPI)
    (response : option Response) (t : jsstring) (doc : ContentDoc) :
  Harvester.build_http_doc url (root_html ch) ch response t = Normal doc →
  Harvester.critical_missing doc = false →
  Harvester.cheerio_requestHandler st url ch response t
  = {| Harvester.fallbackUrls := Harvester.fallbackUrls st;
       Harvester.dataset := Harvester.dataset st ++ [doc];
       Harvester.console :=
         Harvester.console st ++ [Harvester.harvested (lit "[HTTP]") url] |}
  ∧ ContentDoc.render_mode doc = http.
Proof.
  intros Hdoc Hcomplete.
  rewrite HarvesterFacts.cheerio_requestHandler_cases, Hdoc, Hcomplete.
  split; [done|]. by apply HarvesterFacts.build_http_doc_url in Hdoc as [_ ?].
Qed.

(** The accept scenario of the specification: a page with the title
    [Acme] and an [<article>] of 2000 characters and no JSON-LD is
    accepted by the fast path, with a main text, no schema type and render
    mode [http]. *)
Lemma acme_page_is_accepted :
  ∃ doc,
    Harvester.cheerio_requestHandler (H := Example.runtime) Harvester.initial
      Example.example_url Example.acme_page None Example.timestamp
    = {| Harvester.fallbackUrls := [];
         Harvester.dataset := [doc];
         Harvester.console :=
           [Harvester.harvested (lit "[HTTP]") Example.example_url] |}
    ∧ ContentDoc.title doc = Some (lit "Acme")
    ∧ ContentDoc.main_text doc = Some (replicate 2000 97%N)
    ∧ ContentDoc.schema_types doc = []
    ∧ ContentDoc.render_mode doc = http.
Proof.
  assert (map_completion
            (λ d, (Harvester.critical_missing d, ContentDoc.title d,
                   ContentDoc.main_text d, ContentDoc.schema_types d))
            (Harvester.build_http_doc (H := Example.runtime) Example.example_url
               (root_html Example.acme_page) Example.acme_page None Example.timestamp)
          = Normal (false, Some (lit "Acme"), Some (replicate 2000 97%N), []))
    as Hfields by (vm_compute; reflexivity).
  destruct (Harvester.build_http_doc (H := Example.runtime) Example.example_url
              (root_html Example.acme_page) Example.acme_page None Example.timestamp)
    as [doc|e] eqn:Hdoc; [|discriminate Hfields].
  injection Hfields as Hcomplete Htitle Hmain Htypes.
  exists doc.
  destruct (fast_path_accepts_complete_document (H := Example.runtime)
              Harvester.initial Example.example_url Example.acme_page None
              Example.timestamp doc Hdoc Hcomplete) as [-> ->].
  repeat split; assumption.
Defined.

(** A start request carries no marker: the fallback handlers return at
    once. *)
Lemma start_request_is_ignored :
  let request := {| request_url := Example.example_url;
                    uniqueKey := Example.example_url;
                    userData_needsJs := None |} in
  Harvester.playwright_requestHandler (H := Example.runtime) Harvester.initial request
    Example.blank_rendered None Example.timestamp = Harvester.initial
  ∧ Hybrid.playwright_requestHandler Hybrid.initial request Example.blank_rendered
      Example.timestamp = Hybrid.initial.
Proof.
  intros request.
  apply (unmarked_request_is_ignored (H := Example.runtime)). reflexivity.
Defined.

(** ** White space *)

Lemma trimStart_app l m :
  trimStart (l ++ m) = if forallb is_white_space l then trimStart m else trimStart l ++ m.
Proof.
  induction l as [|c l IH]; simpl; [done|].
  destruct (is_white_space c); simpl; [exact IH|done].
Qed.

Lemma trimStart_all_white_space l :
  forallb is_white_space l = true → trimStart l = [].
Proof.
  induction l as [|c l IH]; simpl; [done|].
  destruct (is_white_space c); simpl; [exact IH|done].
Qed.

Lemma trimEnd_nil_iff s : trimEnd s = [] ↔ forallb is_white_space s = true.
Proof.
  induction s as [|c s IH]; simpl; [done|].
  destruct (trimEnd s) as [|d t] eqn:Ht.
  - destruct (is_white_space c); simpl; [|split; [done|by intros [=]]].
    by rewrite <- IH.
  - split; [done|]. intros [_ Hs]%andb_prop. by apply IH in Hs.
Qed.

Lemma forallb_reverse {A} (f : A → bool) l : forallb f (reverse l) = forallb f l.
Proof.
  induction l as [|x l IH]; simpl; [done|].
  rewrite reverse_cons, forallb_app, IH. simpl. rewrite andb_true_r. apply andb_comm.
Qed.

(** [trim] removes the white space at the end the way [trimEnd] does. *)
Lemma reverse_trimStart_reverse s : reverse (trimStart (reverse s)) = trimEnd s.
Proof.
  induction s as [|c s IH]; simpl; [done|].
  rewrite reverse_cons, trimStart_app, forallb_reverse.
  destruct (forallb is_white_space s) eqn:Hall.
  - apply trimEnd_nil_iff in Hall as ->.
    simpl. by destruct (is_white_space c).
  - rewrite reverse_app, reverse_singleton, IH. simpl.
    destruct (trimEnd s) as [|d t] eqn:Ht; [|done].
    apply trimEnd_nil_iff in Ht. congruence.
Qed.

Lemma trim_eq s : trim s = trimEnd (trimStart s).
Proof. unfold trim. apply reverse_trimStart_reverse. Qed.

(** What [replace] leaves: single spaces. *)
Lemma single_spaced_replace b s :
  single_spaced b (replace_white_space_runs b s) = true.
Proof.
  revert b. induction s as [|c s IH]; intros b; simpl; [done|].
  destruct (is_white_space c) eqn:Hc.
  - destruct b; [apply IH|]. simpl. rewrite (IH true). done.
  - simpl. rewrite Hc. apply IH.
Qed.

Lemma single_spaced_weaken b s : single_spaced b s = true → single_spaced false s = true.
Proof.
  destruct s as [|c s]; simpl; [done|].
  destruct (is_white_space c); [|done]. destruct b; simpl; [|done].
  rewrite andb_false_r. done.
Qed.

Lemma single_spaced_trimStart b s :
  single_spaced b s = true → single_spaced false (trimStart s) = true.
Proof.
  destruct s as [|c s]; simpl; [done|].
  destruct (is_white_space c) eqn:Hc; simpl; [|by rewrite Hc].
  intros [[_ _]%andb_prop Hs]%andb_prop.
  destruct s as [|d s]; simpl in *; [done|].
  destruct (is_white_space d) eqn:Hd; simpl; [|by rewrite Hd].
  by rewrite andb_false_r in Hs.
Qed.

Lemma single_spaced_trimEnd b s :
  single_spaced b s = true → single_spaced b (trimEnd s) = true.
Proof.
  revert b. induction s as [|c s IH]; intros b; simpl; [done|].
  destruct (is_white_space c) eqn:Hc.
  - intros [Hc' Hs]%andb_prop. specialize (IH true Hs).
    destruct (trimEnd s) as [|d t]; [done|]. simpl. rewrite Hc, Hc'. exact IH.
  - intros Hs. specialize (IH false Hs).
    destruct (trimEnd s) as [|d t]; simpl; by rewrite Hc.
Qed.

(** No white space at the ends. *)
Lemma head_trimStart s c : head (trimStart s) = Some c → is_white_space c = false.
Proof.
  induction s as [|d s IH]; simpl; [done|].
  destruct (is_white_space d) eqn:Hd; [exact IH|]. simpl. by intros [= <-].
Qed.

Lemma last_trimEnd s c : last (trimEnd s) = Some c → is_white_space c = false.
Proof.
  induction s as [|d s IH]; simpl; [done|].
  destruct (trimEnd s) as [|e t] eqn:Ht.
  - destruct (is_white_space d) eqn:Hd; simpl; [done|]. by intros [= <-].
  - exact IH.
Qed.

Lemma head_trimEnd s c :
  head s = Some c → is_white_space c = false → head (trimEnd s) = Some c.
Proof.
  destruct s as [|d s]; simpl; [done|]. intros [= ->] Hc.
  destruct (trimEnd s); by rewrite ?Hc.
Qed.

Lemma replace_single_spaced b s :
  single_spaced b s = true → replace_white_space_runs b s = s.
Proof.
  revert b. induction s as [|c s IH]; intros b; simpl; [done|].
  destruct (is_white_space c) eqn:Hc.
  - intros [[Hc'%bool_decide_eq_true Hb%negb_true_iff]%andb_prop Hs]%andb_prop.
    subst b c. by rewrite (IH true Hs).
  - intros Hs. by rewrite (IH false Hs).
Qed.

Lemma trimStart_id s :
  (∀ c, head s = Some c → is_white_space c = false) → trimStart s = s.
Proof.
  destruct s as [|c s]; simpl; [done|]. intros Hc. by rewrite (Hc c eq_refl).
Qed.

Lemma trimEnd_id s :
  (∀ c, last s = Some c → is_white_space c = false) → trimEnd s = s.
Proof.
  induction s as [|c s IH]; simpl; [done|]. intros Hc.
  destruct s as [|d s]; simpl in *; [by rewrite (Hc c eq_refl)|].
  rewrite IH by exact Hc. done.
Qed.

Lemma filter_replace b s :
  filter (λ c, is_white_space c = false) (replace_white_space_runs b s)
  = filter (λ c, is_white_space c = false) s.
Proof.
  revert b. induction s as [|c s IH]; intros b; simpl; [done|].
  destruct (is_white_space c) eqn:Hc.
  - rewrite (filter_cons_False _ c) by congruence.
    destruct b; [apply IH|]. rewrite filter_cons_False by done. apply IH.
  - rewrite !filter_cons_True by done. by rewrite IH.
Qed.

Lemma filter_trimStart s :
  filter (λ c, is_white_space c = false) (trimStart s)
  = filter (λ c, is_white_space c = false) s.
Proof.
  induction s as [|c s IH]; simpl; [done|].
  destruct (is_white_space c) eqn:Hc; [|done].
  by rewrite filter_cons_False by congruence.
Qed.

Lemma filter_trimEnd s :
  filter (λ c, is_white_space c = false) (trimEnd s)
  = filter (λ c, is_white_space c = false) s.
Proof.
  induction s as [|c s IH]; simpl; [done|].
  destruct (trimEnd s) as [|d t] eqn:Ht.
  - destruct (is_white_space c) eqn:Hc.
    + rewrite filter_cons_False by congruence. exact IH.
    + rewrite (filter_cons_True _ c s) by done. rewrite <- IH.
      by rewrite filter_cons_True by done.
  - rewrite (filter_cons _ c (d :: t)), (filter_cons _ c s), IH. done.
Qed.

Lemma single_spaced_elem b s c :
  single_spaced b s = true → c ∈ s → is_white_space c = true → c = 32%N.
Proof.
  revert b. induction s as [|d s IH]; intros b Hs Hc Hws; [by apply elem_of_nil in Hc|].
  simpl in Hs. apply elem_of_cons in Hc as [->|Hc].
  - rewrite Hws in Hs. by apply andb_prop in Hs as [[?%bool_decide_eq_true _]%andb_prop _].
  - destruct (is_white_space d); [|by eapply IH].
    apply andb_prop in Hs as [_ Hs]. by eapply IH.
Qed.

Lemma single_spaced_no_double b s l1 l2 :
  single_spaced b s = true → s ≠ l1 ++ 32%N :: 32%N :: l2.
Proof.
  revert b s. induction l1 as [|d l1 IH]; intros b s Hs ->; simpl in Hs.
  - change (is_white_space 32) with true in Hs. simpl in Hs.
    by rewrite andb_false_r in Hs.
  - destruct (is_white_space d).
    + apply andb_prop in Hs as [_ Hs]. by eapply IH.
    + by eapply IH.
Qed.

Lemma normalizeWhitespace_eq text :
  normalizeWhitespace text = trimEnd (trimStart (replace_white_space_runs false text)).
Proof. apply trim_eq. Qed.

Lemma normalizeWhitespace_single_spaced text :
  single_spaced false (normalizeWhitespace text) = true.
Proof.
  rewrite normalizeWhitespace_eq. apply single_spaced_trimEnd.
  apply (single_spaced_trimStart false), single_spaced_replace.
Qed.

Lemma normalizeWhitespace_last text c :
  last (normalizeWhitespace text) = Some c → is_white_space c = false.
Proof. rewrite normalizeWhitespace_eq. apply last_trimEnd. Qed.

Lemma normalizeWhitespace_head text c :
  head (normalizeWhitespace text) = Some c → is_white_space c = false.
Proof.
  intros Hc. destruct (is_white_space c) eqn:Hws; [|done]. exfalso.
  rewrite normalizeWhitespace_eq in Hc.
  destruct (trimStart (replace_white_space_runs false text)) as [|d s] eqn:Ht;
    [done|].
  assert (is_white_space d = false) as Hd.
  { apply (head_trimStart (replace_white_space_runs false text) d). by rewrite Ht. }
  rewrite (head_trimEnd (d :: s) d) in Hc by done. congruence.
Qed.

Lemma normalizeWhitespace_filter text :
  filter (λ c, is_white_space c = false) (normalizeWhitespace text)
  = filter (λ c, is_white_space c = false) text.
Proof.
  by rewrite normalizeWhitespace_eq, filter_trimEnd, filter_trimStart, filter_replace.
Qed.

Lemma normalizeWhitespace_nil_iff text :
  normalizeWhitespace text = [] ↔ Forall (λ c, is_white_space c = true) text.
Proof.
  pose proof (normalizeWhitespace_filter text) as Hfilter. split.
  - intros Hnil. rewrite Hnil in Hfilter. simpl in Hfilter.
    apply Forall_forall. intros c Hc.
    destruct (is_white_space c) eqn:Hws; [done|].
    assert (c ∈ filter (λ c, is_white_space c = false) text) as Hin
      by (by apply list_elem_of_filter).
    rewrite <- Hfilter in Hin. by apply elem_of_nil in Hin.
  - intros Hall. destruct (normalizeWhitespace text) as [|c r'] eqn:Hr; [done|]. exfalso.
    assert (c ∈ filter (λ c, is_white_space c = false) text) as Hin.
    { rewrite <- Hfilter. apply list_elem_of_filter.
      split; [|apply list_elem_of_here].
      apply (normalizeWhitespace_head text). by rewrite Hr. }
    apply list_elem_of_filter in Hin as [Hc Hin].
    rewrite Forall_forall in Hall. specialize (Hall c Hin). congruence.
Qed.

Lemma normalizeWhitespace_idemp text :
  normalizeWhitespace (normalizeWhitespace text) = normalizeWhitespace text.
Proof.
  rewrite (normalizeWhitespace_eq (normalizeWhitespace text)).
  rewrite (replace_single_spaced false _ (normalizeWhitespace_single_spaced text)).
  rewrite (trimStart_id _ (normalizeWhitespace_head text)).
  apply trimEnd_id, normalizeWhitespace_last.
Qed.

Lemma normalizeWhitespace_length text :
  length (normalizeWhitespace text) ≤ length text.
Proof.
  rewrite normalizeWhitespace_eq.
  assert (∀ s, length (trimEnd s) ≤ length s) as Hend.
  { induction s as [|c s IH]; simpl; [done|].
    destruct (trimEnd s); [destruct (is_white_space c)|]; simpl in *; lia. }
  assert (∀ s, length (trimStart s) ≤ length s) as Hstart.
  { induction s as [|c s IH]; simpl; [done|].
    destruct (is_white_space c); simpl; lia. }
  assert (∀ b s, length (replace_white_space_runs b s) ≤ length s) as Hrep.
  { intros b s. revert b. induction s as [|c s IH]; intros b; simpl; [done|].
    destruct (is_white_space c); [destruct b|]; simpl;
      pose proof (IH true); pose proof (IH false); lia. }
  etrans; [apply Hend|]. etrans; [apply Hstart|]. apply Hrep.
Qed.

(** [normalizeWhitespace] returns its text with every run of white space
    turned into one space and none left at the ends; on such a text it
    changes nothing. *)
Theorem normalizeWhitespace_normal_form (text : jsstring) :
  let r := normalizeWhitespace text in
  (∀ c, c ∈ r → is_white_space c = true → c = 32%N)
  ∧ (∀ l1 l2, r ≠ l1 ++ 32%N :: 32%N :: l2)
  ∧ (∀ c, head r = Some c → is_white_space c = false)
  ∧ (∀ c, last r = Some c → is_white_space c = false)
  ∧ filter (λ c, is_white_space c = false) r
    = filter (λ c, is_white_space c = false) text
  ∧ (r = [] ↔ Forall (λ c, is_white_space c = true) text)
  ∧ length r ≤ length text
  ∧ normalizeWhitespace r = r.
Proof.
  intros r. pose proof (normalizeWhitespace_single_spaced text) as Hspaced.
  split_and!.
  - intros c. by apply single_spaced_elem with (b := false).
  - intros l1 l2. by apply single_spaced_no_double with (b := false).
  - apply normalizeWhitespace_head.
  - apply normalizeWhitespace_last.
  - apply normalizeWhitespace_filter.
  - apply normalizeWhitespace_nil_iff.
  - apply normalizeWhitespace_length.
  - apply normalizeWhitespace_idemp.
Qed.

(** ** The largest text blocks *)

Lemma truncate_eq str n : truncate str n = take (N.to_nat n) str.
Proof.
  unfold truncate. case_decide as Hlen; [done|].
  symmetry. apply take_ge. lia.
Qed.

Lemma truncate_length str n : length (truncate str n) = length str `min` N.to_nat n.
Proof. rewrite truncate_eq, length_take. lia. Qed.

Lemma elem_of_take_le {A} n (l : list A) x : x ∈ take n l → x ∈ l.
Proof. intros Hx. rewrite <- (take_drop n l). apply elem_of_app. by left. Qed.

Lemma insert_by_length_perm x l : insert_by_length x l ≡ₚ x :: l.
Proof.
  induction l as [|y l IH]; simpl; [done|].
  case_decide; [done|]. rewrite IH. apply Permutation_swap.
Qed.

Lemma sort_by_length_desc_perm l : sort_by_length_desc l ≡ₚ l.
Proof.
  unfold sort_by_length_desc.
  assert (∀ acc, foldl (λ sorted x, insert_by_length x sorted) acc l ≡ₚ acc ++ l) as Hgen.
  { induction l as [|x l IH]; intros acc; simpl; [by rewrite app_nil_r|].
    rewrite IH, insert_by_length_perm. simpl. apply Permutation_middle. }
  apply (Hgen []).
Qed.

Lemma insert_by_length_sorted x l :
  longest_first l → longest_first (insert_by_length x l).
Proof.
  induction l as [|y l IH]; simpl; [done|]. intros [Hy Hl].
  case_decide as Hlt; simpl.
  - split_and!; [|done|done]. constructor; [lia|].
    eapply Forall_impl; [exact Hy|]. simpl. lia.
  - split; [|by apply IH].
    rewrite insert_by_length_perm. constructor; [lia|done].
Qed.

Lemma sort_by_length_desc_sorted l : longest_first (sort_by_length_desc l).
Proof.
  unfold sort_by_length_desc.
  assert (∀ acc, longest_first acc →
                 longest_first (foldl (λ sorted x, insert_by_length x sorted) acc l))
    as Hgen.
  { induction l as [|x l IH]; intros acc Hacc; simpl; [done|].
    by apply IH, insert_by_length_sorted. }
  by apply Hgen.
Qed.

Lemma longest_first_take n l : longest_first l → longest_first (take n l).
Proof.
  revert n. induction l as [|a l IH]; intros [|n]; simpl; try done.
  intros [Ha Hl]. split; [|by apply IH]. by apply Forall_take.
Qed.

Lemma longest_first_truncate n l :
  longest_first l → longest_first ((λ b, truncate b n) <$> l).
Proof.
  induction l as [|a l IH]; simpl; [done|]. intros [Ha Hl]. split; [|by apply IH].
  apply Forall_fmap. eapply Forall_impl; [exact Ha|]. simpl. intros b Hb.
  rewrite !truncate_length. lia.
Qed.

Lemma longest_first_lookup l i j a b :
  longest_first l → i ≤ j → l !! i = Some a → l !! j = Some b → length b ≤ length a.
Proof.
  revert i j. induction l as [|c l IH]; intros i j Hl Hij Ha Hb; [done|].
  destruct Hl as [Hc Hl]. destruct i as [|i], j as [|j]; simpl in *; try lia.
  - injection Ha as <-. injection Hb as <-. lia.
  - injection Ha as <-. rewrite Forall_forall in Hc. apply Hc.
    by eapply list_elem_of_lookup_2.
  - eapply (IH i j); [done|lia|done..].
Qed.

Lemma extractLargestTextBlocks_spec
    (ch : CheerioAPI) (maxBlocks : nat) (e1 e2 e3 e4 : list Element) :
  select ch (css "main") = Normal e1 →
  select ch (css "article") = Normal e2 →
  select ch (css "[role='main']") = Normal e3 →
  (block_texts (e1 ++ e2 ++ e3) 100 = [] → select ch (css "p, div") = Normal e4) →
  let candidates :=
    if decide (block_texts (e1 ++ e2 ++ e3) 100 = []) then block_texts e4 200
    else block_texts (e1 ++ e2 ++ e3) 100 in
  ∃ blocks,
    extractLargestTextBlocks ch maxBlocks = Normal blocks
    ∧ length blocks = maxBlocks `min` length candidates
    ∧ Forall (λ b, length b ≤ 2000) blocks
    ∧ (∀ i j a b, i ≤ j → blocks !! i = Some a → blocks !! j = Some b →
                  length b ≤ length a)
    ∧ (∀ b, b ∈ blocks → ∃ t, t ∈ candidates ∧ b = truncate t 2000)
    ∧ (∀ b t, head blocks = Some b → t ∈ candidates → length t `min` 2000 ≤ length b).
Proof.
  intros H1 H2 H3 H4 candidates.
  exists ((λ b, truncate b 2000) <$> take maxBlocks (sort_by_length_desc candidates)).
  assert (extractLargestTextBlocks ch maxBlocks
          = Normal ((λ b, truncate b 2000)
                    <$> take maxBlocks (sort_by_length_desc candidates))) as Heq.
  { unfold extractLargestTextBlocks, long_texts. simpl. rewrite H1, H2, H3. simpl.
    fold (block_texts e1 100) (block_texts e2 100) (block_texts e3 100).
    assert (block_texts e1 100 ++ block_texts e2 100 ++ block_texts e3 100
            = block_texts (e1 ++ e2 ++ e3) 100) as Hmains.
    { unfold block_texts. by rewrite !fmap_app, !filter_app. }
    rewrite <- app_assoc, Hmains. subst candidates.
    destruct (block_texts (e1 ++ e2 ++ e3) 100) as [|t ts] eqn:Hm.
    - rewrite decide_True by done. rewrite (H4 eq_refl). reflexivity.
    - rewrite decide_False by done. simpl. reflexivity. }
  split; [exact Heq|].
  pose proof (sort_by_length_desc_perm candidates) as Hperm.
  pose proof (sort_by_length_desc_sorted candidates) as Hsorted.
  split_and!.
  - rewrite length_fmap, length_take, (Permutation_length Hperm). lia.
  - apply Forall_fmap, Forall_forall. intros b _. simpl.
    rewrite truncate_length. lia.
  - intros i j a b. apply longest_first_lookup.
    apply longest_first_truncate, longest_first_take, Hsorted.
  - intros b (t & -> & Ht)%list_elem_of_fmap. exists t. split; [|done].
    rewrite <- Hperm. by eapply elem_of_take_le.
  - intros b t Hb Ht. rewrite <- Hperm in Ht.
    destruct (sort_by_length_desc candidates) as [|s0 rest]; [by apply elem_of_nil in Ht|].
    destruct maxBlocks as [|n]; [done|]. simpl in Hb. injection Hb as <-.
    rewrite truncate_length. destruct Hsorted as [Hs0 _].
    apply elem_of_cons in Ht as [->|Ht]; [lia|].
    rewrite Forall_forall in Hs0. specialize (Hs0 t Ht). lia.
Qed.

(** [extractLargestTextBlocks]: the candidates are the normalized texts
    longer than 100 units of the elements under [main], [article] and
    [[role="main"]], or, when there is none, the normalized texts longer
    than 200 units of the [p] and [div] elements. The function returns the
    [maxBlocks] longest candidates, longest first, each cut to 2000 units. *)
Theorem extractLargestTextBlocks_longest_first
    (ch : CheerioAPI) (maxBlocks : nat) (e1 e2 e3 e4 : list Element) :
  select ch (css "main") = Normal e1 →
  select ch (css "article") = Normal e2 →
  select ch (css "[role='main']") = Normal e3 →
  (block_texts (e1 ++ e2 ++ e3) 100 = [] → select ch (css "p, div") = Normal e4) →
  let candidates :=
    if decide (block_texts (e1 ++ e2 ++ e3) 100 = []) then block_texts e4 200
    else block_texts (e1 ++ e2 ++ e3) 100 in
  ∃ blocks,
    extractLargestTextBlocks ch maxBlocks = Normal blocks
    ∧ length blocks = maxBlocks `min` length candidates
    ∧ Forall (λ b, length b ≤ 2000) blocks
    ∧ (∀ i j a b, i ≤ j → blocks !! i = Some a → blocks !! j = Some b →
                  length b ≤ length a)
    ∧ (∀ b, b ∈ blocks → ∃ t, t ∈ candidates ∧ b = truncate t 2000)
    ∧ (∀ b t, head blocks = Some b → t ∈ candidates → length t `min` 2000 ≤ length b).
Proof. apply extractLargestTextBlocks_spec. Qed.

Lemma block_texts_long els n t : t ∈ block_texts els n → n < length t.
Proof. unfold block_texts. by intros [? _]%list_elem_of_filter. Qed.

Lemma extractLargestTextBlocks_bounds ch n blocks :
  extractLargestTextBlocks ch n = Normal blocks →
  length blocks ≤ n ∧ Forall (λ b, 0 < length b ∧ length b ≤ 2000) blocks.
Proof.
  intros Hblocks.
  destruct (select ch (css "main")) as [e1|] eqn:H1;
    [|by unfold extractLargestTextBlocks, long_texts in Hblocks; simpl in Hblocks;
         rewrite H1 in Hblocks].
  destruct (select ch (css "article")) as [e2|] eqn:H2;
    [|by unfold extractLargestTextBlocks, long_texts in Hblocks; simpl in Hblocks;
         rewrite H1, H2 in Hblocks].
  destruct (select ch (css "[role='main']")) as [e3|] eqn:H3;
    [|by unfold extractLargestTextBlocks, long_texts in Hblocks; simpl in Hblocks;
         rewrite H1, H2, H3 in Hblocks].
  assert (∃ e4, block_texts (e1 ++ e2 ++ e3) 100 = [] →
                select ch (css "p, div") = Normal e4) as [e4 H4].
  { destruct (select ch (css "p, div")) as [e4|] eqn:H4; [by exists e4|].
    exists []. intros Hnil. exfalso.
    unfold extractLargestTextBlocks, long_texts in Hblocks. simpl in Hblocks.
    rewrite H1, H2, H3 in Hblocks. simpl in Hblocks.
    fold (block_texts e1 100) (block_texts e2 100) (block_texts e3 100) in Hblocks.
    replace (([] ++ block_texts e1 100) ++ block_texts e2 100) with
      (block_texts e1 100 ++ block_texts e2 100) in Hblocks by done.
    rewrite <- app_assoc in Hblocks.
    replace (block_texts e1 100 ++ block_texts e2 100 ++ block_texts e3 100)
      with (block_texts (e1 ++ e2 ++ e3) 100) in Hblocks
      by (unfold block_texts; by rewrite !fmap_app, !filter_app).
    rewrite Hnil in Hblocks. rewrite decide_True in Hblocks by done.
    by rewrite H4 in Hblocks. }
  destruct (extractLargestTextBlocks_spec ch n e1 e2 e3 e4 H1 H2 H3 H4)
    as (blocks' & Heq & Hlen & Hcap & _ & Hfrom & _).
  rewrite Hblocks in Heq. injection Heq as <-.
  split; [lia|]. apply Forall_forall. intros b Hb.
  rewrite Forall_forall in Hcap. split; [|by apply Hcap].
  destruct (Hfrom b Hb) as (t & Ht & ->). rewrite truncate_length.
  assert (100 < length t); [|lia].
  case_decide; apply block_texts_long in Ht; lia.
Qed.

(** On a page with a [main] element of 150 letters, an [article] of 300
    and a paragraph of 250, the blocks are the article and the main
    element, in this order; the paragraph is not a candidate. *)
Lemma blocks_page_longest_first :
  extractLargestTextBlocks Sample.blocks_page 5
  = Normal [replicate 300 98%N; replicate 150 97%N]
  ∧ ∃ blocks, extractLargestTextBlocks Sample.blocks_page 5 = Normal blocks
              ∧ length blocks = 2
              ∧ Forall (λ b, length b ≤ 2000) blocks.
Proof.
  split; [vm_compute; reflexivity|].
  destruct (extractLargestTextBlocks_longest_first Sample.blocks_page 5
              [Example.element (replicate 150 97%N)]
              [Example.element (replicate 300 98%N)] []
              [Example.element (replicate 250 99%N)])
    as (blocks & Heq & Hlen & Hcap & _);
    [vm_compute; reflexivity..|intros _; vm_compute; reflexivity|].
  exists blocks. split; [exact Heq|]. split; [|exact Hcap].
  rewrite Hlen. vm_compute. reflexivity.
Defined.

(** ** Headings *)

Lemma Set_new_sublist {A} `{EqDecision A} (xs : list A) : Set_new xs `sublist_of` xs.
Proof.
  unfold Set_new.
  assert (∀ acc, foldl Set_add acc xs `sublist_of` acc ++ xs) as Hgen.
  { induction xs as [|x xs IH]; intros acc; simpl; [by rewrite app_nil_r|].
    etrans; [apply IH|]. unfold Set_add. case_decide.
    - apply sublist_app; [done|]. by apply sublist_cons.
    - by rewrite <- app_assoc. }
  apply (Hgen []).
Qed.

Lemma occurs_first_split {A} (l : list A) a b :
  occurs_first l a b → ∃ l1 l2, l = l1 ++ a :: l2 ∧ b ∉ l1.
Proof.
  induction l as [|c l IH]; simpl; [done|]. intros [->|[Hc Hl]].
  - exists [], l. split; [done|]. apply not_elem_of_nil.
  - destruct (IH Hl) as (l1 & l2 & -> & Hb). exists (c :: l1), l2.
    split; [done|]. intros [->|?]%elem_of_cons; done.
Qed.

Lemma occurs_first_insert {A} (acc xs : list A) x a b :
  x ≠ b → occurs_first (acc ++ xs) a b → occurs_first (acc ++ x :: xs) a b.
Proof.
  intros Hx. induction acc as [|c acc IH]; simpl.
  - intros Hxs. right. by split.
  - intros [->|[Hc Hl]]; [by left|]. right. split; [done|]. by apply IH.
Qed.

Lemma occurs_first_seen {A} (acc xs ys : list A) a b :
  b ∈ acc → occurs_first (acc ++ xs) a b → occurs_first (acc ++ ys) a b.
Proof.
  induction acc as [|c acc IH]; simpl; [by intros ?%elem_of_nil|].
  intros Hb [->|[Hc Hl]]; [by left|]. right. split; [done|].
  apply IH; [|done]. by apply elem_of_cons in Hb as [->|Hb].
Qed.

Lemma occurs_first_NoDup {A} (before after : list A) a b :
  NoDup (before ++ a :: after) → b ∈ after → occurs_first (before ++ a :: after) a b.
Proof.
  intros Hnd Hb. induction before as [|c before IH]; simpl; [by left|].
  simpl in Hnd. apply NoDup_cons in Hnd as [Hc Hnd]. right. split; [|by apply IH].
  intros ->. apply Hc. apply elem_of_app. right. by apply list_elem_of_further.
Qed.

(** The order of a [Set]: an element that stands before another was added
    before the other first was. *)
Lemma Set_add_order {A} `{EqDecision A} (xs acc before after : list A) a b :
  NoDup acc → foldl Set_add acc xs = before ++ a :: after → b ∈ after →
  occurs_first (acc ++ xs) a b.
Proof.
  revert acc. induction xs as [|x xs IH]; intros acc Hnd Heq Hb; simpl in Heq.
  - rewrite app_nil_r, Heq. apply occurs_first_NoDup; [by rewrite <- Heq|done].
  - assert (NoDup (Set_add acc x)) as Hnd' by (by apply NoDup_Set_add).
    pose proof (IH _ Hnd' Heq Hb) as Hfirst.
    unfold Set_add in Hfirst. case_decide as Hx.
    + destruct (decide (x = b)) as [->|Hxb].
      * by apply (occurs_first_seen acc xs).
      * by apply occurs_first_insert.
    + by rewrite <- app_assoc in Hfirst.
Qed.

Lemma occurs_first_filter {A} (P : A → Prop) `{∀ x, Decision (P x)} (l : list A) a b :
  P b → occurs_first (filter P l) a b → occurs_first l a b.
Proof.
  intros Hb. induction l as [|c l IH]; [done|]. rewrite filter_cons. case_decide as Hc.
  - simpl. intros [->|[? ?]]; [by left|]. right. split; [done|]. by apply IH.
  - intros Hl. simpl. right. split; [by intros ->|]. by apply IH.
Qed.

Lemma headings_of_Set_new (els : list Element) :
  headings_of els
    (Set_new (filter (λ text, text ≠ [])
                     ((λ el, normalizeWhitespace (el_text el)) <$> els))).
Proof.
  split_and!.
  - apply NoDup_Set_new.
  - etrans; [apply Set_new_sublist|]. apply sublist_filter.
  - intros text. rewrite elem_of_Set_new, list_elem_of_filter, list_elem_of_fmap.
    split.
    + intros [Hne (el & -> & Hel)]. eauto.
    + intros [Hne (el & Hel & ->)]. eauto.
  - intros before a after b Heq Hb. apply occurs_first_split.
    apply (occurs_first_filter (λ text, text ≠ [])).
    + assert (b ∈ Set_new (filter (λ text, text ≠ [])
                             ((λ el, normalizeWhitespace (el_text el)) <$> els))) as Hin.
      { rewrite Heq. apply elem_of_app. right. by apply list_elem_of_further. }
      by apply elem_of_Set_new, list_elem_of_filter in Hin as [? _].
    + apply (Set_add_order _ [] before after); [constructor|exact Heq|exact Hb].
Qed.

(** On the fast path the headings of each level are the normalized texts
    of the elements of that level, without the empty ones, each once, in
    the order of their first occurrence. *)
Theorem extractHeadings_cheerio_headings
    (ch : CheerioAPI) (page : option Page) (e1 e2 e3 : list Element) :
  select ch (css "h1") = Normal e1 →
  select ch (css "h2") = Normal e2 →
  select ch (css "h3") = Normal e3 →
  ∃ hs, extractHeadings (Some ch) page = Normal hs
        ∧ headings_of e1 (h1 hs) ∧ headings_of e2 (h2 hs) ∧ headings_of e3 (h3 hs)
        ∧ ([] ∉ h1 hs) ∧ ([] ∉ h2 hs) ∧ ([] ∉ h3 hs).
Proof.
  intros H1 H2 H3. unfold extractHeadings, heading_texts_cheerio.
  rewrite H1, H2, H3. simpl. eexists. split; [reflexivity|]. simpl.
  pose proof (headings_of_Set_new e1) as Hh1.
  pose proof (headings_of_Set_new e2) as Hh2.
  pose proof (headings_of_Set_new e3) as Hh3.
  split_and!; try done.
  - intros Hin. apply Hh1 in Hin as [? _]. done.
  - intros Hin. apply Hh2 in Hin as [? _]. done.
  - intros Hin. apply Hh3 in Hin as [? _]. done.
Qed.

Lemma heading_loop_keep els acc texts x :
  for_of heading_step els acc = Normal texts → x ∈ acc → x ∈ texts.
Proof.
  revert acc. induction els as [|e els IH]; intros acc Hfor Hx; simpl in Hfor.
  - by injection Hfor as <-.
  - unfold heading_step at 1 in Hfor.
    destruct (textContent e) as [t|?]; simpl in Hfor; [|done].
    eapply IH; [exact Hfor|]. destruct (truthy t); [|done].
    apply elem_of_app. by left.
Qed.

Lemma heading_loop_elem els acc texts el text :
  for_of heading_step els acc = Normal texts →
  el ∈ els → textContent el = Normal (Some text) → text ≠ [] →
  normalizeWhitespace text ∈ texts.
Proof.
  revert acc. induction els as [|e els IH]; intros acc Hfor Hel Htext Hne;
    [by apply elem_of_nil in Hel|].
  simpl in Hfor. apply elem_of_cons in Hel as [->|Hel].
  - unfold heading_step at 1 in Hfor. rewrite Htext in Hfor. simpl in Hfor.
    destruct text as [|c text]; [done|]. simpl in Hfor.
    eapply heading_loop_keep; [exact Hfor|].
    apply elem_of_app. right. apply list_elem_of_here.
  - unfold heading_step at 1 in Hfor.
    destruct (textContent e) as [t|?]; simpl in Hfor; [|done].
    by eapply IH.
Qed.

Lemma heading_texts_page_elem page selector els texts el text :
  locator_all page selector = Normal els →
  heading_texts_page page selector = Normal texts →
  el ∈ els → textContent el = Normal (Some text) → text ≠ [] →
  normalizeWhitespace text ∈ texts.
Proof.
  intros Hels. unfold heading_texts_page. rewrite Hels. simpl.
  apply heading_loop_elem.
Qed.

(** On the fallback path a heading is tested before it is normalized: a
    heading element of any of the three levels whose text is white space
    only leaves the empty string among the headings of its level. Each
    level is still free of duplicates. *)
Theorem extractHeadings_page_keeps_blank_heading
    (ch : option CheerioAPI) (page : Page) (hs : Headings)
    (selector : jsstring) (level : Headings → list jsstring)
    (els : list ElementHandle) (el : ElementHandle) (text : jsstring) :
  ch = None →
  extractHeadings ch (Some page) = Normal hs →
  (selector, level) ∈ heading_levels →
  locator_all page selector = Normal els →
  el ∈ els → textContent el = Normal (Some text) →
  text ≠ [] → Forall (λ c, is_white_space c = true) text →
  [] ∈ level hs ∧ NoDup (h1 hs) ∧ NoDup (h2 hs) ∧ NoDup (h3 hs).
Proof.
  intros -> Hhs Hlevel Hels Hel Htext Hne Hblank. unfold extractHeadings in Hhs.
  destruct (heading_texts_page page (css "h1")) as [a|] eqn:Ha; simpl in Hhs; [|done].
  destruct (heading_texts_page page (css "h2")) as [b|] eqn:Hb; simpl in Hhs; [|done].
  destruct (heading_texts_page page (css "h3")) as [c|] eqn:Hc; simpl in Hhs; [|done].
  injection Hhs as <-. simpl.
  split_and!; try apply NoDup_Set_new.
  assert (normalizeWhitespace text = []) as Hempty.
  { by apply normalizeWhitespace_nil_iff. }
  unfold heading_levels in Hlevel.
  repeat (apply elem_of_cons in Hlevel as [[= -> ->]|Hlevel]);
    [..|by apply elem_of_nil in Hlevel];
    simpl; apply elem_of_Set_new; rewrite <- Hempty;
    by eapply heading_texts_page_elem.
Qed.

(** The headings of a page whose first-level headings are the same title
    twice, spaced differently, and a heading of two spaces: the title is
    listed once and the blank heading is dropped. *)
Lemma headings_page_headings :
  extractHeadings (Some Sample.headings_page) None
  = Normal {| h1 := [lit "Welcome to Acme"]; h2 := [lit "Prices"]; h3 := [] |}
  ∧ ∃ hs, extractHeadings (Some Sample.headings_page) None = Normal hs
          ∧ ([] ∉ h1 hs) ∧ NoDup (h1 hs).
Proof.
  split; [vm_compute; reflexivity|].
  destruct (extractHeadings_cheerio_headings Sample.headings_page None
              [Example.element (lit "  Welcome  to Acme ");
               Example.element (lit "Welcome to Acme");
               Example.element (lit "  ")]
              [Example.element (lit "Prices")] [])
    as (hs & Hhs & (Hnd & _) & _ & _ & Hblank & _); [vm_compute; reflexivity..|].
  exists hs. split; [exact Hhs|]. split; [exact Hblank|exact Hnd].
Defined.

(** The same headings on a rendered page: the blank heading stays, as the
    empty string. *)
Lemma headings_rendered_blank_heading :
  extractHeadings None (Some Sample.headings_rendered)
  = Normal {| h1 := [lit "Welcome to Acme"; []]; h2 := [lit "Prices"]; h3 := [] |}
  ∧ ∃ hs, extractHeadings None (Some Sample.headings_rendered) = Normal hs
          ∧ [] ∈ h1 hs.
Proof.
  split; [vm_compute; reflexivity|].
  destruct (extractHeadings None (Some Sample.headings_rendered)) as [hs|e] eqn:Hhs;
    [|vm_compute in Hhs; discriminate Hhs].
  exists hs. split; [reflexivity|].
  apply (extractHeadings_page_keeps_blank_heading None Sample.headings_rendered hs
           (css "h1") h1
           [Sample.handle (lit "  Welcome  to Acme ");
            Sample.handle (lit "Welcome to Acme");
            Sample.handle (lit "  ")]
           (Sample.handle (lit "  ")) (lit "  ")).
  - reflexivity.
  - exact Hhs.
  - apply list_elem_of_here.
  - vm_compute. reflexivity.
  - do 2 apply list_elem_of_further. apply list_elem_of_here.
  - reflexivity.
  - vm_compute. discriminate.
  - apply (bool_decide_unpack _). vm_compute. exact I.
Defined.

(** ** Metadata *)

Lemma for_of_invariant {A B} (P : B → Prop) (f : B → A → completion B) xs acc r :
  for_of f xs acc = Normal r → P acc →
  (∀ acc x acc', f acc x = Normal acc' → P acc → P acc') → P r.
Proof.
  revert acc. induction xs as [|x xs IH]; intros acc Hfor Hacc Hstep; simpl in Hfor.
  - by injection Hfor as <-.
  - destruct (f acc x) as [acc'|e] eqn:Hf; simpl in Hfor; [|done].
    eapply IH; [exact Hfor| |exact Hstep]. by eapply Hstep.
Qed.

Lemma truthy_or_empty v : truthy v = true → v = Some (or_empty v) ∧ or_empty v ≠ [].
Proof. by destruct v as [[|c s]|]. Qed.

Lemma or_undefined_Some v t : or_undefined v = Some t → t ≠ [].
Proof.
  unfold or_undefined. destruct (truthy v) eqn:Hv; [|done].
  intros ->. by destruct t.
Qed.

Lemma add_og_invariant og property content :
  (∀ k v, og !! k = Some v → k ≠ [] ∧ v ≠ []) →
  ∀ k v, add_og og property content !! k = Some v → k ≠ [] ∧ v ≠ [].
Proof.
  intros Hog k v. unfold add_og.
  destruct (truthy property) eqn:Hp; simpl; [|by apply Hog].
  destruct (truthy content) eqn:Hc; simpl; [|by apply Hog].
  apply truthy_or_empty in Hp as [_ Hp]. apply truthy_or_empty in Hc as [_ Hc].
  intros [[<- <-]|[_ Hk]]%lookup_insert_Some; [done|by apply Hog].
Qed.

Lemma add_meta_invariant meta name content :
  (∀ k v, meta !! k = Some v → k ∈ metaKeys ∧ v ≠ []) →
  ∀ k v, add_meta meta name content !! k = Some v → k ∈ metaKeys ∧ v ≠ [].
Proof.
  intros Hmeta k v. unfold add_meta.
  destruct (truthy name) eqn:Hn; simpl; [|by apply Hmeta].
  destruct (truthy content) eqn:Hc; simpl; [|by apply Hmeta].
  case_bool_decide as Hkey; simpl; [|by apply Hmeta].
  case_bool_decide; simpl; [|by apply Hmeta].
  apply truthy_or_empty in Hc as [_ Hc].
  intros [[<- <-]|[_ Hk]]%lookup_insert_Some; [done|by apply Hmeta].
Qed.

Lemma metaKeys_size (meta : gmap jsstring jsstring) :
  (∀ k v, meta !! k = Some v → k ∈ metaKeys ∧ v ≠ []) → size meta ≤ 6.
Proof.
  intros Hmeta.
  assert (dom meta ⊆ (list_to_set metaKeys : gset jsstring)) as Hsub.
  { intros k [v Hk]%elem_of_dom. apply elem_of_list_to_set. by eapply Hmeta. }
  apply subseteq_size in Hsub. rewrite size_dom in Hsub.
  etrans; [exact Hsub|].
  rewrite size_list_to_set; [done|].
  apply (bool_decide_unpack _). vm_compute. exact I.
Qed.

Lemma extractMetadata_spec
    (ch : option CheerioAPI) (page : option Page) (md : Metadata) :
  extractMetadata ch page = Normal md →
  (∀ t, md_title md = Some t → t ≠ [])
  ∧ (∀ t, md_meta_description md = Some t → t ≠ [])
  ∧ (∀ t, md_lang md = Some t → t ≠ [])
  ∧ (∀ t, md_canonical_url md = Some t → t ≠ [])
  ∧ (∀ k v, md_og md !! k = Some v → k ≠ [] ∧ v ≠ [])
  ∧ (∀ k v, md_meta md !! k = Some v → k ∈ metaKeys ∧ v ≠ [])
  ∧ size (md_meta md) ≤ 6.
Proof.
  intros Hmd.
  enough ((∀ t, md_title md = Some t → t ≠ [])
          ∧ (∀ t, md_meta_description md = Some t → t ≠ [])
          ∧ (∀ t, md_lang md = Some t → t ≠ [])
          ∧ (∀ t, md_canonical_url md = Some t → t ≠ [])
          ∧ (∀ k v, md_og md !! k = Some v → k ≠ [] ∧ v ≠ [])
          ∧ (∀ k v, md_meta md !! k = Some v → k ∈ metaKeys ∧ v ≠ []))
    as (? & ? & ? & ? & ? & Hmeta) by (split_and!; try done; by apply metaKeys_size).
  assert (∀ {A B} (f : B → A → B) (P : B → Prop) xs acc,
            P acc → (∀ acc x, P acc → P (f acc x)) → P (foldl f acc xs)) as Hfold.
  { intros A B f P xs. induction xs as [|x xs IH]; intros acc Hacc Hstep; simpl; [done|].
    apply IH; [by apply Hstep|done]. }
  unfold extractMetadata in Hmd. destruct ch as [ch|]; [|destruct page as [page|]].
  - repeat match type of Hmd with
           | bind ?c _ = Normal _ =>
               let x := fresh "x" in let E := fresh "E" in
               destruct c as [x|] eqn:E; simpl in Hmd; [|discriminate Hmd]
           end.
    injection Hmd as <-. simpl. split_and!.
    + intros t ->. case_decide as Ht; [by injection E0 as <-|].
      destruct (select ch (css "meta[property='og:title']")); simpl in E0; [|done].
      injection E0 as E0. by eapply or_undefined_Some.
    + intros t ->. destruct (truthy (selection_attr x1 (lit "content"))) eqn:Hd.
      * injection E2 as E2. rewrite E2 in Hd. by destruct t.
      * destruct (select ch (css "meta[property='og:description']")); simpl in E2; [|done].
        injection E2 as E2. by eapply or_undefined_Some.
    + intros t. apply or_undefined_Some.
    + intros t. apply or_undefined_Some.
    + apply (Hfold _ _ _ (λ og, ∀ k v, og !! k = Some v → k ≠ [] ∧ v ≠ [])).
      * intros k v. by rewrite lookup_empty.
      * intros og el. apply add_og_invariant.
    + apply (Hfold _ _ _ (λ meta, ∀ k v, meta !! k = Some v → k ∈ metaKeys ∧ v ≠ [])).
      * intros k v. by rewrite lookup_empty.
      * intros meta el. apply add_meta_invariant.
  - repeat match type of Hmd with
           | bind ?c _ = Normal _ =>
               let x := fresh "x" in let E := fresh "E" in
               destruct c as [x|] eqn:E; simpl in Hmd; [|discriminate Hmd]
           end.
    injection Hmd as <-. simpl. split_and!.
    + intros t ->. case_decide as Ht; [by injection E0 as <-|].
      destruct (locator_getAttribute page (css "meta[property='og:title']") _);
        simpl in E0; [|done].
      injection E0 as E0. by eapply or_undefined_Some.
    + intros t ->. destruct (truthy x1) eqn:Hd.
      * injection E2 as E2. rewrite E2 in Hd. by destruct t.
      * destruct (locator_getAttribute page (css "meta[property='og:description']") _);
          simpl in E2; [|done].
        injection E2 as E2. by eapply or_undefined_Some.
    + intros t. apply or_undefined_Some.
    + intros t. apply or_undefined_Some.
    + eapply (for_of_invariant (λ og, ∀ k v, og !! k = Some v → k ≠ [] ∧ v ≠ []));
        [eassumption| |].
      * intros k v. by rewrite lookup_empty.
      * intros og el og' Hstep Hog. cbv beta in Hstep.
        destruct (getAttribute el (lit "property")); simpl in Hstep; [|done].
        destruct (getAttribute el (lit "content")); simpl in Hstep; [|done].
        injection Hstep as <-. by apply add_og_invariant.
    + eapply (for_of_invariant (λ meta, ∀ k v, meta !! k = Some v → k ∈ metaKeys ∧ v ≠ []));
        [eassumption| |].
      * intros k v. by rewrite lookup_empty.
      * intros meta el meta' Hstep Hmeta. cbv beta in Hstep.
        destruct (getAttribute el (lit "name")); simpl in Hstep; [|done].
        destruct (getAttribute el (lit "content")); simpl in Hstep; [|done].
        injection Hstep as <-. by apply add_meta_invariant.
  - injection Hmd as <-. simpl. split_and!; try done; intros k v; by rewrite lookup_empty.
Qed.

(** Whatever the page, the metadata hold no empty string: a field that
    is present is not empty, the Open Graph map has no empty key and no
    empty value, and the [meta] map holds allow-listed names only, so at
    most six entries. *)
Theorem extractMetadata_fields_not_empty
    (ch : option CheerioAPI) (page : option Page) (md : Metadata) :
  extractMetadata ch page = Normal md →
  (∀ t, md_title md = Some t → t ≠ [])
  ∧ (∀ t, md_meta_description md = Some t → t ≠ [])
  ∧ (∀ t, md_lang md = Some t → t ≠ [])
  ∧ (∀ t, md_canonical_url md = Some t → t ≠ [])
  ∧ (∀ k v, md_og md !! k = Some v → k ≠ [] ∧ v ≠ [])
  ∧ (∀ k v, md_meta md !! k = Some v → k ∈ metaKeys ∧ v ≠ [])
  ∧ size (md_meta md) ≤ 6.
Proof. apply extractMetadata_spec. Qed.

(** On a page without [<title>] whose head holds an Open Graph title, an
    Open Graph image without content, keywords, a generator and an author
    without content: the title is the Open Graph title, and of the named
    elements only the keywords are kept. *)
Lemma meta_page_metadata :
  ∃ md, extractMetadata (Some Sample.meta_page) None = Normal md
        ∧ md_title md = Some (lit "Acme")
        ∧ md_og md !! lit "og:image" = None
        ∧ md_meta md !! lit "keywords" = Some (lit "drains")
        ∧ md_meta md !! lit "generator" = None
        ∧ md_meta md !! lit "author" = None
        ∧ size (md_meta md) ≤ 6.
Proof.
  assert (map_completion
            (λ md, (md_title md, md_og md !! lit "og:image",
                    md_meta md !! lit "keywords", md_meta md !! lit "generator",
                    md_meta md !! lit "author"))
            (extractMetadata (Some Sample.meta_page) None)
          = Normal (Some (lit "Acme"), None, Some (lit "drains"), None, None))
    as Hfields by (vm_compute; reflexivity).
  destruct (extractMetadata (Some Sample.meta_page) None)
    as [md|e] eqn:Hmd; [|discriminate Hfields].
  injection Hfields as Htitle Himage Hkeywords Hgenerator Hauthor.
  exists md. split_and!; try done.
  by apply (extractMetadata_fields_not_empty
              (Some Sample.meta_page) None md).
Defined.

(** ** Evidence and the sizes of a document *)

Lemma findPriceLike_length `{Runtime} text price :
  findPriceLike text = Some price → length price ≤ 400.
Proof.
  unfold findPriceLike. destruct (String_match pricePattern text) as [[|m0 ?]|]; try done.
  intros [= <-]. rewrite truncate_length. lia.
Qed.

Lemma extractEvidence_spec `{Runtime} mainText allText :
  length (extractEvidence mainText allText) ≤ 3
  ∧ Forall (λ e, length e ≤ 400) (extractEvidence mainText allText).
Proof.
  unfold extractEvidence.
  set (price := findPriceLike allText).
  assert (Forall (λ e, length e ≤ 400)
            (if truthy price then [] ++ [or_empty price] else [])
          ∧ length (if truthy price then [] ++ [or_empty price] else []) ≤ 1)
    as [Hprice Hlen1].
  { destruct (truthy price) eqn:Hp; simpl; [|split; [constructor|lia]].
    split; [|lia]. apply Forall_singleton.
    destruct price as [[|c p]|] eqn:Hprice; try done.
    change (length (or_empty (Some (c :: p)))) with (length (c :: p)).
    by apply (findPriceLike_length allText). }
  set (ev1 := if truthy price then [] ++ [or_empty price] else []) in *.
  assert (Forall (λ e, length e ≤ 400)
            (if decide (mainText ≠ []) then ev1 ++ [truncate mainText 400] else ev1)
          ∧ length (if decide (mainText ≠ []) then ev1 ++ [truncate mainText 400]
                    else ev1) ≤ 2) as [Hhero Hlen2].
  { case_decide; [|split; [exact Hprice|lia]]. split.
    - apply Forall_app. split; [done|]. apply Forall_singleton.
      rewrite truncate_length. lia.
    - rewrite length_app. simpl. lia. }
  set (ev2 := if decide (mainText ≠ []) then ev1 ++ [truncate mainText 400] else ev1) in *.
  destruct (first_keyword_index _ _) as [index|].
  - split.
    + rewrite length_take, length_app.
      change (length [_]) with 1. lia.
    + apply Forall_take, Forall_app. split; [done|]. apply Forall_singleton.
      rewrite truncate_length. lia.
  - split; [rewrite length_take; lia|by apply Forall_take].
Qed.

(** [extractEvidence] returns at most three snippets, of at most 400 units
    each, so its final cut to five drops nothing; the main text, when
    there is one, gives the snippet after the price. *)
Theorem extractEvidence_three_snippets `{Runtime} (mainText allText : jsstring) :
  let evidence := extractEvidence mainText allText in
  length evidence ≤ 3
  ∧ Forall (λ e, length e ≤ 400) evidence
  ∧ (mainText ≠ [] →
     ∃ i, i ≤ 1 ∧ evidence !! i = Some (truncate mainText 400)
          ∧ (i = 1 ↔ truthy (findPriceLike allText) = true)).
Proof.
  intros evidence. destruct (extractEvidence_spec mainText allText) as [Hlen Hall].
  split; [done|]. split; [done|]. intros Hmain.
  subst evidence. unfold extractEvidence. rewrite decide_True by done.
  destruct (truthy (findPriceLike allText)) eqn:Hp.
  - exists 1. split; [lia|]. split; [|done].
    destruct (first_keyword_index _ _); simpl; reflexivity.
  - exists 0. split; [lia|]. split; [|done].
    destruct (first_keyword_index _ _); simpl; reflexivity.
Qed.

Lemma extractAllText_length ch page text :
  extractAllText ch page = Normal text → (N.of_nat (length text) ≤ 15000)%N.
Proof.
  unfold extractAllText. destruct ch as [ch|]; [|destruct page as [page|]].
  - destruct (body_text_without ch _); simpl; [|done].
    intros [= <-]. rewrite truncate_length. lia.
  - destruct (evaluate_visible_text page); simpl; [|done].
    intros [= <-]. rewrite truncate_length. lia.
  - by intros [= <-].
Qed.

Lemma count_words_le b s :
  2 * count_words b s ≤ length s + (if b then 0 else 1).
Proof.
  revert b. induction s as [|c s IH]; intros b; simpl; [destruct b; lia|].
  destruct (is_white_space c).
  - specialize (IH false). simpl in IH. destruct b; lia.
  - specialize (IH true). simpl in IH. destruct b; lia.
Qed.

Lemma calculateDomStats_words ch page stats :
  calculateDomStats ch page = Normal stats → 2 * words stats ≤ chars stats + 1.
Proof.
  unfold calculateDomStats. destruct ch as [ch|]; [|destruct page as [page|]].
  - destruct (body_text_without ch _) as [text|]; simpl; [|done].
    destruct (select ch _); simpl; [|done]. intros [= <-]. simpl.
    apply (count_words_le false).
  - destruct (evaluate_visible_text page) as [text|]; simpl; [|done].
    destruct (evaluate_node_count page); simpl; [|done]. intros [= <-]. simpl.
    apply (count_words_le false).
  - intros [= <-]. simpl. lia.
Qed.

Lemma parse_jsonld_bound `{Runtime} jsonld text :
  Forall (λ j, (N.of_nat (length (JSON_stringify j)) ≤ 150000)%N) jsonld →
  Forall (λ j, (N.of_nat (length (JSON_stringify j)) ≤ 150000)%N) (parse_jsonld jsonld text).
Proof.
  intros Hall. unfold parse_jsonld. destruct (JSON_parse text) as [parsed|]; [|done].
  case_decide; [|done]. apply Forall_app. split; [done|]. by apply Forall_singleton.
Qed.

Lemma extractJsonLd_bound `{Runtime} ch page jsonld :
  extractJsonLd ch page = Normal jsonld →
  Forall (λ j, (N.of_nat (length (JSON_stringify j)) ≤ 150000)%N) jsonld.
Proof.
  assert (∀ {A} (f : list json → A → list json) (xs : list A) acc,
            (∀ acc x, Forall (λ j, (N.of_nat (length (JSON_stringify j)) ≤ 150000)%N) acc →
                      Forall (λ j, (N.of_nat (length (JSON_stringify j)) ≤ 150000)%N)
                             (f acc x)) →
            Forall (λ j, (N.of_nat (length (JSON_stringify j)) ≤ 150000)%N) acc →
            Forall (λ j, (N.of_nat (length (JSON_stringify j)) ≤ 150000)%N)
                   (foldl f acc xs)) as Hfold.
  { intros A f xs. induction xs as [|x xs IH]; intros acc Hstep Hacc; simpl; [done|].
    apply IH; [done|by apply Hstep]. }
  unfold extractJsonLd. destruct ch as [ch|]; [|destruct page as [page|]].
  - destruct (select ch _) as [els|]; simpl; [|done]. intros [= <-].
    apply Hfold; [|constructor]. intros acc el. apply parse_jsonld_bound.
  - destruct (locator_all page _) as [els|]; simpl; [|done]. intros [= <-].
    apply Hfold; [|constructor]. intros acc el Hacc.
    destruct (textContent el) as [[[|c text]|]|]; try done.
    by apply parse_jsonld_bound.
  - intros [= <-]. constructor.
Qed.

Lemma truncate_nonempty str n : str ≠ [] → (0 < n)%N → truncate str n ≠ [].
Proof.
  intros Hstr Hn Hnil. apply (f_equal length) in Hnil.
  rewrite truncate_length in Hnil.
  assert (0 < length str) by (destruct str; simpl; [done|lia]).
  change (length (@nil N)) with 0 in Hnil. lia.
Qed.

Lemma truncate_length_N str n : (N.of_nat (length (truncate str n)) ≤ n)%N.
Proof. rewrite truncate_length. lia. Qed.

Lemma truncate_truncate_length str n m :
  length str ≤ n → length (truncate str m) ≤ n.
Proof. rewrite truncate_length. lia. Qed.

Section Documents.
Context `{Runtime}.

Lemma build_http_doc_bounded url html ch response t doc :
  Harvester.build_http_doc url html ch response t = Normal doc →
  bounded doc
  ∧ length (ContentDoc.text_blocks doc) ≤ 4
  ∧ ∀ m, ContentDoc.main_text doc = Some m → m ≠ [].
Proof.
  unfold Harvester.build_http_doc. intros Hd.
  repeat match type of Hd with
         | bind ?c _ = Normal _ =>
             let x := fresh "x" in let E := fresh "E" in
             destruct c as [x|] eqn:E; simpl in Hd; [|discriminate Hd]
         end.
  injection Hd as <-. unfold bounded. simpl.
  destruct (extractMetadata_spec _ _ _ E) as (Htitle & _ & _ & _ & _ & _ & Hmeta).
  destruct (extractEvidence_spec (or_empty x0.1) x1) as [Hev1 Hev2].
  pose proof (extractAllText_length (Some ch) None x1 E1) as Hall.
  pose proof (extractJsonLd_bound (Some ch) None x3 E3) as Hjson.
  pose proof (calculateDomStats_words (Some ch) None x6 E6) as Hstats.
  destruct (extractSchemaTypes_spec x3) as [Htypes _].
  assert ((∀ m, x0.1 = Some m → m ≠ [] ∧ (N.of_nat (length m) ≤ 10000)%N)
          ∧ length x0.2 ≤ 4 ∧ Forall (λ b, length b ≤ 2000) x0.2) as (Hmain & Hlen & Hblocks).
  { destruct (extractMainTextWithReadability html url) as [[|c m]|].
    - destruct (extractLargestTextBlocks ch 5) as [blocks|] eqn:Hb; simpl in E0; [|done].
      apply extractLargestTextBlocks_bounds in Hb as [Hn Hb].
      destruct blocks as [|b0 rest]; injection E0 as <-; simpl.
      + split_and!; [done|lia|constructor].
      + apply Forall_cons in Hb as [[Hb0 _] Hrest]. simpl in Hn. split_and!.
        * intros m [= <-]. split; [|apply truncate_length_N].
          apply truncate_nonempty; [intros ->; simpl in Hb0; lia|done].
        * lia.
        * eapply Forall_impl; [exact Hrest|]. simpl. intros ? [? ?]. done.
    - injection E0 as <-. simpl. split_and!; [|lia|constructor].
      intros m' [= <-]. split; [|apply truncate_length_N].
      by apply truncate_nonempty.
    - destruct (extractLargestTextBlocks ch 5) as [blocks|] eqn:Hb; simpl in E0; [|done].
      apply extractLargestTextBlocks_bounds in Hb as [Hn Hb].
      destruct blocks as [|b0 rest]; injection E0 as <-; simpl.
      + split_and!; [done|lia|constructor].
      + apply Forall_cons in Hb as [[Hb0 _] Hrest]. simpl in Hn. split_and!.
        * intros m [= <-]. split; [|apply truncate_length_N].
          apply truncate_nonempty; [intros ->; simpl in Hb0; lia|done].
        * lia.
        * eapply Forall_impl; [exact Hrest|]. simpl. intros ? [? ?]. done. }
  split_and!; try done; try lia.
  - intros m Hm. by apply Hmain.
  - by intros t0 [= <-].
  - intros m Hm. by apply Hmain.
Qed.

Lemma build_js_doc_bounded url page response t doc :
  Harvester.build_js_doc url page response t = Normal doc → bounded doc.
Proof.
  unfold Harvester.build_js_doc. intros Hd.
  repeat match type of Hd with
         | bind ?c _ = Normal _ =>
             let x := fresh "x" in let E := fresh "E" in
             destruct c as [x|] eqn:E; simpl in Hd; [|discriminate Hd]
         end.
  injection Hd as <-. unfold bounded. simpl.
  destruct (extractMetadata_spec None (Some page) x0 E0)
    as (Htitle & _ & _ & _ & _ & _ & Hmeta).
  destruct (extractEvidence_spec (or_empty x1.1) x2) as [Hev1 Hev2].
  pose proof (extractAllText_length None (Some page) x2 E2) as Hall.
  pose proof (extractJsonLd_bound None (Some page) x4 E4) as Hjson.
  pose proof (calculateDomStats_words None (Some page) x7 E7) as Hstats.
  destruct (extractSchemaTypes_spec x4) as [Htypes _].
  assert ((∀ m, x1.1 = Some m → (N.of_nat (length m) ≤ 10000)%N)
          ∧ length x1.2 ≤ 5 ∧ Forall (λ b, length b ≤ 2000) x1.2) as (Hmain & Hlen & Hblocks).
  { assert (∀ m : option jsstring * list jsstring,
              (let* mainText := evaluate_main_innerText page in
               if decide (mainText ≠ []) then
                 let* paragraphs := evaluate_main_paragraphs page in
                 Normal (Some (truncate (normalizeWhitespace mainText) 10000),
                         take 2000 <$> take 5 (sort_by_length_desc
                                                 (filter (λ t, 200 < length t) paragraphs)))
               else Normal (None, [])) = Normal m →
              (∀ t, m.1 = Some t → (N.of_nat (length t) ≤ 10000)%N)
              ∧ length m.2 ≤ 5 ∧ Forall (λ b, length b ≤ 2000) m.2) as Hfallback.
    { intros m Hm.
      destruct (evaluate_main_innerText page) as [mainText|]; simpl in Hm; [|done].
      case_decide.
      - destruct (evaluate_main_paragraphs page) as [ps|]; simpl in Hm; [|done].
        injection Hm as <-. simpl. split_and!.
        + intros ? [= <-]. apply truncate_length_N.
        + rewrite length_fmap, length_take. lia.
        + apply Forall_fmap, Forall_forall. intros b _. simpl. rewrite length_take. lia.
      - injection Hm as <-. simpl. split_and!; [done|lia|constructor]. }
    destruct (extractMainTextWithReadability x url) as [[|c m]|];
      [by apply Hfallback| |by apply Hfallback].
    injection E1 as <-. simpl. split_and!; [|lia|constructor].
    intros ? [= <-]. apply truncate_length_N. }
  split_and!; try done; try lia.
  by intros t0 [= <-].
Qed.

Lemma built_bounded doc : built doc → bounded doc.
Proof.
  intros [(url & html & ch & response & t & Hd)|(url & page & response & t & Hd)].
  - by apply build_http_doc_bounded in Hd as [? _].
  - by apply build_js_doc_bounded in Hd.
Qed.

End Documents.

(** Every document that a pipeline builds is bounded: a title that is
    present is not empty, the main text has at most 10000 units, the text
    excerpt at most 15000, there are at most five text blocks of at most
    2000 units and three evidence snippets of at most 400, the [meta] map
    has at most six entries, every JSON-LD value serializes to at most
    150000 units, the schema types are free of duplicates and the word
    count is at most half the character count, rounded up. *)
Theorem documents_are_bounded `{Runtime} (doc : ContentDoc) :
  built doc → bounded doc.
Proof. apply built_bounded. Qed.

(** The document of the page of the accept scenario is bounded. *)
Lemma acme_document_is_bounded :
  ∃ doc,
    Harvester.build_http_doc (H := Example.runtime) Example.example_url
      (root_html Example.acme_page) Example.acme_page None Example.timestamp
    = Normal doc
    ∧ bounded (H := Example.runtime) doc.
Proof.
  assert (map_completion (λ _, ())
            (Harvester.build_http_doc (H := Example.runtime) Example.example_url
               (root_html Example.acme_page) Example.acme_page None Example.timestamp)
          = Normal ()) as Hbuilt by (vm_compute; reflexivity).
  destruct (Harvester.build_http_doc (H := Example.runtime) Example.example_url
              (root_html Example.acme_page) Example.acme_page None Example.timestamp)
    as [doc|e] eqn:Hdoc; [|discriminate Hbuilt].
  exists doc. split; [reflexivity|].
  apply (documents_are_bounded (H := Example.runtime)). left. by repeat eexists.
Defined.

(** ** The probe extractors of [ParseUtils] *)

Lemma trim_head s c : head (trim s) = Some c → is_white_space c = false.
Proof.
  rewrite trim_eq. intros Hc. destruct (is_white_space c) eqn:Hws; [|done]. exfalso.
  destruct (trimStart s) as [|d t] eqn:Ht; [done|].
  assert (is_white_space d = false) as Hd.
  { apply (head_trimStart s d). by rewrite Ht. }
  rewrite (head_trimEnd (d :: t) d) in Hc by done. congruence.
Qed.

Lemma trim_last s c : last (trim s) = Some c → is_white_space c = false.
Proof. rewrite trim_eq. apply last_trimEnd. Qed.

Lemma first_text_head accept els :
  Hybrid.first_text accept els
  = head (filter (λ text, accept text = true) ((λ el, trim (el_text el)) <$> els)).
Proof.
  induction els as [|el els IH]; simpl; [done|].
  destruct (accept (trim (el_text el))) eqn:Ha.
  - by rewrite filter_cons_True.
  - rewrite filter_cons_False by congruence. exact IH.
Qed.

Lemma first_textContent_accept accept els text :
  Hybrid.first_textContent accept els = Normal (Some text) →
  accept text = true ∧ ∃ raw, text = trim raw.
Proof.
  induction els as [|el els IH]; simpl; [done|].
  destruct (textContent el) as [t|]; simpl; [|done].
  destruct (truthy t && accept (trim (or_empty t))) eqn:Ha; [|exact IH].
  intros [= <-]. apply andb_prop in Ha as [_ Ha]. eauto.
Qed.

Lemma extract_with_accept selector accept ch page text :
  Hybrid.extract_with selector accept ch page = Normal (Some text) →
  accept text = true ∧ ∃ raw, text = trim raw.
Proof.
  unfold Hybrid.extract_with. destruct ch as [ch|]; [|destruct page as [page|]].
  - destruct (select ch selector) as [els|]; simpl; [|done].
    rewrite first_text_head. intros [= Hhead].
    apply head_Some_elem_of, list_elem_of_filter in Hhead as [Ha Hin].
    apply list_elem_of_fmap in Hin as (el & -> & _). eauto.
  - unfold try_catch.
    destruct (locator_all page selector) as [els|]; simpl; [|done].
    destruct (Hybrid.first_textContent accept els) as [v|] eqn:Hv; [|done].
    intros [= ->]. by eapply first_textContent_accept.
  - done.
Qed.

(** Each of the three probe extractors returns the first text, in
    document order and trimmed, that passes its test (non-empty and
    shorter than 200 units, or non-empty with a digit); what it returns
    has no white space at its ends; on the fallback path it never throws;
    so the critical fields are complete exactly when the three
    extractors returned a text. *)
Theorem probe_extractors_first_match
    (extract : option CheerioAPI → option Page → completion (option jsstring))
    (selector : jsstring) (accept : jsstring → bool) :
  (extract, selector, accept) ∈ probe_extractors →
  (∀ ch page els,
     select ch selector = Normal els →
     extract (Some ch) page
     = Normal (head (filter (λ text, accept text = true)
                            ((λ el, trim (el_text el)) <$> els))))
  ∧ (∀ ch page text,
       extract ch page = Normal (Some text) →
       accept text = true ∧ text ≠ []
       ∧ (∀ c, head text = Some c → is_white_space c = false)
       ∧ (∀ c, last text = Some c → is_white_space c = false))
  ∧ (∀ page, ∃ v, extract None (Some page) = Normal v)
  ∧ (∀ ch page u t title prov price,
       Hybrid.extractServiceTitle ch page = Normal title →
       Hybrid.extractProvider ch page = Normal prov →
       Hybrid.extractPriceText ch page = Normal price →
       Hybrid.hasCriticalFields
         {| Hybrid.url := u; Hybrid.timestampISO := t; Hybrid.serviceTitle := title;
            Hybrid.provider := prov; Hybrid.priceText := price |} = true
       ↔ is_Some title ∧ is_Some prov ∧ is_Some price).
Proof.
  intros Hin.
  assert (extract = Hybrid.extract_with selector accept
          ∧ ∀ text, accept text = true → text ≠ []) as [-> Hne].
  { unfold probe_extractors in Hin.
    repeat (apply elem_of_cons in Hin as [[= -> -> ->]|Hin]);
      [..|by apply elem_of_nil in Hin];
      (split; [reflexivity|]);
      intros text [Hlen _]%andb_prop Hnil; subst text;
      apply bool_decide_eq_true in Hlen; simpl in Hlen; lia. }
  split_and!.
  - intros ch page els Hels. unfold Hybrid.extract_with. rewrite Hels. simpl.
    by rewrite first_text_head.
  - intros ch page text Htext.
    destruct (extract_with_accept _ _ _ _ _ Htext) as [Ha [raw ->]].
    split_and!; [done|by apply Hne|apply trim_head|apply trim_last].
  - apply HybridFacts.extract_with_page_Normal.
  - intros ch page u t title prov price Ht Hp Hpr. unfold Hybrid.hasCriticalFields. simpl.
    assert (∀ sel acc v, (∀ text, acc text = true → text ≠ []) →
              Hybrid.extract_with sel acc ch page = Normal v →
              truthy v = true ↔ is_Some v) as Htruthy.
    { intros sel acc [text|] Hacc Hv; simpl; [|split; [done|by intros [? ?]]].
      apply extract_with_accept in Hv as [Ha _]. apply Hacc in Ha.
      destruct text; [done|]. split; [by eexists|done]. }
    assert (∀ text, Hybrid.short_text text = true → text ≠ []) as Hshort.
    { intros text [Hlen _]%andb_prop ->.
      apply bool_decide_eq_true in Hlen. simpl in Hlen. lia. }
    assert (∀ text, Hybrid.priced_text text = true → text ≠ []) as Hpriced.
    { intros text [Hlen _]%andb_prop ->.
      apply bool_decide_eq_true in Hlen. simpl in Hlen. lia. }
    rewrite !andb_true_iff.
    rewrite (Htruthy _ _ _ Hshort Ht), (Htruthy _ _ _ Hshort Hp),
      (Htruthy _ _ _ Hpriced Hpr). tauto.
Qed.

(** On a page with a label without digits, a price with white space around
    it and another price, the price text is the first price, trimmed. *)
Lemma price_page_first_price :
  Hybrid.extractPriceText (Some Sample.price_page) None = Normal (Some (lit "995 kr")).
Proof.
  destruct (probe_extractors_first_match Hybrid.extractPriceText
              Hybrid.priceTextSelector Hybrid.priced_text) as (Hfirst & _).
  - do 2 apply list_elem_of_further. apply list_elem_of_here.
  - rewrite (Hfirst Sample.price_page None
               [Example.element (lit " from "); Example.element (lit "  995 kr ");
                Example.element (lit "1 200 kr")]) by (vm_compute; reflexivity).
    vm_compute. reflexivity.
Defined.

(** ** Runs of the content harvester *)

Section MoreQueueFacts.
Variable w : World.

Lemma addRequest_keys q url key needs :
  NoDup (uniqueKey <$> requests q) →
  NoDup (uniqueKey <$> requests (addRequest w q url key needs)).
Proof.
  intros Hnd. unfold addRequest. case_decide as Hkey; [done|]. simpl.
  rewrite fmap_app. apply NoDup_app. split_and!; [done| |apply NoDup_singleton].
  intros k Hk [->|[]%elem_of_nil]%elem_of_cons. done.
Qed.

Lemma seed_queue_keys urls : NoDup (uniqueKey <$> requests (seed_queue w urls)).
Proof.
  unfold seed_queue.
  apply (foldl_invariant (λ q, NoDup (uniqueKey <$> requests q))).
  - constructor.
  - intros q url _. apply addRequest_keys.
Qed.

(** Two start requests of the queue never share a URL. *)
Lemma seed_queue_urls urls : NoDup (request_url <$> requests (seed_queue w urls)).
Proof.
  pose proof (seed_queue_keys urls) as Hkeys.
  destruct (seed_queue_spec w urls) as (_ & _ & Hall).
  assert (uniqueKey <$> requests (seed_queue w urls)
          = computeUniqueKey w <$> (request_url <$> requests (seed_queue w urls))) as Heq.
  { rewrite <- list_fmap_compose. apply Forall_fmap_ext_1, Forall_forall.
    intros r Hr. by destruct (Hall r Hr) as (_ & -> & _). }
  rewrite Heq in Hkeys. by apply NoDup_fmap_1 in Hkeys.
Qed.

Lemma reenqueue_added q urls :
  handledCount (reenqueue w q urls) = handledCount q
  ∧ ∃ added, requests (reenqueue w q urls) = requests q ++ added
             ∧ added `sublist_of` (fallback_request <$> urls).
Proof.
  unfold reenqueue. revert q. induction urls as [|u urls IH]; intros q; simpl.
  - split; [done|]. exists []. by rewrite app_nil_r.
  - destruct (IH (addRequest w q u (Some (js_fallback_key u)) (Some true)))
      as (Hh & added & Hreq & Hsub).
    rewrite Hh, Hreq. unfold addRequest. simpl. case_decide; simpl.
    + split; [done|]. exists added. split; [done|]. by apply sublist_cons.
    + split; [done|]. exists (fallback_request u :: added).
      split; [by rewrite <- app_assoc|]. by apply sublist_skip.
Qed.

End MoreQueueFacts.

Section HarvesterRuns.
Context `{Runtime}.
Variable w : World.

Lemma stored_Some r d :
  stored w r = Some d →
  ContentDoc.url d = request_url r ∧ ContentDoc.render_mode d = http
  ∧ ¬ Harvester.defers w r
  ∧ ∃ t m, ContentDoc.title d = Some t ∧ t ≠ []
           ∧ ContentDoc.main_text d = Some m ∧ m ≠ [].
Proof.
  unfold stored, Harvester.defers, Harvester.fast_result.
  destruct (fetch w (request_url r)) as [[response ch]|]; [|done].
  destruct (Harvester.build_http_doc _ _ _ _ _) as [doc|] eqn:Hdoc; [|done].
  destruct (Harvester.critical_missing doc) eqn:Hmiss; [done|]. intros [= <-].
  destruct (HarvesterFacts.build_http_doc_url _ _ _ _ _ _ Hdoc) as [Hurl Hmode].
  destruct (build_http_doc_bounded _ _ _ _ _ _ Hdoc) as ((Htitle & _) & _ & Hmain).
  split_and!; [done|done|done|].
  unfold Harvester.critical_missing in Hmiss.
  apply orb_false_elim in Hmiss as [Ht%negb_false_iff Hm%negb_false_iff].
  destruct (ContentDoc.title doc) as [t|] eqn:Et; [|done].
  destruct (ContentDoc.main_text doc) as [m|] eqn:Em; [|done].
  exists t, m. split_and!; [done|by apply Htitle|done|by apply Hmain].
Qed.

Lemma deferred_url_Some r u :
  deferred_url w r = Some u → u = request_url r ∧ Harvester.defers w r.
Proof.
  unfold deferred_url, Harvester.defers.
  destruct (Harvester.fast_result w r) as [[doc|e]|]; [|by intros [= <-]|done].
  destruct (Harvester.critical_missing doc); [by intros [= <-]|done].
Qed.

Lemma rendered_Some r d :
  rendered w r = Some d →
  ContentDoc.url d = request_url r ∧ ContentDoc.render_mode d = js ∧ needsJs r = true.
Proof.
  unfold rendered. destruct (needsJs r); [|done].
  destruct (navigate w (request_url r)) as [[response page]|]; [|done].
  destruct (Harvester.build_js_doc _ _ _ _) as [doc|] eqn:Hdoc; [|done].
  intros [= <-]. by destruct (HarvesterFacts.build_js_doc_url _ _ _ _ _ Hdoc).
Qed.

Lemma cheerio_step_eq st r :
  Harvester.fallbackUrls (Harvester.cheerio_step w st r)
  = Harvester.fallbackUrls st ++ option_list (deferred_url w r)
  ∧ Harvester.dataset (Harvester.cheerio_step w st r)
    = Harvester.dataset st ++ option_list (stored w r).
Proof.
  unfold Harvester.cheerio_step, deferred_url, stored, Harvester.fast_result.
  destruct (fetch w (request_url r)) as [[response ch]|];
    [|by rewrite !app_nil_r].
  rewrite HarvesterFacts.cheerio_requestHandler_cases.
  destruct (Harvester.build_http_doc _ _ _ _ _) as [doc|]; simpl;
    [|by rewrite app_nil_r].
  destruct (Harvester.critical_missing doc); simpl; by rewrite app_nil_r.
Qed.

Lemma fast_fold_eq rs st :
  Harvester.fallbackUrls (foldl (Harvester.cheerio_step w) st rs)
  = Harvester.fallbackUrls st ++ omap (deferred_url w) rs
  ∧ Harvester.dataset (foldl (Harvester.cheerio_step w) st rs)
    = Harvester.dataset st ++ omap (stored w) rs.
Proof.
  revert st. induction rs as [|r rs IH]; intros st; simpl; [by rewrite !app_nil_r|].
  destruct (IH (Harvester.cheerio_step w st r)) as [-> ->].
  destruct (cheerio_step_eq st r) as [-> ->].
  rewrite <- !app_assoc.
  split; f_equal; [by destruct (deferred_url w r)|by destruct (stored w r)].
Qed.

Lemma playwright_step_eq st r :
  Harvester.fallbackUrls (Harvester.playwright_step w st r) = Harvester.fallbackUrls st
  ∧ Harvester.dataset (Harvester.playwright_step w st r)
    = Harvester.dataset st ++ option_list (rendered w r).
Proof.
  unfold Harvester.playwright_step, rendered.
  destruct (navigate w (request_url r)) as [[response page]|].
  - destruct (needsJs r) eqn:Hjs.
    + rewrite HarvesterFacts.playwright_requestHandler_cases by done.
      destruct (Harvester.build_js_doc _ _ _ _); simpl; by rewrite ?app_nil_r.
    + unfold Harvester.playwright_requestHandler. rewrite Hjs. simpl.
      by rewrite app_nil_r.
  - destruct (needsJs r); by rewrite app_nil_r.
Qed.

Lemma playwright_fold_eq rs st :
  Harvester.fallbackUrls (foldl (Harvester.playwright_step w) st rs)
  = Harvester.fallbackUrls st
  ∧ Harvester.dataset (foldl (Harvester.playwright_step w) st rs)
    = Harvester.dataset st ++ omap (rendered w) rs.
Proof.
  revert st. induction rs as [|r rs IH]; intros st; simpl; [by rewrite !app_nil_r|].
  destruct (IH (Harvester.playwright_step w st r)) as [-> ->].
  destruct (playwright_step_eq st r) as [-> ->].
  rewrite <- !app_assoc. split; [done|]. f_equal. by destruct (rendered w r).
Qed.

Lemma say_fields line st :
  Harvester.fallbackUrls (Harvester.say line st) = Harvester.fallbackUrls st
  ∧ Harvester.dataset (Harvester.say line st) = Harvester.dataset st.
Proof. done. Qed.

(** The state at the barrier, by the batch of start requests handled. *)
Lemma fast_pass_eq config :
  let seeds := seed_queue w (Harvester.startUrls config) in
  let batch := take (Harvester.max_requests config) (requests seeds) in
  requests (Harvester.fast_pass w config).1 = requests seeds
  ∧ handledCount (Harvester.fast_pass w config).1 = length batch
  ∧ Harvester.fallbackUrls (Harvester.fast_pass w config).2 = omap (deferred_url w) batch
  ∧ Harvester.dataset (Harvester.fast_pass w config).2 = omap (stored w) batch.
Proof.
  intros seeds batch. unfold Harvester.fast_pass, crawl.
  destruct (seed_queue_spec w (Harvester.startUrls config)) as (Hh & _ & _).
  fold seeds in Hh |- *. unfold pending. rewrite Hh, Nat.sub_0_r. simpl.
  change (drop 0 (requests seeds)) with (requests seeds). fold batch.
  match goal with
  | |- context [foldl (Harvester.cheerio_step w) ?s batch] =>
      destruct (fast_fold_eq batch s) as [Hfb Hds]
  end.
  split_and!; [done|done|exact Hfb|exact Hds].
Qed.

(** The data set after [run], by the batch of requests the fallback pass
    handles. *)
Lemma run_eq config :
  let seeds := seed_queue w (Harvester.startUrls config) in
  let batch := take (Harvester.max_requests config) (requests seeds) in
  let barrier := (Harvester.fast_pass w config).2 in
  ∃ added batch2,
    added `sublist_of` (fallback_request <$> Harvester.fallbackUrls barrier)
    ∧ batch2 `sublist_of` (requests seeds ++ added)
    ∧ length batch2 ≤ Harvester.max_requests config - length batch
    ∧ Harvester.dataset (Harvester.run w config).2
      = Harvester.dataset barrier ++ omap (rendered w) batch2
    ∧ handledCount (Harvester.run w config).1 = length batch + length batch2.
Proof.
  intros seeds batch barrier.
  destruct (fast_pass_eq config) as (Hreq & Hh & _ & _).
  fold seeds batch in Hreq, Hh.
  unfold Harvester.run. subst barrier.
  destruct (Harvester.fast_pass w config) as [q1 st1]. simpl in *.
  case_decide as Hfb.
  - rewrite decide_True by done.
    destruct (reenqueue_added w q1 (Harvester.fallbackUrls st1))
      as (Hh2 & added & Hreq2 & Hsub).
    set (q2 := reenqueue w q1 (Harvester.fallbackUrls st1)) in *.
    exists added, (take (Harvester.max_requests config - handledCount q2) (pending q2)).
    unfold crawl. simpl.
    match goal with
    | |- context [foldl (Harvester.playwright_step w) ?s ?rs] =>
        destruct (playwright_fold_eq rs s) as [_ Hds]
    end.
    rewrite Hds, Hh2, Hh. split_and!; [done| |rewrite length_take; lia|done|done].
    etrans; [apply sublist_take|]. unfold pending.
    etrans; [apply sublist_drop|]. by rewrite Hreq2, Hreq.
  - rewrite decide_False by done. exists [], []. simpl. rewrite !app_nil_r.
    split_and!; [apply sublist_nil_l|apply sublist_nil_l|lia|done|lia].
Qed.

End HarvesterRuns.

Lemma omap_sublist {A B} (f : A → option B) l1 l2 :
  l1 `sublist_of` l2 → omap f l1 `sublist_of` omap f l2.
Proof.
  induction 1 as [|x l1 l2 _ IH|x l1 l2 _ IH]; simpl; [done|..].
  - destruct (f x); [by apply sublist_skip|done].
  - destruct (f x); [by apply sublist_cons|done].
Qed.

Lemma omap_fmap_sublist {A B C} (f : A → option B) (g : B → C) (h : A → C) rs :
  (∀ r d, f r = Some d → g d = h r) → g <$> omap f rs `sublist_of` h <$> rs.
Proof.
  intros Hgh. induction rs as [|r rs IH]; simpl; [done|].
  destruct (f r) as [d|] eqn:Hf; simpl.
  - rewrite (Hgh r d Hf). by apply sublist_skip.
  - by apply sublist_cons.
Qed.

Lemma omap_nil {A B} (f : A → option B) rs :
  (∀ r, r ∈ rs → f r = None) → omap f rs = [].
Proof.
  induction rs as [|r rs IH]; intros Hnone; simpl; [done|].
  rewrite (Hnone r) by apply list_elem_of_here.
  apply IH. intros r' Hr'. by apply Hnone, list_elem_of_further.
Qed.

Section HarvesterRunTheorems.
Context `{Runtime}.
Variable w : World.

Lemma run_documents config :
  let barrier := (Harvester.fast_pass w config).2 in
  let final := (Harvester.run w config).2 in
  ∃ rendered_docs,
    Harvester.dataset final = Harvester.dataset barrier ++ rendered_docs
    ∧ Forall (λ d, ContentDoc.render_mode d = http
                   ∧ ∃ t m, ContentDoc.title d = Some t ∧ t ≠ []
                            ∧ ContentDoc.main_text d = Some m ∧ m ≠ [])
             (Harvester.dataset barrier)
    ∧ Forall (λ d, ContentDoc.render_mode d = js
                   ∧ ContentDoc.url d ∈ Harvester.fallbackUrls barrier) rendered_docs
    ∧ (∀ d, d ∈ Harvester.dataset final → ContentDoc.url d ∈ Harvester.startUrls config)
    ∧ NoDup (ContentDoc.url <$> Harvester.dataset final)
    ∧ NoDup (Harvester.fallbackUrls barrier)
    ∧ (∀ d, d ∈ Harvester.dataset barrier →
            ContentDoc.url d ∉ Harvester.fallbackUrls barrier).
Proof.
  intros barrier final.
  destruct (fast_pass_eq w config) as (_ & _ & Hfbs & Hds).
  destruct (run_eq w config) as (added & batch2 & Hadded & Hbatch2 & _ & Hfinal & _).
  fold barrier in Hfbs, Hds, Hadded, Hfinal. fold final in Hfinal.
  set (seeds := seed_queue w (Harvester.startUrls config)) in *.
  set (batch := take (Harvester.max_requests config) (requests seeds)) in *.
  destruct (seed_queue_spec w (Harvester.startUrls config)) as (_ & _ & Hseeds).
  fold seeds in Hseeds.
  pose proof (seed_queue_urls w (Harvester.startUrls config)) as Hnd. fold seeds in Hnd.
  assert (batch `sublist_of` requests seeds) as Hbatch by apply sublist_take.
  assert (NoDup (request_url <$> batch)) as Hndb.
  { eapply sublist_NoDup; [exact Hnd|]. by apply fmap_sublist. }
  assert (NoDup (Harvester.fallbackUrls barrier)) as Hndf.
  { rewrite Hfbs. eapply sublist_NoDup; [exact Hndb|].
    rewrite <- (list_fmap_id (omap _ _)). apply omap_fmap_sublist.
    intros r u Hu. by apply deferred_url_Some in Hu as [-> _]. }
  assert (omap (rendered w) (requests seeds) = []) as Hnone.
  { apply omap_nil. intros r Hr. destruct (Hseeds r Hr) as (_ & _ & Hjs).
    unfold rendered, needsJs. by rewrite Hjs. }
  assert (ContentDoc.url <$> omap (rendered w) batch2
          `sublist_of` Harvester.fallbackUrls barrier) as Hrendered.
  { etrans; [apply fmap_sublist, omap_sublist, Hbatch2|].
    rewrite omap_app, Hnone. simpl.
    etrans; [apply (omap_fmap_sublist _ _ request_url)|].
    { intros r d Hd. by apply rendered_Some in Hd as [? _]. }
    etrans; [apply fmap_sublist, Hadded|].
    rewrite <- list_fmap_compose.
    by rewrite (list_fmap_ext (request_url ∘ fallback_request) id), list_fmap_id. }
  assert (∀ d, d ∈ Harvester.dataset barrier →
               ContentDoc.url d ∉ Harvester.fallbackUrls barrier) as Hdisjoint.
  { intros d Hd Hu. rewrite Hds in Hd. rewrite Hfbs in Hu.
    apply list_elem_of_omap in Hd as (r & Hr & Hstored).
    apply list_elem_of_omap in Hu as (r' & Hr' & Hdeferred).
    apply stored_Some in Hstored as (Hurl & _ & Hnd' & _).
    apply deferred_url_Some in Hdeferred as [Hurl' Hd'].
    apply Hnd'. apply (HarvesterFacts.defers_same_url w r' r); [congruence|done]. }
  exists (omap (rendered w) batch2). split_and!; [done|..|done|done].
  - rewrite Hds. apply Forall_forall. intros d (r & Hr & Hd)%list_elem_of_omap.
    by apply stored_Some in Hd as (_ & ? & _ & ?).
  - apply Forall_forall. intros d Hd. split.
    + apply list_elem_of_omap in Hd as (r & _ & Hd).
      by apply rendered_Some in Hd as (_ & ? & _).
    + eapply elem_of_sublist; [|exact Hrendered]. by apply list_elem_of_fmap_2.
  - intros d. rewrite Hfinal. intros [Hd|Hd]%elem_of_app.
    + rewrite Hds in Hd. apply list_elem_of_omap in Hd as (r & Hr & Hd).
      apply stored_Some in Hd as (-> & _).
      apply Hseeds. eapply elem_of_sublist; [exact Hr|exact Hbatch].
    + assert (ContentDoc.url d ∈ Harvester.fallbackUrls barrier) as Hu.
      { eapply elem_of_sublist; [|exact Hrendered]. by apply list_elem_of_fmap_2. }
      rewrite Hfbs in Hu. apply list_elem_of_omap in Hu as (r & Hr & Hu).
      apply deferred_url_Some in Hu as [-> _].
      apply Hseeds. eapply elem_of_sublist; [exact Hr|exact Hbatch].
  - rewrite Hfinal, fmap_app. apply NoDup_app. split_and!.
    + rewrite Hds. eapply sublist_NoDup; [exact Hndb|].
      apply omap_fmap_sublist. intros r d Hd. by apply stored_Some in Hd as [? _].
    + intros u (d & -> & Hd)%list_elem_of_fmap Hu.
      apply (Hdisjoint d Hd). eapply elem_of_sublist; [exact Hu|exact Hrendered].
    + eapply sublist_NoDup; [exact Hndf|exact Hrendered].
Qed.

End HarvesterRunTheorems.

(** A run of the content harvester stores at most one document for a
    URL. The documents of the fast pass come first: they have render mode
    [http], a title and a main text. The documents of the fallback pass
    follow: they have render mode [js] and their URLs are on the fallback
    list, on which no URL is twice and no URL of a stored fast-pass
    document is. Every URL of a stored document is a start URL. *)
Theorem harvester_run_stores_each_url_once `{Runtime}
    (w : World) (config : Harvester.Config) :
  let barrier := (Harvester.fast_pass w config).2 in
  let final := (Harvester.run w config).2 in
  ∃ rendered_docs,
    Harvester.dataset final = Harvester.dataset barrier ++ rendered_docs
    ∧ Forall (λ d, ContentDoc.render_mode d = http
                   ∧ ∃ t m, ContentDoc.title d = Some t ∧ t ≠ []
                            ∧ ContentDoc.main_text d = Some m ∧ m ≠ [])
             (Harvester.dataset barrier)
    ∧ Forall (λ d, ContentDoc.render_mode d = js
                   ∧ ContentDoc.url d ∈ Harvester.fallbackUrls barrier) rendered_docs
    ∧ (∀ d, d ∈ Harvester.dataset final → ContentDoc.url d ∈ Harvester.startUrls config)
    ∧ NoDup (ContentDoc.url <$> Harvester.dataset final)
    ∧ NoDup (Harvester.fallbackUrls barrier)
    ∧ (∀ d, d ∈ Harvester.dataset barrier →
            ContentDoc.url d ∉ Harvester.fallbackUrls barrier).
Proof. apply run_documents. Qed.

(** The two crawlers share one request queue, and [maxRequestsPerCrawl]
    bounds the requests the queue has handled: when the queue holds at
    least that many start requests, the fast pass uses the whole budget,
    the fallback pass handles no request, and no deferred URL gets a
    document. *)
Theorem harvester_budget_is_shared `{Runtime} (w : World) (config : Harvester.Config) :
  Harvester.max_requests config
  ≤ length (requests (seed_queue w (Harvester.startUrls config))) →
  handledCount (Harvester.fast_pass w config).1 = Harvester.max_requests config
  ∧ handledCount (Harvester.run w config).1 = Harvester.max_requests config
  ∧ Harvester.dataset (Harvester.run w config).2
    = Harvester.dataset (Harvester.fast_pass w config).2
  ∧ Forall (λ d, ContentDoc.render_mode d = http)
           (Harvester.dataset (Harvester.run w config).2)
  ∧ (∀ u d, u ∈ Harvester.fallbackUrls (Harvester.fast_pass w config).2 →
            d ∈ Harvester.dataset (Harvester.run w config).2 → ContentDoc.url d ≠ u).
Proof.
  intros Hbudget.
  destruct (fast_pass_eq w config) as (_ & Hh & _ & _).
  destruct (run_eq w config) as (added & batch2 & _ & _ & Hlen & Hfinal & Hh2).
  destruct (run_documents w config) as (docs & _ & Hhttp & _ & _ & _ & _ & Hdisjoint).
  rewrite length_take in Hh, Hlen, Hh2.
  assert (batch2 = []) as -> by (apply length_zero_iff_nil; lia).
  simpl in Hfinal. rewrite app_nil_r in Hfinal. simpl in Hh2.
  split_and!; [lia|lia|done|..].
  - rewrite Hfinal. eapply Forall_impl; [exact Hhttp|]. by intros d [? _].
  - intros u d Hu Hd Heq. subst u. rewrite Hfinal in Hd. by apply (Hdisjoint d Hd).
Qed.

(** With a budget of one request, a start URL whose static page is blank
    is deferred and never rendered: the run stores nothing. *)
Lemma budget_of_one_renders_nothing :
  let config := {| Harvester.startUrls := [Example.example_url];
                   Harvester.maxRequestsPerCrawl := Some 1 |} in
  let w := Example.uniform_world Example.blank_page Example.blank_rendered in
  Harvester.fallbackUrls (Harvester.fast_pass (H := Example.runtime) w config).2
  = [Example.example_url]
  ∧ Harvester.dataset (Harvester.run (H := Example.runtime) w config).2 = [].
Proof.
  intros config w. split; [vm_compute; reflexivity|].
  destruct (harvester_budget_is_shared (H := Example.runtime) w config)
    as (_ & _ & -> & _).
  - vm_compute. lia.
  - vm_compute. reflexivity.
Defined.

(** ** Runs of the hybrid crawler *)

Section HybridRuns.
Variable w : World.

Lemma deferred_probe_Some r u : deferred_probe w r = Some u → u = request_url r.
Proof.
  unfold deferred_probe.
  destruct (fetch w (request_url r)) as [[response ch]|]; [|done].
  destruct (Hybrid.extractServiceTitle _ _) as [title|]; [|done].
  destruct (Hybrid.extractProvider _ _) as [prov|]; [|done].
  destruct (Hybrid.extractPriceText _ _) as [price|]; [|done].
  destruct (truthy title && truthy prov && truthy price); [done|]. by intros [= <-].
Qed.

Lemma hybrid_cheerio_step_eq st r :
  let st' := Hybrid.cheerio_step w st r in
  Hybrid.dataset st' = Hybrid.dataset st
  ∧ Hybrid.js_processed (Hybrid.stats st') = Hybrid.js_processed (Hybrid.stats st)
  ∧ Hybrid.fallback_enqueued (Hybrid.stats st')
    = Hybrid.fallback_enqueued (Hybrid.stats st) + length (option_list (deferred_probe w r))
  ∧ Hybrid.fallbackUrls st'
    = (if decide (length (Hybrid.fallbackUrls st) < 10)
       then Hybrid.fallbackUrls st ++ option_list (deferred_probe w r)
       else Hybrid.fallbackUrls st).
Proof.
  unfold Hybrid.cheerio_step, deferred_probe.
  destruct (fetch w (request_url r)) as [[response ch]|];
    [|simpl; split_and!; [done|done|lia|by case_decide; rewrite ?app_nil_r]].
  unfold Hybrid.cheerio_requestHandler, Hybrid.hasCriticalFields.
  generalize (Hybrid.extractServiceTitle (Some ch) None)
             (Hybrid.extractProvider (Some ch) None)
             (Hybrid.extractPriceText (Some ch) None).
  intros [title|] [prov|] [price|]; cbn [bind];
    try (cbn; split_and!; [done|done|lia|by case_decide; rewrite ?app_nil_r]).
  cbn. destruct (truthy title && truthy prov && truthy price); cbn.
  - split_and!; [done|done|lia|by case_decide; rewrite ?app_nil_r].
  - split_and!; [by case_decide|by case_decide| |by case_decide].
    case_decide; cbn; lia.
Qed.

Lemma hybrid_fast_fold rs st :
  length (Hybrid.fallbackUrls st) ≤ 10 →
  let st' := foldl (Hybrid.cheerio_step w) st rs in
  Hybrid.dataset st' = Hybrid.dataset st
  ∧ Hybrid.js_processed (Hybrid.stats st') = Hybrid.js_processed (Hybrid.stats st)
  ∧ Hybrid.fallback_enqueued (Hybrid.stats st')
    = Hybrid.fallback_enqueued (Hybrid.stats st) + length (omap (deferred_probe w) rs)
  ∧ Hybrid.fallbackUrls st'
    = take 10 (Hybrid.fallbackUrls st ++ omap (deferred_probe w) rs).
Proof.
  revert st. induction rs as [|r rs IH]; intros st Hlen; simpl.
  - rewrite app_nil_r, take_ge by done. split_and!; [done|done|lia|done].
  - destruct (hybrid_cheerio_step_eq st r) as (Hds & Hjs & Hfe & Hfb).
    destruct (IH (Hybrid.cheerio_step w st r)) as (-> & -> & -> & ->).
    { rewrite Hfb. case_decide; [|done]. rewrite length_app.
      destruct (deferred_probe w r); simpl; lia. }
    rewrite Hds, Hjs, Hfe, Hfb. split_and!; [done|done| |].
    + unfold omap. destruct (deferred_probe w r); simpl; lia.
    + unfold omap. case_decide as Hlt.
      * rewrite <- app_assoc. by destruct (deferred_probe w r).
      * assert (length (Hybrid.fallbackUrls st) = 10) as Hten by lia.
        rewrite !take_app_le by lia. done.
Qed.

Lemma hybrid_cheerio_step_seen st r :
  Hybrid.seen (Hybrid.stats (Hybrid.cheerio_step w st r)) ≤ Hybrid.seen (Hybrid.stats st) + 1.
Proof.
  unfold Hybrid.cheerio_step.
  destruct (fetch w (request_url r)) as [[response ch]|]; [|lia].
  destruct (HybridFacts.cheerio_requestHandler_outcome st (request_url r) ch (now w r))
    as [-> _ _| -> _ _|e -> _ _]; simpl; lia.
Qed.

Lemma hybrid_fast_fold_seen rs st :
  Hybrid.seen (Hybrid.stats (foldl (Hybrid.cheerio_step w) st rs))
  ≤ Hybrid.seen (Hybrid.stats st) + length rs.
Proof.
  revert st. induction rs as [|r rs IH]; intros st; simpl; [lia|].
  specialize (IH (Hybrid.cheerio_step w st r)).
  pose proof (hybrid_cheerio_step_seen st r). lia.
Qed.

Lemma hybrid_playwright_step_eq st r :
  let st' := Hybrid.playwright_step w st r in
  Hybrid.fallbackUrls st' = Hybrid.fallbackUrls st
  ∧ Hybrid.seen (Hybrid.stats st') = Hybrid.seen (Hybrid.stats st)
  ∧ Hybrid.http_ok (Hybrid.stats st') = Hybrid.http_ok (Hybrid.stats st)
  ∧ Hybrid.fallback_enqueued (Hybrid.stats st') = Hybrid.fallback_enqueued (Hybrid.stats st)
  ∧ ∃ ds, Hybrid.dataset st' = Hybrid.dataset st ++ ds
          ∧ Hybrid.cd_url <$> ds = request_url <$> filter (probed w) [r]
          ∧ Hybrid.js_processed (Hybrid.stats st')
            = Hybrid.js_processed (Hybrid.stats st) + length ds.
Proof.
  unfold Hybrid.playwright_step, probed.
  rewrite filter_cons, filter_nil.
  destruct (navigate w (request_url r)) as [[response page]|].
  - unfold Hybrid.playwright_requestHandler.
    destruct (needsJs r); cbn [negb andb].
    + destruct (HybridFacts.extract_with_page_Normal
                  Hybrid.serviceTitleSelector Hybrid.short_text page) as [title Ht].
      destruct (HybridFacts.extract_with_page_Normal
                  Hybrid.providerSelector Hybrid.short_text page) as [prov Hp].
      destruct (HybridFacts.extract_with_page_Normal
                  Hybrid.priceTextSelector Hybrid.priced_text page) as [price Hc].
      unfold Hybrid.extractServiceTitle, Hybrid.extractProvider, Hybrid.extractPriceText.
      rewrite Ht, Hp, Hc. cbn [bind].
      rewrite decide_True
        by (apply bool_decide_pack; by eexists).
      split_and!; [done..|]. eexists [_]. split_and!; [done|done|]. simpl. lia.
    + rewrite decide_False by (by intros ?).
      split_and!; [done..|]. exists []. rewrite app_nil_r. split_and!; [done|done|simpl; lia].
  - rewrite andb_false_r, decide_False by (by intros ?).
    split_and!; [done..|]. exists []. rewrite app_nil_r. split_and!; [done|done|simpl; lia].
Qed.

Lemma hybrid_playwright_fold rs st :
  let st' := foldl (Hybrid.playwright_step w) st rs in
  Hybrid.fallbackUrls st' = Hybrid.fallbackUrls st
  ∧ Hybrid.seen (Hybrid.stats st') = Hybrid.seen (Hybrid.stats st)
  ∧ Hybrid.http_ok (Hybrid.stats st') = Hybrid.http_ok (Hybrid.stats st)
  ∧ Hybrid.fallback_enqueued (Hybrid.stats st') = Hybrid.fallback_enqueued (Hybrid.stats st)
  ∧ ∃ ds, Hybrid.dataset st' = Hybrid.dataset st ++ ds
          ∧ Hybrid.cd_url <$> ds = request_url <$> filter (probed w) rs
          ∧ Hybrid.js_processed (Hybrid.stats st')
            = Hybrid.js_processed (Hybrid.stats st) + length ds.
Proof.
  revert st. induction rs as [|r rs IH]; intros st; simpl.
  - split_and!; [done..|]. exists []. rewrite app_nil_r. split_and!; [done|done|simpl; lia].
  - destruct (IH (Hybrid.playwright_step w st r))
      as (-> & -> & -> & -> & ds2 & -> & Hurls2 & ->).
    destruct (hybrid_playwright_step_eq st r)
      as (-> & -> & -> & -> & ds1 & -> & Hurls1 & ->).
    split_and!; [done..|]. exists (ds1 ++ ds2).
    rewrite <- app_assoc, fmap_app, length_app, Hurls1, Hurls2, <- fmap_app.
    split_and!; [done| |lia].
    by rewrite (filter_app (probed w) [r] rs).
Qed.

End HybridRuns.

Lemma filter_none {A} (P : A → Prop) `{∀ x, Decision (P x)} (l : list A) :
  (∀ x, x ∈ l → ¬ P x) → filter P l = [].
Proof.
  induction l as [|x l IH]; intros Hnone; [done|].
  rewrite filter_cons_False by apply Hnone, list_elem_of_here.
  apply IH. intros y Hy. by apply Hnone, list_elem_of_further.
Qed.

Lemma filter_sublist_mono {A} (P : A → Prop) `{∀ x, Decision (P x)} (l1 l2 : list A) :
  l1 `sublist_of` l2 → filter P l1 `sublist_of` filter P l2.
Proof.
  induction 1 as [|x l1 l2 _ IH|x l1 l2 _ IH]; [done|..]; rewrite ?filter_cons.
  - case_decide; [by apply sublist_skip|done].
  - case_decide; [by apply sublist_cons|done].
Qed.

Section HybridRunTheorems.
Variable w : World.
Variable config : Hybrid.Config.

Lemma hybrid_fast_pass_eq :
  let seeds := seed_queue w (Hybrid.startUrls config) in
  let batch := take (Hybrid.max_requests config) (requests seeds) in
  let barrier := (Hybrid.fast_pass w config).2 in
  requests (Hybrid.fast_pass w config).1 = requests seeds
  ∧ handledCount (Hybrid.fast_pass w config).1 = length batch
  ∧ Hybrid.dataset barrier = []
  ∧ Hybrid.js_processed (Hybrid.stats barrier) = 0
  ∧ Hybrid.fallback_enqueued (Hybrid.stats barrier) = length (omap (deferred_probe w) batch)
  ∧ Hybrid.fallbackUrls barrier = take 10 (omap (deferred_probe w) batch)
  ∧ Hybrid.seen (Hybrid.stats barrier) ≤ length batch.
Proof.
  intros seeds batch barrier. subst barrier. unfold Hybrid.fast_pass, crawl.
  destruct (seed_queue_spec w (Hybrid.startUrls config)) as (Hh & _ & _).
  fold seeds in Hh |- *. unfold pending. rewrite Hh, Nat.sub_0_r. simpl.
  change (drop 0 (requests seeds)) with (requests seeds). fold batch.
  match goal with
  | |- context [foldl (Hybrid.cheerio_step w) ?s batch] =>
      destruct (hybrid_fast_fold w batch s) as (Hds & Hjs & Hfe & Hfb); [simpl; lia|];
      pose proof (hybrid_fast_fold_seen w batch s) as Hseen
  end.
  split_and!; [done|done|exact Hds|exact Hjs|exact Hfe|exact Hfb|exact Hseen].
Qed.

Lemma hybrid_run_eq :
  let seeds := seed_queue w (Hybrid.startUrls config) in
  let batch := take (Hybrid.max_requests config) (requests seeds) in
  let barrier := (Hybrid.fast_pass w config).2 in
  let final := (Hybrid.run w config).2 in
  Hybrid.fallbackUrls final = Hybrid.fallbackUrls barrier
  ∧ Hybrid.seen (Hybrid.stats final) = Hybrid.seen (Hybrid.stats barrier)
  ∧ Hybrid.http_ok (Hybrid.stats final) = Hybrid.http_ok (Hybrid.stats barrier)
  ∧ Hybrid.fallback_enqueued (Hybrid.stats final)
    = Hybrid.fallback_enqueued (Hybrid.stats barrier)
  ∧ ∃ added batch2,
      added `sublist_of` (fallback_request <$> Hybrid.fallbackUrls barrier)
      ∧ batch2 `sublist_of` (requests seeds ++ added)
      ∧ length batch2 ≤ Hybrid.max_requests config - length batch
      ∧ Hybrid.cd_url <$> Hybrid.dataset final = request_url <$> filter (probed w) batch2
      ∧ Hybrid.js_processed (Hybrid.stats final) = length (Hybrid.dataset final).
Proof.
  intros seeds batch barrier final.
  destruct hybrid_fast_pass_eq as (Hreq & Hh & Hds & Hjs & _).
  fold seeds batch barrier in Hreq, Hh, Hds, Hjs.
  subst final barrier. unfold Hybrid.run.
  destruct (Hybrid.fast_pass w config) as [q1 st1]. simpl in Hreq, Hh, Hds, Hjs |- *.
  assert (Hybrid.fallbackUrls (Hybrid.validate_stats st1) = Hybrid.fallbackUrls st1
          ∧ Hybrid.stats (Hybrid.validate_stats st1) = Hybrid.stats st1
          ∧ Hybrid.dataset (Hybrid.validate_stats st1) = Hybrid.dataset st1)
    as (Hvf & Hvs & Hvd).
  { unfold Hybrid.validate_stats. by case_decide. }
  set (st2 := Hybrid.validate_stats st1) in *.
  set (qs := if decide (0 < length (Hybrid.fallbackUrls st2)) then _ else _).
  assert (∃ added, handledCount qs.1 = handledCount q1
                   ∧ requests qs.1 = requests q1 ++ added
                   ∧ added `sublist_of` (fallback_request <$> Hybrid.fallbackUrls st1)
                   ∧ Hybrid.fallbackUrls qs.2 = Hybrid.fallbackUrls st1
                   ∧ Hybrid.stats qs.2 = Hybrid.stats st1
                   ∧ Hybrid.dataset qs.2 = Hybrid.dataset st1)
    as (added & Hh2 & Hreq2 & Hsub & Hqf & Hqs & Hqd).
  { subst qs. case_decide.
    - destruct (reenqueue_added w q1 (Hybrid.fallbackUrls st2)) as (Hh2 & added & Hreq2 & Hsub).
      exists added. simpl. rewrite Hvf in Hsub. by split_and!.
    - exists []. simpl. rewrite app_nil_r. split_and!; [done|done|apply sublist_nil_l|done..]. }
  destruct qs as [q3 st3]. simpl in Hh2, Hreq2, Hqf, Hqs, Hqd.
  unfold crawl.
  set (batch2 := take (Hybrid.max_requests config - handledCount q3) (pending q3)).
  match goal with
  | |- context [foldl (Hybrid.playwright_step w) ?s batch2] =>
      destruct (hybrid_playwright_fold w batch2 s)
        as (Hfb & Hseen & Hok & Hfe & ds & Hfds & Hurls & Hfjs);
      set (st4 := foldl (Hybrid.playwright_step w) s batch2) in *
  end.
  simpl in Hfb, Hseen, Hok, Hfe, Hfds, Hfjs.
  rewrite Hqd, Hds in Hfds. rewrite Hqs, Hjs in Hfjs. simpl in Hfds, Hfjs.
  cbn [snd]. rewrite !HybridFacts.logStats_stats. simpl.
  assert (Hybrid.fallbackUrls (Hybrid.logStats
            (Hybrid.with_stats (λ s, Hybrid.set_js_rate (Hybrid.compute_js_rate s) s) st4))
          = Hybrid.fallbackUrls st4
          ∧ Hybrid.dataset (Hybrid.logStats
              (Hybrid.with_stats (λ s, Hybrid.set_js_rate (Hybrid.compute_js_rate s) s) st4))
            = Hybrid.dataset st4) as [-> ->].
  { unfold Hybrid.logStats. by case_decide. }
  rewrite Hfb, Hseen, Hok, Hfe, Hqf, Hqs.
  split_and!; [done..|]. exists added, batch2. split_and!.
  - done.
  - subst batch2. etrans; [apply sublist_take|]. unfold pending.
    etrans; [apply sublist_drop|]. by rewrite Hreq2, Hreq.
  - subst batch2. rewrite length_take, Hh2, Hh. lia.
  - by rewrite Hfds.
  - by rewrite Hfjs, Hfds.
Qed.

Lemma hybrid_run_records :
  let barrier := (Hybrid.fast_pass w config).2 in
  let final := (Hybrid.run w config).2 in
  Hybrid.dataset barrier = []
  ∧ length (Hybrid.fallbackUrls final)
    = 10 `min` Hybrid.fallback_enqueued (Hybrid.stats final)
  ∧ NoDup (Hybrid.fallbackUrls final)
  ∧ (∀ u, u ∈ Hybrid.fallbackUrls final → u ∈ Hybrid.startUrls config)
  ∧ Hybrid.js_processed (Hybrid.stats final) = length (Hybrid.dataset final)
  ∧ NoDup (Hybrid.cd_url <$> Hybrid.dataset final)
  ∧ (∀ d, d ∈ Hybrid.dataset final → Hybrid.cd_url d ∈ Hybrid.fallbackUrls final)
  ∧ (Hybrid.max_requests config ≤ length (requests (seed_queue w (Hybrid.startUrls config))) →
     Hybrid.dataset final = []).
Proof.
  intros barrier final.
  destruct hybrid_fast_pass_eq as (_ & _ & Hds & _ & Hfe & Hfb & Hseen).
  destruct hybrid_run_eq
    as (Hfb2 & Hseen2 & _ & Hfe2 & added & batch2 & Hadded & Hbatch2 & Hlen & Hurls & Hjs).
  fold barrier in Hds, Hfe, Hfb, Hseen, Hfb2, Hseen2, Hfe2, Hadded.
  fold final in Hfb2, Hseen2, Hfe2, Hurls, Hjs.
  set (seeds := seed_queue w (Hybrid.startUrls config)) in *.
  set (batch := take (Hybrid.max_requests config) (requests seeds)) in *.
  destruct (seed_queue_spec w (Hybrid.startUrls config)) as (_ & _ & Hseeds).
  fold seeds in Hseeds.
  pose proof (seed_queue_urls w (Hybrid.startUrls config)) as Hnd. fold seeds in Hnd.
  assert (batch `sublist_of` requests seeds) as Hbatch by apply sublist_take.
  assert (omap (deferred_probe w) batch `sublist_of` request_url <$> batch) as Hdef.
  { rewrite <- (list_fmap_id (omap _ _)). apply omap_fmap_sublist.
    intros r u Hu. by apply deferred_probe_Some in Hu as ->. }
  assert (filter (probed w) (requests seeds) = []) as Hnone.
  { apply filter_none. intros r Hr. destruct (Hseeds r Hr) as (_ & _ & Hjs').
    unfold probed, needsJs. rewrite Hjs'. by intros ?. }
  assert (NoDup (omap (deferred_probe w) batch)) as Hnd_def.
  { eapply sublist_NoDup; [|exact Hdef].
    eapply sublist_NoDup; [exact Hnd|]. by apply fmap_sublist. }
  assert (NoDup (Hybrid.fallbackUrls final)) as Hnd_fb.
  { rewrite Hfb2, Hfb. eapply sublist_NoDup; [exact Hnd_def|apply sublist_take]. }
  assert (Hybrid.cd_url <$> Hybrid.dataset final `sublist_of` Hybrid.fallbackUrls final)
    as Hsub.
  { rewrite Hurls, Hfb2.
    etrans; [apply fmap_sublist, (filter_sublist_mono (probed w)), Hbatch2|].
    rewrite filter_app, Hnone. simpl.
    etrans; [apply fmap_sublist, sublist_filter|].
    etrans; [apply fmap_sublist, Hadded|].
    rewrite <- list_fmap_compose.
    by rewrite (list_fmap_ext (request_url ∘ fallback_request) id), list_fmap_id. }
  split_and!; [done| |done| |done| | |].
  - rewrite Hfb2, Hfe2, Hfb, Hfe. apply length_take.
  - intros u Hu. rewrite Hfb2, Hfb in Hu.
    assert (u ∈ request_url <$> batch) as Hin.
    { eapply elem_of_sublist; [exact Hu|]. etrans; [apply sublist_take|exact Hdef]. }
    apply list_elem_of_fmap in Hin as (r & -> & Hr).
    apply Hseeds. eapply elem_of_sublist; [exact Hr|exact Hbatch].
  - eapply sublist_NoDup; [exact Hnd_fb|exact Hsub].
  - intros d Hd. eapply elem_of_sublist; [|exact Hsub]. by apply list_elem_of_fmap_2.
  - intros Hbudget. subst batch. rewrite length_take in Hlen.
    assert (batch2 = []) as -> by (apply length_zero_iff_nil; lia).
    rewrite filter_nil in Hurls. by apply fmap_nil_inv in Hurls.
Qed.

End HybridRunTheorems.


(** The two crawlers of the hybrid crawler share one request queue, and
    [maxRequestsPerCrawl], 10 by default, counts the requests that queue
    has handled: when the queue holds at least that many start requests,
    the fast pass uses up the budget and the fallback pass handles no
    request, so the run stores no record and [js_processed] stays 0,
    whatever was deferred. *)
Theorem hybrid_budget_is_shared (w : World) (config : Hybrid.Config) :
  Hybrid.max_requests config ≤ length (requests (seed_queue w (Hybrid.startUrls config))) →
  Hybrid.dataset (Hybrid.run w config).2 = []
  ∧ Hybrid.js_processed (Hybrid.getStats w config) = 0.
Proof.
  intros Hbudget.
  destruct (hybrid_run_records w config) as (_ & _ & _ & _ & Hjs & _ & _ & Hnone).
  unfold Hybrid.getStats. rewrite Hjs, (Hnone Hbudget). done.
Qed.

(** With the default budget of ten requests, ten start URLs whose pages
    are all deferred get no fallback: ten URLs are listed, none is
    rendered. *)
Lemma ten_deferred_urls_get_no_fallback :
  let w := Example.uniform_world Example.blank_page Example.blank_rendered in
  let config := {| Hybrid.startUrls := take 10 Example.eleven_urls;
                   Hybrid.maxRequestsPerCrawl := None |} in
  length (Hybrid.fallbackUrls (Hybrid.run w config).2) = 10
  ∧ Hybrid.dataset (Hybrid.run w config).2 = []
  ∧ Hybrid.js_processed (Hybrid.getStats w config) = 0.
Proof.
  intros w config. split; [vm_compute; reflexivity|].
  apply (hybrid_budget_is_shared w config). vm_compute. lia.
Defined.

(** ** The harvest server *)

Lemma filter_all {A} (P : A → Prop) `{∀ x, Decision (P x)} (l : list A) :
  (∀ x, x ∈ l → P x) → filter P l = l.
Proof.
  induction l as [|x l IH]; intros Hall; [done|].
  rewrite filter_cons_True by apply Hall, list_elem_of_here.
  f_equal. apply IH. intros y Hy. by apply Hall, list_elem_of_further.
Qed.

Section ServerFacts.
Context `{Runtime}.

Lemma requested_iff urls item :
  Server.requested (Set_new (toLowerCase <$> urls)) item = true
  ↔ ∃ u, u ∈ urls ∧ toLowerCase u `prefix_of` toLowerCase (ContentDoc.url item).
Proof.
  unfold Server.requested. rewrite orb_true_iff, bool_decide_eq_true, existsb_exists.
  split.
  - intros [Hin|(req & Hin & Hpre)].
    + apply elem_of_Set_new, list_elem_of_fmap in Hin as (u & Heq & Hu).
      exists u. by rewrite <- Heq.
    + apply list_elem_of_In, elem_of_Set_new, list_elem_of_fmap in Hin as (u & -> & Hu).
      apply bool_decide_eq_true in Hpre. by exists u.
  - intros (u & Hu & Hpre). right. exists (toLowerCase u). split.
    + apply list_elem_of_In, elem_of_Set_new, list_elem_of_fmap. by exists u.
    + by apply bool_decide_eq_true.
Qed.

Lemma count_mode_total (items : list ContentDoc) :
  length items = Server.count_mode http items + Server.count_mode js items.
Proof.
  unfold Server.count_mode. induction items as [|item items IH]; [done|].
  rewrite !filter_cons. simpl.
  destruct (ContentDoc.render_mode item);
    repeat case_decide; try done; simpl; lia.
Qed.

Lemma harvest_response_run (w : World) (config : Harvester.Config)
    (stored : list ContentDoc) :
  let urls := Harvester.startUrls config in
  let docs := Harvester.dataset (Harvester.run w config).2 in
  let response := (Server.harvest_response urls (stored ++ docs)).2 in
  Server.data response = Server.data (Server.harvest_response urls stored).2 ++ docs
  ∧ Server.total (Server.stats response) = length (Server.data response)
  ∧ Server.total (Server.stats response)
    = Server.httpCount (Server.stats response) + Server.jsCount (Server.stats response)
  ∧ (∀ item, item ∈ stored →
       item ∈ Server.data response
       ↔ ∃ u, u ∈ urls ∧ toLowerCase u `prefix_of` toLowerCase (ContentDoc.url item)).
Proof.
  intros urls docs response. subst response. unfold Server.harvest_response. simpl.
  destruct (run_documents w config) as (_ & _ & _ & _ & Hstart & _).
  fold docs in Hstart. fold urls in Hstart.
  rewrite filter_app.
  rewrite (filter_all _ docs).
  2: { intros d Hd. apply Is_true_true, requested_iff. exists (ContentDoc.url d).
       split; [by apply Hstart|done]. }
  split_and!; [done|done|apply count_mode_total|].
  intros item Hitem. rewrite elem_of_app, list_elem_of_filter, Is_true_true, requested_iff.
  split; [|by left].
  intros [[? _]|Hd]; [done|]. exists (ContentDoc.url item). split; [by apply Hstart|done].
Qed.

End ServerFacts.

(** The response of the harvest server holds every document the run
    stored, after the items the named data set kept from earlier runs that
    pass the filter; an earlier item passes when, case ignored, a
    requested URL is a prefix of its URL. [stats.total] is the number of
    returned items and the sum of [stats.http] and [stats.js]. *)
Theorem server_returns_every_run_document `{Runtime}
    (w : World) (config : Harvester.Config) (stored : list ContentDoc) :
  let urls := Harvester.startUrls config in
  let docs := Harvester.dataset (Harvester.run w config).2 in
  let response := (Server.harvest_response urls (stored ++ docs)).2 in
  Server.data response = Server.data (Server.harvest_response urls stored).2 ++ docs
  ∧ Server.total (Server.stats response) = length (Server.data response)
  ∧ Server.total (Server.stats response)
    = Server.httpCount (Server.stats response) + Server.jsCount (Server.stats response)
  ∧ (∀ item, item ∈ stored →
       item ∈ Server.data response
       ↔ ∃ u, u ∈ urls ∧ toLowerCase u `prefix_of` toLowerCase (ContentDoc.url item)).
Proof. apply harvest_response_run. Qed.

(** ** The two paths of the JSON-LD extraction *)

Section JsonLdPaths.
Context `{Runtime}.

Lemma extractJsonLd_agree (ch : CheerioAPI) (page : Page)
    (els : list Element) (scripts : list ElementHandle) :
  JSON_parse [] = None →
  select ch (css "script[type='application/ld+json']") = Normal els →
  locator_all page (css "script[type='application/ld+json']") = Normal scripts →
  Forall2 (λ el script, textContent script = Normal (Some (el_text el))) els scripts →
  extractJsonLd None (Some page) = extractJsonLd (Some ch) None.
Proof.
  intros Hempty Hels Hscripts Hall. unfold extractJsonLd.
  rewrite Hels, Hscripts. simpl. f_equal. clear Hels Hscripts. generalize (@nil json).
  induction Hall as [|el script els scripts Htext _ IH]; intros acc; simpl; [done|].
  rewrite Htext, IH. f_equal.
  destruct (el_text el) as [|c text]; [|done].
  unfold parse_jsonld. by rewrite Hempty.
Qed.

End JsonLdPaths.

(** On a rendered page that shows the scripts of the static page with the
    same texts, the fallback path of [extractJsonLd] returns the list of
    the fast path. An empty script is skipped on both paths: the fast path
    fails to parse it, the fallback path does not try. *)
Theorem extractJsonLd_paths_agree `{Runtime} (ch : CheerioAPI) (page : Page)
    (els : list Element) (scripts : list ElementHandle) :
  JSON_parse [] = None →
  select ch (css "script[type='application/ld+json']") = Normal els →
  locator_all page (css "script[type='application/ld+json']") = Normal scripts →
  Forall2 (λ el script, textContent script = Normal (Some (el_text el))) els scripts →
  extractJsonLd None (Some page) = extractJsonLd (Some ch) None.
Proof. apply extractJsonLd_agree. Qed.

(** The three sample scripts give one parsed object on the rendered page,
    as on the static page. *)
Lemma jsonld_rendered_as_static :
  extractJsonLd (H := Example.runtime) None (Some Sample.jsonld_rendered)
  = Normal [JObject [(lit "@type", JString (lit "Organization"))]].
Proof.
  rewrite (extractJsonLd_paths_agree (H := Example.runtime) Sample.jsonld_static
             Sample.jsonld_rendered (Example.element <$> Sample.jsonld_scripts)
             (Sample.handle <$> Sample.jsonld_scripts)).
  - vm_compute. reflexivity.
  - vm_compute. reflexivity.
  - vm_compute. reflexivity.
  - vm_compute. reflexivity.
  - repeat constructor.
Defined.
